(** * go-oprf: OPRF, threshold OPRF and DKG over ristretto255

    A shallow embedding of the packages [oprf], [toprf] and [dkg] of
    wurp/go-oprf, together with the properties the specification states
    about them.

    Layout of the development:
    - byte strings, Go slices and the result type;
    - [crypto/sha512] (FIPS 180-4);
    - the scalar field of ristretto255, as [Zmod ell];
    - the group API of [github.com/gtank/ristretto255] as a class, with the
      implementation of RFC 9496 as one instance;
    - package [oprf], package [toprf], package [dkg];
    - the theorems. *)

From Stdlib Require Import ZArith List Lia Bool Strings.Byte String Ascii.
From Stdlib Require Import Znumtheory Zmod Zstar Permutation Morphisms Setoid Ring.
Import ListNotations.
#[local] Open Scope Z_scope.

(** ** Bytes and byte strings *)

Definition bytes := list byte.

Definition byte_to_Z (b : byte) : Z := Z.of_N (Byte.to_N b).

(** Go's conversion [byte(v)]: the low eight bits. *)
Definition Z_to_byte (z : Z) : byte :=
  match Byte.of_N (Z.to_N (z mod 256)) with
  | Some b => b
  | None => x00
  end.

(** [len(s)] as a Go [int]. *)
Definition len {A : Type} (s : list A) : Z := Z.of_nat (List.length s).

(** [make([]byte, n)]: [n] zero bytes. *)
Definition make_bytes (n : nat) : bytes := repeat x00 n.

(** Big-endian and little-endian readings of a byte string. *)
Definition be_int (bs : bytes) : Z :=
  fold_left (fun acc b => acc * 256 + byte_to_Z b) bs 0.

Fixpoint le_int (bs : bytes) : Z :=
  match bs with
  | [] => 0
  | b :: r => byte_to_Z b + 256 * le_int r
  end.

(** The [n] low bytes of [z], least significant first. *)
Fixpoint le_bytes (n : nat) (z : Z) : bytes :=
  match n with
  | O => []
  | S k => Z_to_byte z :: le_bytes k (z / 256)
  end.

Definition be_bytes (n : nat) (z : Z) : bytes := rev (le_bytes n z).

(** [binary.BigEndian.PutUint16(buf, v)] on a two-byte buffer; [v] is
    already a [uint16]. *)
Definition PutUint16 (v : Z) : bytes := [Z_to_byte (v / 256); Z_to_byte v].

(** Go's conversions [uint16(n)] and [uint8(n)]. *)
Definition uint16 (n : Z) : Z := n mod 65536.
Definition uint8 (n : Z) : Z := n mod 256.

(** Go's [int], taken as 64 bits wide, two's complement. *)
Definition int_wrap (z : Z) : Z := (z + 2 ^ 63) mod 2 ^ 64 - 2 ^ 63.

(** Hexadecimal notation for the test vectors. *)
Definition hex_digit (c : ascii) : Z :=
  let n := Z.of_nat (nat_of_ascii c) in
  if (48 <=? n) && (n <=? 57) then n - 48
  else if (97 <=? n) && (n <=? 102) then n - 87
  else if (65 <=? n) && (n <=? 70) then n - 55
  else 0.

Fixpoint unhex (s : string) : bytes :=
  match s with
  | String a (String b r) => Z_to_byte (16 * hex_digit a + hex_digit b) :: unhex r
  | _ => []
  end.

Definition bytes_of_string (s : string) : bytes := list_byte_of_string s.

Definition bytes_eqb (a b : bytes) : bool :=
  (List.length a =? List.length b)%nat &&
  forallb (fun p => Byte.eqb (fst p) (snd p)) (combine a b).

(** ** Results of a Go call

    A Go function of this library returns a value and a nil error, or an
    error, or it does not return: an index or slice expression out of range
    panics, and the runtime aborts the process when the random source of the
    system fails ([Panic] in both cases). *)

Inductive error : Type :=
  (* package oprf *)
  | ErrLenInBytesTooLarge   (* "lenInBytes too large for expand_message_xmd" *)
  | ErrExpandMessage (e : error) (* "expand_message_xmd failed: %w" *)
  | ErrHashToGroup (e : error)   (* "hashToGroup failed: %w" *)
  | ErrBlindLength          (* "blind must be %d bytes, got %d" *)
  | ErrInvalidBlindScalar   (* "invalid blind scalar: %w" *)
  | ErrRandom               (* "failed to generate random bytes: %w" *)
  | ErrKeyLength            (* "private key must be %d bytes, got %d" *)
  | ErrAlphaLength          (* "alpha must be %d bytes, got %d" *)
  | ErrInvalidKey           (* "invalid private key: %w" *)
  | ErrInvalidAlpha         (* "invalid alpha element: %w" *)
  | ErrBlindScalarLength    (* "blind scalar must be %d bytes, got %d" *)
  | ErrBetaLength           (* "beta must be %d bytes, got %d" *)
  | ErrInvalidBeta          (* "invalid beta element: %w" *)
  | ErrNLength              (* "n must be %d bytes, got %d" *)
  (* package toprf *)
  | ErrShareLength          (* "toprf: invalid share length" *)
  | ErrPartLength           (* "toprf: invalid part length" *)
  | ErrShareValueNil        (* "toprf: share value is nil" *)
  | ErrPartElementNil       (* "toprf: part element is nil" *)
  | ErrDecode               (* the error of Scalar.Decode / Element.Decode *)
  | ErrNoShares             (* "toprf: no shares provided" *)
  | ErrInvalidThreshold     (* "toprf: invalid threshold parameters" *)
  | ErrThresholdExceedsN    (* "toprf: threshold cannot exceed n" *)
  | ErrBlindedLength        (* "toprf: invalid blinded element length" *)
  | ErrNoResponses          (* "toprf: no responses to combine" *)
  | ErrTooManyResponses     (* "toprf: too many responses" *)
  (* package dkg *)
  | ErrShareIndex           (* "dkg: share has incorrect index" *)
  | ErrCommitment.          (* "dkg: commitment verification failed" *)

Inductive result (A : Type) : Type :=
  | Ok (a : A)
  | Err (e : error)
  | Panic.
Arguments Ok {A} a.
Arguments Err {A} e.
Arguments Panic {A}.

Definition bind {A B : Type} (r : result A) (f : A -> result B) : result B :=
  match r with
  | Ok a => f a
  | Err e => Err e
  | Panic => Panic
  end.

Notation "x <- r ;; k" := (bind r (fun x => k))
  (at level 61, r at next level, right associativity).

Definition is_Ok {A : Type} (r : result A) : bool :=
  match r with Ok _ => true | _ => false end.

Definition is_Err {A : Type} (r : result A) : bool :=
  match r with Err _ => true | _ => false end.

(** ** crypto/sha512

    Model of the standard library's SHA-512 after FIPS 180-4: 64-bit words
    as [Z] below [2^64], additions reduced modulo [2^64]. *)

Module sha512.

Definition Size : Z := 64.
Definition BlockSize : Z := 128.

Definition add64 (a b : Z) : Z := (a + b) mod 2 ^ 64.
Definition rotr (n x : Z) : Z :=
  Z.lor (Z.shiftr x n) (Z.shiftl x (64 - n) mod 2 ^ 64).

Definition Ch (x y z : Z) : Z := Z.lxor (Z.land x y) (Z.ldiff z x).
Definition Maj (x y z : Z) : Z :=
  Z.lxor (Z.lxor (Z.land x y) (Z.land x z)) (Z.land y z).
Definition Sigma0 (x : Z) : Z := Z.lxor (Z.lxor (rotr 28 x) (rotr 34 x)) (rotr 39 x).
Definition Sigma1 (x : Z) : Z := Z.lxor (Z.lxor (rotr 14 x) (rotr 18 x)) (rotr 41 x).
Definition sigma0 (x : Z) : Z := Z.lxor (Z.lxor (rotr 1 x) (rotr 8 x)) (Z.shiftr x 7).
Definition sigma1 (x : Z) : Z := Z.lxor (Z.lxor (rotr 19 x) (rotr 61 x)) (Z.shiftr x 6).

Definition K : list Z :=
  [
   0x428a2f98d728ae22; 0x7137449123ef65cd; 0xb5c0fbcfec4d3b2f; 0xe9b5dba58189dbbc;
   0x3956c25bf348b538; 0x59f111f1b605d019; 0x923f82a4af194f9b; 0xab1c5ed5da6d8118;
   0xd807aa98a3030242; 0x12835b0145706fbe; 0x243185be4ee4b28c; 0x550c7dc3d5ffb4e2;
   0x72be5d74f27b896f; 0x80deb1fe3b1696b1; 0x9bdc06a725c71235; 0xc19bf174cf692694;
   0xe49b69c19ef14ad2; 0xefbe4786384f25e3; 0x0fc19dc68b8cd5b5; 0x240ca1cc77ac9c65;
   0x2de92c6f592b0275; 0x4a7484aa6ea6e483; 0x5cb0a9dcbd41fbd4; 0x76f988da831153b5;
   0x983e5152ee66dfab; 0xa831c66d2db43210; 0xb00327c898fb213f; 0xbf597fc7beef0ee4;
   0xc6e00bf33da88fc2; 0xd5a79147930aa725; 0x06ca6351e003826f; 0x142929670a0e6e70;
   0x27b70a8546d22ffc; 0x2e1b21385c26c926; 0x4d2c6dfc5ac42aed; 0x53380d139d95b3df;
   0x650a73548baf63de; 0x766a0abb3c77b2a8; 0x81c2c92e47edaee6; 0x92722c851482353b;
   0xa2bfe8a14cf10364; 0xa81a664bbc423001; 0xc24b8b70d0f89791; 0xc76c51a30654be30;
   0xd192e819d6ef5218; 0xd69906245565a910; 0xf40e35855771202a; 0x106aa07032bbd1b8;
   0x19a4c116b8d2d0c8; 0x1e376c085141ab53; 0x2748774cdf8eeb99; 0x34b0bcb5e19b48a8;
   0x391c0cb3c5c95a63; 0x4ed8aa4ae3418acb; 0x5b9cca4f7763e373; 0x682e6ff3d6b2b8a3;
   0x748f82ee5defb2fc; 0x78a5636f43172f60; 0x84c87814a1f0ab72; 0x8cc702081a6439ec;
   0x90befffa23631e28; 0xa4506cebde82bde9; 0xbef9a3f7b2c67915; 0xc67178f2e372532b;
   0xca273eceea26619c; 0xd186b8c721c0c207; 0xeada7dd6cde0eb1e; 0xf57d4f7fee6ed178;
   0x06f067aa72176fba; 0x0a637dc5a2c898a6; 0x113f9804bef90dae; 0x1b710b35131c471b;
   0x28db77f523047d84; 0x32caab7b40c72493; 0x3c9ebe0a15c9bebc; 0x431d67c49c100d4c;
   0x4cc5d4becb3e42b6; 0x597f299cfc657e2a; 0x5fcb6fab3ad6faec; 0x6c44198c4a475817  ].

Definition H0 : list Z :=
  [
   0x6a09e667f3bcc908; 0xbb67ae8584caa73b; 0x3c6ef372fe94f82b; 0xa54ff53a5f1d36f1;
   0x510e527fade682d1; 0x9b05688c2b3e6c1f; 0x1f83d9abfb41bd6b; 0x5be0cd19137e2179  ].

(** Message schedule, most recent word first: [r] holds [W_(t-1) .. W_(t-16)]
    at its head. *)
Fixpoint schedule (n : nat) (r : list Z) : list Z :=
  match n with
  | O => r
  | S k =>
      let w := add64 (add64 (sigma1 (nth 1 r 0)) (nth 6 r 0))
                     (add64 (sigma0 (nth 14 r 0)) (nth 15 r 0)) in
      schedule k (w :: r)
  end.

Definition round (s : list Z) (kw : Z * Z) : list Z :=
  match s with
  | [a; b; c; d; e; f; g; h] =>
      let T1 := add64 (add64 (add64 h (Sigma1 e)) (add64 (Ch e f g) (fst kw))) (snd kw) in
      let T2 := add64 (Sigma0 a) (Maj a b c) in
      [add64 T1 T2; a; b; c; add64 d T1; e; f; g]
  | _ => s
  end.

(** Sixteen big-endian words of a 128-byte block. *)
Fixpoint words (n : nat) (bs : bytes) : list Z :=
  match n with
  | O => []
  | S k => be_int (firstn 8 bs) :: words k (skipn 8 bs)
  end.

Definition compress (h : list Z) (block : bytes) : list Z :=
  let W := rev (schedule 64 (rev (words 16 block))) in
  let s := fold_left round (combine K W) h in
  map (fun p => add64 (fst p) (snd p)) (combine h s).

Definition pad (msg : bytes) : bytes :=
  let l := len msg in
  let k := (BlockSize - (l + 17) mod BlockSize) mod BlockSize in
  msg ++ [x80] ++ make_bytes (Z.to_nat k) ++ be_bytes 16 (8 * l).

Fixpoint blocks (n : nat) (h : list Z) (bs : bytes) : list Z :=
  match n with
  | O => h
  | S k => blocks k (compress h (firstn 128 bs)) (skipn 128 bs)
  end.

Definition Sum512 (msg : bytes) : bytes :=
  let p := pad msg in
  let h := blocks (Nat.div (List.length p) 128) H0 p in
  flat_map (be_bytes 8) h.

(** The streaming interface [hash.Hash]: the state is what was written
    since the last [Reset]. *)
Definition Hash := bytes.
Definition New : Hash := [].
Definition Write (h : Hash) (p : bytes) : Hash := h ++ p.
Definition Sum (h : Hash) : bytes := Sum512 h.
Definition Reset (h : Hash) : Hash := [].

End sha512.


(** ** github.com/gtank/ristretto255: scalars

    The scalar field is the integers modulo the group order [ell]; a
    [Scalar] is a residue, its wire form the 32-byte little-endian
    encoding of the representative below [ell]. *)

Definition ell : Z := 2 ^ 252 + 27742317777372353535851937790883648493.

Abbreviation Scalar := (Zmod ell).

Definition ScalarBytes : Z := 32.
Definition ElementBytes : Z := 32.

(** [ristretto255.NewScalar()]: the zero scalar. *)
Definition NewScalar : Scalar := Zmod.zero.

(** [s.Decode(b)]: fails unless [b] is the canonical 32-byte encoding. *)
Definition Scalar_Decode (b : bytes) : option Scalar :=
  if (len b =? 32) && (le_int b <? ell) then Some (Zmod.of_Z ell (le_int b))
  else None.

(** [s.Encode(nil)]. *)
Definition Scalar_Encode (s : Scalar) : bytes := le_bytes 32 (Zmod.to_Z s).

(** [s.FromUniformBytes(b)]: the 64-byte little-endian integer, reduced. *)
Definition Scalar_FromUniformBytes (b : bytes) : Scalar :=
  Zmod.of_Z ell (le_int b).

(** [s.Add(x, y)], [s.Subtract(x, y)] (that is [x - y]), [s.Multiply(x, y)]
    and [s.Invert(x)]; inversion raises to the power [ell - 2], so the
    inverse of zero is zero. *)
Definition Scalar_Add (x y : Scalar) : Scalar := Zmod.add x y.
Definition Scalar_Subtract (x y : Scalar) : Scalar := Zmod.sub x y.
Definition Scalar_Multiply (x y : Scalar) : Scalar := Zmod.mul x y.
Definition Scalar_Invert (x : Scalar) : Scalar := Zmod.pow x (ell - 2).

(** A call [s.Decode(b)] whose error is dropped: the receiver keeps its
    value when decoding fails. *)
Definition Scalar_Decode_into (s : Scalar) (b : bytes) : Scalar :=
  match Scalar_Decode b with
  | Some s' => s'
  | None => s
  end.

(** ** github.com/gtank/ristretto255: group elements

    The operations of [ristretto255.Element] that the library calls.  The
    packages below are written against this interface; [R255] implements it
    after RFC 9496. *)

Class Group : Type := {
  Element : Type;
  NewElement : Element;                         (* the identity *)
  Element_Add : Element -> Element -> Element;
  Element_ScalarMult : Scalar -> Element -> Element;
  Element_ScalarBaseMult : Scalar -> Element;
  Element_Encode : Element -> bytes;
  Element_Decode : bytes -> option Element;
  Element_FromUniformBytes : bytes -> Element
}.

(** Two elements are the same group element when their canonical encodings
    agree: this is the equality the library itself uses. *)
Definition Element_Equal {G : Group} (P Q : Element) : Prop :=
  Element_Encode P = Element_Encode Q.

(** [e.Decode(b)] with the error dropped. *)
Definition Element_Decode_into {G : Group} (e : Element) (b : bytes) : Element :=
  match Element_Decode b with
  | Some e' => e'
  | None => e
  end.

(** *** The field of integers modulo [2^255 - 19] *)

Module field.

Definition p : Z := 2 ^ 255 - 19.

(** Reduction of [0 <= x < 2^510] modulo [p], folding the bits above 255
    down twice ([2^255 = 19] modulo [p]) as the field library does. *)
Definition fold255 (x : Z) : Z := Z.land x (2 ^ 255 - 1) + 19 * Z.shiftr x 255.
Definition reduce (x : Z) : Z :=
  let z := fold255 (fold255 x) in
  if z <? p then z else z - p.

Definition add (a b : Z) : Z := reduce (a + b).
Definition sub (a b : Z) : Z := reduce (a + p - b).
Definition neg (a : Z) : Z := reduce (p - a).
Definition mul (a b : Z) : Z := reduce (a * b).
Definition sq (a : Z) : Z := mul a a.
Definition pow (a : Z) (e : positive) : Z := Pos.iter_op mul e a.

Definition is_negative (a : Z) : bool := Z.odd a.
Definition abs (a : Z) : Z := if is_negative a then neg a else a.

Definition D : Z :=
  37095705934669439343138083508754565189542113879843219016388785533085940283555.
Definition SQRT_M1 : Z :=
  19681161376707505956807079304988542015446066515923890162744021073123829784752.
Definition SQRT_AD_MINUS_ONE : Z :=
  25063068953384623474111414158702152701244531502492656460079210482610430750235.
Definition INVSQRT_A_MINUS_D : Z :=
  54469307008909316920995813868745141605393597292927456921205312896311721017578.
Definition ONE_MINUS_D_SQ : Z :=
  1159843021668779879193775521855586647937357759715417654439879720876111806838.
Definition D_MINUS_ONE_SQ : Z :=
  40440834346308536858101042469323190826248399146238708352240133220865137265952.

(** SQRT_RATIO_M1 of RFC 9496, section 4.2. *)
Definition sqrt_ratio_m1 (u v : Z) : bool * Z :=
  let v3 := mul (sq v) v in
  let v7 := mul (sq v3) v in
  let r := mul (mul u v3) (pow (mul u v7) (Z.to_pos ((p - 5) / 8))) in
  let check := mul v (sq r) in
  let correct_sign := check =? u in
  let flipped_sign := check =? neg u in
  let flipped_sign_i := check =? mul (neg u) SQRT_M1 in
  let r := if flipped_sign || flipped_sign_i then mul SQRT_M1 r else r in
  (correct_sign || flipped_sign, abs r).

End field.

(** *** Points in extended coordinates and the ristretto255 maps *)

Module edwards.

Import field.

Record Point : Type := mkPoint { X : Z; Y : Z; Zc : Z; T : Z }.

Definition identity : Point := mkPoint 0 1 1 0.

Definition basepoint : Point :=
  let x := 15112221349535400772501151409588531511454012693041857206046113283949847762202 in
  let y := 46316835694926478169428394003475163141307993866256225615783033603165251855960 in
  mkPoint x y 1 (mul x y).

(** Unified addition on the twisted Edwards curve [-x^2 + y^2 = 1 + D x^2 y^2]. *)
Definition padd (P Q : Point) : Point :=
  let A := mul (sub (Y P) (X P)) (sub (Y Q) (X Q)) in
  let B := mul (add (Y P) (X P)) (add (Y Q) (X Q)) in
  let C := mul (mul (T P) (mul 2 D)) (T Q) in
  let Dd := mul (mul (Zc P) 2) (Zc Q) in
  let E := sub B A in
  let F := sub Dd C in
  let G := add Dd C in
  let H := add B A in
  mkPoint (mul E F) (mul G H) (mul F G) (mul E H).

(** Scalar multiplication, by doubling and adding along the bits of the
    representative. *)
Fixpoint pmul_pos (k : positive) (P : Point) : Point :=
  match k with
  | xH => P
  | xO k' => let Q := pmul_pos k' P in padd Q Q
  | xI k' => let Q := pmul_pos k' P in padd (padd Q Q) P
  end.

Definition pmul (k : Z) (P : Point) : Point :=
  match k with
  | Zpos k' => pmul_pos k' P
  | _ => identity
  end.

(** Decode of RFC 9496, section 4.3.1. *)
Definition decode (b : bytes) : option Point :=
  if negb (len b =? 32) then None else
  let s := le_int b in
  if negb (s <? p) || is_negative s then None else
  let ss := sq s in
  let u1 := sub 1 ss in
  let u2 := add 1 ss in
  let u2_sqr := sq u2 in
  let v := sub (neg (mul D (sq u1))) u2_sqr in
  let '(was_square, invsqrt) := sqrt_ratio_m1 1 (mul v u2_sqr) in
  let den_x := mul invsqrt u2 in
  let den_y := mul (mul invsqrt den_x) v in
  let x := abs (mul (mul 2 s) den_x) in
  let y := mul u1 den_y in
  let t := mul x y in
  if negb was_square || is_negative t || (y =? 0) then None
  else Some (mkPoint x y 1 t).

(** Encode of RFC 9496, section 4.3.2. *)
Definition encode (P : Point) : bytes :=
  let u1 := mul (add (Zc P) (Y P)) (sub (Zc P) (Y P)) in
  let u2 := mul (X P) (Y P) in
  let invsqrt := snd (sqrt_ratio_m1 1 (mul u1 (sq u2))) in
  let den1 := mul invsqrt u1 in
  let den2 := mul invsqrt u2 in
  let z_inv := mul (mul den1 den2) (T P) in
  let ix0 := mul (X P) SQRT_M1 in
  let iy0 := mul (Y P) SQRT_M1 in
  let enchanted_denominator := mul den1 INVSQRT_A_MINUS_D in
  let rotate := is_negative (mul (T P) z_inv) in
  let x := if rotate then iy0 else X P in
  let y := if rotate then ix0 else Y P in
  let den_inv := if rotate then enchanted_denominator else den2 in
  let y := if is_negative (mul x z_inv) then neg y else y in
  let s := abs (mul den_inv (sub (Zc P) y)) in
  le_bytes 32 s.

(** The map MAP of RFC 9496, section 4.3.4 (Elligator). *)
Definition elligator (t : Z) : Point :=
  let r := mul SQRT_M1 (sq t) in
  let u := mul (add r 1) ONE_MINUS_D_SQ in
  let v := mul (sub (neg 1) (mul r D)) (add r D) in
  let '(was_square, s) := sqrt_ratio_m1 u v in
  let s_prime := neg (abs (mul s t)) in
  let s := if was_square then s else s_prime in
  let c := if was_square then neg 1 else r in
  let N := sub (mul (mul c (sub r 1)) D_MINUS_ONE_SQ) v in
  let w0 := mul (mul 2 s) v in
  let w1 := mul N SQRT_AD_MINUS_ONE in
  let w2 := sub 1 (sq s) in
  let w3 := add 1 (sq s) in
  mkPoint (mul w0 w3) (mul w2 w1) (mul w1 w3) (mul w0 w2).

(** The one-way map from 64 uniform bytes: each half is read little-endian
    with its top bit cleared, mapped, and the two points are added. *)
Definition from_uniform_bytes (b : bytes) : Point :=
  let t1 := reduce (Z.land (le_int (firstn 32 b)) (2 ^ 255 - 1)) in
  let t2 := reduce (Z.land (le_int (firstn 32 (skipn 32 b))) (2 ^ 255 - 1)) in
  padd (elligator t1) (elligator t2).

End edwards.

(** The implementation of the element API by RFC 9496. *)
Definition R255 : Group := {|
  Element := edwards.Point;
  NewElement := edwards.identity;
  Element_Add := edwards.padd;
  Element_ScalarMult := fun s P => edwards.pmul (Zmod.to_Z s) P;
  Element_ScalarBaseMult := fun s => edwards.pmul (Zmod.to_Z s) edwards.basepoint;
  Element_Encode := edwards.encode;
  Element_Decode := edwards.decode;
  Element_FromUniformBytes := edwards.from_uniform_bytes
|}.

(** The same API on discrete logarithms: a group element [k . g] is
    represented by [k], the base point by [1].  Every group of prime order
    [ell] has this shape. *)
Definition DLog : Group := {|
  Element := Scalar;
  NewElement := Zmod.zero;
  Element_Add := Zmod.add;
  Element_ScalarMult := Zmod.mul;
  Element_ScalarBaseMult := fun s => s;
  Element_Encode := Scalar_Encode;
  Element_Decode := Scalar_Decode;
  Element_FromUniformBytes := Scalar_FromUniformBytes
|}.

(** ** crypto/rand

    The entropy source, as seen by one call of a library function: whether
    its [k]-th read fails and, when it does not, the bytes it delivers.
    The module is built with Go 1.24 ([go.mod]), where [rand.Read(buf)]
    fills the whole buffer and never returns an error: when the random
    source of the system fails, the runtime aborts the process.  The
    callers still test the error, a branch that no read reaches. *)

Record Entropy : Type := {
  rand_fails : nat -> bool;
  rand_byte : nat -> nat -> byte
}.

Definition rand_Read (E : Entropy) (k : nat) (n : nat) : result bytes :=
  if rand_fails E k then Panic else Ok (map (rand_byte E k) (seq 0 n)).

(** Slicing [s[:n]]: panics unless [0 <= n <= len(s)].  (Go allows [n] up
    to the capacity; every slice cut below has capacity equal to its
    length, or is cut at [0].) *)
Definition slice_to (s : bytes) (n : Z) : result bytes :=
  if (0 <=? n) && (n <=? len s) then Ok (firstn (Z.to_nat n) s) else Panic.

Definition byte_xor (a b : byte) : byte :=
  Z_to_byte (Z.lxor (byte_to_Z a) (byte_to_Z b)).

(** ** Package oprf *)

Module oprf.

Definition OPRF_BYTES : Z := 64.
Definition HashBytes : Z := 64.

Definition HashToGroupDST : bytes :=
  bytes_of_string "HashToGroup-OPRFV1-" ++ [x00] ++ bytes_of_string "-ristretto255-SHA512".

Definition FinalizeDST : bytes := bytes_of_string "Finalize".

Definition sha512OutputBytes : Z := 64.
Definition sha512BlockSize : Z := 128.

(** The loop [for i := 2; i <= ell; i++] of [expandMessageXMD], [n]
    iterations from counter [i]. *)
Fixpoint expand_loop (n : nat) (i : Z) (b0 bPrev dstPrime uniformBytes : bytes) : bytes :=
  match n with
  | O => uniformBytes
  | S k =>
      let xorResult :=
        map (fun j => byte_xor (nth j b0 x00) (nth j bPrev x00))
            (seq 0 (Z.to_nat sha512OutputBytes)) in
      let h := sha512.Reset sha512.New in
      let h := sha512.Write h xorResult in
      let h := sha512.Write h [Z_to_byte i] in
      let h := sha512.Write h dstPrime in
      let bi := sha512.Sum h in
      expand_loop k (int_wrap (i + 1)) b0 bi dstPrime (uniformBytes ++ bi)
  end.

Definition expandMessageXMD (msg dst : bytes) (lenInBytes : Z) : result bytes :=
  let ell := Z.quot (int_wrap (int_wrap (lenInBytes + sha512OutputBytes) - 1))
                    sha512OutputBytes in
  if ell >? 255 then Err ErrLenInBytesTooLarge else
  let dstPrime := dst ++ [Z_to_byte (len dst)] in
  let zPad := make_bytes (Z.to_nat sha512BlockSize) in
  let libStr := PutUint16 (uint16 lenInBytes) in
  let h := sha512.New in
  let h := sha512.Write h zPad in
  let h := sha512.Write h msg in
  let h := sha512.Write h libStr in
  let h := sha512.Write h [x00] in
  let h := sha512.Write h dstPrime in
  let b0 := sha512.Sum h in
  let h := sha512.Reset h in
  let h := sha512.Write h b0 in
  let h := sha512.Write h [x01] in
  let h := sha512.Write h dstPrime in
  let b1 := sha512.Sum h in
  (* make([]byte, 0, ell*sha512OutputBytes) *)
  if int_wrap (ell * sha512OutputBytes) <? 0 then Panic else
  let uniformBytes := [] ++ b1 in
  let uniformBytes := expand_loop (Z.to_nat (ell - 1)) 2 b0 b1 dstPrime uniformBytes in
  slice_to uniformBytes lenInBytes.

Section WithGroup.
Context {G : Group}.

Definition hashToGroup (msg : bytes) : result Element :=
  match expandMessageXMD msg HashToGroupDST HashBytes with
  | Ok uniformBytes => Ok (Element_FromUniformBytes uniformBytes)
  | Err e => Err (ErrExpandMessage e)
  | Panic => Panic
  end.

(** [blind] is [None] for Go's [nil]. *)
Definition Blind (E : Entropy) (input : bytes) (blind : option bytes)
  : result (bytes * bytes) :=
  match hashToGroup input with
  | Panic => Panic
  | Err e => Err (ErrHashToGroup e)
  | Ok h0 =>
      rr <- match blind with
            | Some b =>
                if negb (len b =? ScalarBytes) then Err ErrBlindLength else
                match Scalar_Decode b with
                | None => Err ErrInvalidBlindScalar
                | Some rScalar => Ok (rScalar, b)
                end
            | None =>
                match rand_Read E 0 64 with
                | Err _ => Err ErrRandom
                | Panic => Panic
                | Ok randomBytes =>
                    let rScalar := Scalar_FromUniformBytes randomBytes in
                    Ok (rScalar, Scalar_Encode rScalar)
                end
            end ;;
      let alphaElement := Element_ScalarMult (fst rr) h0 in
      Ok (snd rr, Element_Encode alphaElement)
  end.

Definition Evaluate (k alpha : bytes) : result bytes :=
  if negb (len k =? ScalarBytes) then Err ErrKeyLength else
  if negb (len alpha =? ElementBytes) then Err ErrAlphaLength else
  match Scalar_Decode k with
  | None => Err ErrInvalidKey
  | Some kScalar =>
      match Element_Decode alpha with
      | None => Err ErrInvalidAlpha
      | Some alphaElement =>
          let betaElement := Element_ScalarMult kScalar alphaElement in
          Ok (Element_Encode betaElement)
      end
  end.

Definition Unblind (r beta : bytes) : result bytes :=
  if negb (len r =? ScalarBytes) then Err ErrBlindScalarLength else
  if negb (len beta =? ElementBytes) then Err ErrBetaLength else
  match Scalar_Decode r with
  | None => Err ErrInvalidBlindScalar
  | Some rScalar =>
      match Element_Decode beta with
      | None => Err ErrInvalidBeta
      | Some betaElement =>
          let rInv := Scalar_Invert rScalar in
          let nElement := Element_ScalarMult rInv betaElement in
          Ok (Element_Encode nElement)
      end
  end.

End WithGroup.

Definition Finalize (input n : bytes) : result bytes :=
  if negb (len n =? ElementBytes) then Err ErrNLength else
  let h := sha512.New in
  let inputLen := PutUint16 (uint16 (len input)) in
  let h := sha512.Write h inputLen in
  let h := sha512.Write h input in
  let nLen := PutUint16 (uint16 (len n)) in
  let h := sha512.Write h nLen in
  let h := sha512.Write h n in
  let h := sha512.Write h FinalizeDST in
  Ok (sha512.Sum h).

Definition KeyGen (E : Entropy) : result bytes :=
  match rand_Read E 0 64 with
  | Err _ => Err ErrRandom
  | Panic => Panic
  | Ok randomBytes =>
      let scalar := Scalar_FromUniformBytes randomBytes in
      Ok (Scalar_Encode scalar)
  end.

End oprf.

(** ** Slices updated in place *)

(** [s[i] = v] for [i] in range. *)
Fixpoint set_nth {A : Type} (i : nat) (v : A) (s : list A) : list A :=
  match s, i with
  | [], _ => []
  | _ :: r, O => v :: r
  | a :: r, S k => a :: set_nth k v r
  end.

(** [copy(dst, src)]: overwrites the first [min(len(dst), len(src))] bytes. *)
Definition copy (dst src : bytes) : bytes :=
  firstn (List.length dst) src ++ skipn (List.length src) dst.

(** ** Package toprf *)

Module toprf.

Definition ShareBytes : Z := 33.
Definition PartBytes : Z := 33.

(** A [uint8] is a [byte].  [Share] is a share whose [Value] points to a
    scalar, as every share that the packages build or decode does.  The
    field is a pointer, and [MarshalBinary] can be called on a structure
    whose pointer is nil: [SharePtr] is the structure with the pointer as it
    is, [None] for nil. *)
Record Share : Type := mkShare { Index : byte; Value : Scalar }.

Record SharePtr : Type := mkSharePtr { PtrIndex : byte; PtrValue : option Scalar }.

Definition share_ptr (s : Share) : SharePtr := mkSharePtr (Index s) (Some (Value s)).

(** [scalarFromUint8(v)] *)
Definition scalarFromUint8 (v : byte) : Scalar :=
  let s := NewScalar in
  let buf := set_nth 0 v (make_bytes 32) in
  Scalar_Decode_into s buf.

(** One turn of [for _, peer := range peers] in [lcoeff], on the pair
    [(dividend, divisor)]. *)
Definition lcoeff_step (index : byte) (xScalar iScalar : Scalar)
    (acc : Scalar * Scalar) (peer : byte) : Scalar * Scalar :=
  if Byte.eqb peer index then acc else
  let peerScalar := scalarFromUint8 peer in
  let tmp := Scalar_Subtract peerScalar xScalar in
  let dividend := Scalar_Multiply (fst acc) tmp in
  let tmp := Scalar_Subtract peerScalar iScalar in
  let divisor := Scalar_Multiply (snd acc) tmp in
  (dividend, divisor).

Definition lcoeff (index x : byte) (peers : list byte) : Scalar :=
  let xScalar := scalarFromUint8 x in
  let iScalar := scalarFromUint8 index in
  let dividend := scalarFromUint8 x01 in
  let divisor := scalarFromUint8 x01 in
  let acc := fold_left (lcoeff_step index xScalar iScalar) peers (dividend, divisor) in
  let divisor := Scalar_Invert (snd acc) in
  Scalar_Multiply (fst acc) divisor.

Definition coeff (index : byte) (peers : list byte) : Scalar :=
  lcoeff index x00 peers.

Definition InterpolateScalar (x : byte) (shares : list Share) : result Scalar :=
  if len shares =? 0 then Err ErrNoShares else
  let result := Scalar_Decode_into NewScalar (make_bytes 32) in
  let indexes := map Index shares in
  Ok (fold_left
        (fun result share =>
           let l := lcoeff (Index share) x indexes in
           let term := Scalar_Multiply l (Value share) in
           Scalar_Add result term)
        shares result).

(** [for i := range coeffs]: one read of 64 bytes per coefficient; [k] is
    the number of reads made so far. *)
Fixpoint draw_coeffs (E : Entropy) (k : nat) (n : nat) : result (list Scalar) :=
  match n with
  | O => Ok []
  | S m =>
      match rand_Read E k 64 with
      | Err e => Err e
      | Panic => Panic
      | Ok randBytes =>
          rest <- draw_coeffs E (S k) m ;;
          Ok (Scalar_FromUniformBytes randBytes :: rest)
      end
  end.

(** [for exp := 0; exp < j; exp++ { term.Multiply(term, x) }] *)
Fixpoint times_x (n : nat) (term x : Scalar) : Scalar :=
  match n with
  | O => term
  | S k => times_x k (Scalar_Multiply term x) x
  end.

(** [for j := 0; j < int(threshold-1); j++]: [n] turns from [j]. *)
Fixpoint add_terms (n : nat) (j : nat) (coeffs : list Scalar) (x value : Scalar)
  : result Scalar :=
  match n with
  | O => Ok value
  | S k =>
      match nth_error coeffs j with
      | None => Panic
      | Some c =>
          let term := Scalar_Multiply c x in
          let term := times_x j term x in
          add_terms k (S j) coeffs x (Scalar_Add value term)
      end
  end.

(** [for i := uint8(1); i <= n; i++]: the counter is a [uint8] and wraps.
    [None] when the fuel runs out. *)
Fixpoint shares_loop (fuel : nat) (secret : Scalar) (n threshold : byte)
    (coeffs : list Scalar) (i : Z) (shares : list Share)
  : option (result (list Share)) :=
  match fuel with
  | O => None
  | S f =>
      if i <=? byte_to_Z n then
        let slot := Z.to_nat (uint8 (i - 1)) in
        if (slot <? List.length shares)%nat then
          let value := Scalar_Add NewScalar secret in
          let x := scalarFromUint8 (Z_to_byte i) in
          match add_terms (Z.to_nat (uint8 (byte_to_Z threshold - 1))) 0 coeffs x value with
          | Ok value =>
              shares_loop f secret n threshold coeffs (uint8 (i + 1))
                (set_nth slot (mkShare (Z_to_byte i) value) shares)
          | Err e => Some (Err e)
          | Panic => Some Panic
          end
        else Some Panic
      else Some (Ok shares)
  end.

Definition CreateShares (E : Entropy) (secret : Scalar) (n threshold : byte)
  : result (list Share) :=
  if (byte_to_Z threshold <? 1) || (byte_to_Z n <? byte_to_Z threshold)
  then Err ErrInvalidThreshold else
  if byte_to_Z threshold >? byte_to_Z n then Err ErrThresholdExceedsN else
  coeffs <- draw_coeffs E 0 (Z.to_nat (uint8 (byte_to_Z threshold - 1))) ;;
  let shares := repeat (mkShare x00 NewScalar) (Z.to_nat (byte_to_Z n)) in
  match shares_loop 257 secret n threshold coeffs 1 shares with
  | Some r => r
  | None => Panic
  end.

(** [Share.MarshalBinary]: an error for a nil value; otherwise the index,
    then the 32 bytes of the value. *)
Definition Share_MarshalBinary (s : SharePtr) : result bytes :=
  match PtrValue s with
  | None => Err ErrShareValueNil
  | Some value =>
      let data := make_bytes (Z.to_nat ShareBytes) in
      let data := set_nth 0 (PtrIndex s) data in
      Ok (firstn 1 data ++ copy (skipn 1 data) (Scalar_Encode value))
  end.

(** [Share.UnmarshalBinary] *)
Definition Share_UnmarshalBinary (data : bytes) : result Share :=
  if negb (len data =? ShareBytes) then Err ErrShareLength else
  match data with
  | [] => Panic
  | d0 :: rest =>
      match Scalar_Decode rest with
      | None => Err ErrDecode
      | Some v => Ok (mkShare d0 v)
      end
  end.

Section WithGroup.
Context {G : Group}.

(** [Part] is a part whose [Element] points to an element; [PartPtr] is the
    structure with the pointer as it is, [None] for nil. *)
Record Part : Type := mkPart { PIndex : byte; PElement : Element }.

Record PartPtr : Type := mkPartPtr { PtrPIndex : byte; PtrElement : option Element }.

Definition part_ptr (p : Part) : PartPtr := mkPartPtr (PIndex p) (Some (PElement p)).

(** [Part.MarshalBinary]: an error for a nil element; otherwise the index,
    then the 32 bytes of the element. *)
Definition Part_MarshalBinary (p : PartPtr) : result bytes :=
  match PtrElement p with
  | None => Err ErrPartElementNil
  | Some element =>
      let data := make_bytes (Z.to_nat PartBytes) in
      let data := set_nth 0 (PtrPIndex p) data in
      Ok (firstn 1 data ++ copy (skipn 1 data) (Element_Encode element))
  end.

Definition Part_UnmarshalBinary (data : bytes) : result Part :=
  if negb (len data =? PartBytes) then Err ErrPartLength else
  match data with
  | [] => Panic
  | d0 :: rest =>
      match Element_Decode rest with
      | None => Err ErrDecode
      | Some e => Ok (mkPart d0 e)
      end
  end.

Definition Evaluate (share : Share) (blinded : bytes) (indexes : list byte)
  : result bytes :=
  if negb (len blinded =? ElementBytes) then Err ErrBlindedLength else
  let c := coeff (Index share) indexes in
  let adjustedKey := Scalar_Multiply (Value share) c in
  match Element_Decode blinded with
  | None => Err ErrDecode
  | Some alpha =>
      let beta := Element_ScalarMult adjustedKey alpha in
      let part := mkPart (Index share) beta in
      Part_MarshalBinary (part_ptr part)
  end.

(** [for i, resp := range responses]: the first decoding error is returned. *)
Fixpoint unmarshal_parts (responses : list bytes) : result (list Part) :=
  match responses with
  | [] => Ok []
  | resp :: rest =>
      p <- Part_UnmarshalBinary resp ;;
      ps <- unmarshal_parts rest ;;
      Ok (p :: ps)
  end.

(** [if parts[j].Index < parts[i].Index { parts[i], parts[j] = parts[j], parts[i] }] *)
Definition swap_if_less (parts : list Part) (i j : nat) : result (list Part) :=
  match nth_error parts i, nth_error parts j with
  | Some pi, Some pj =>
      if byte_to_Z (PIndex pj) <? byte_to_Z (PIndex pi)
      then Ok (set_nth j pi (set_nth i pj parts))
      else Ok parts
  | _, _ => Panic
  end.

(** [for j := i + 1; j < len(parts); j++]: [n] turns from [j]. *)
Fixpoint sort_inner (n : nat) (i j : nat) (parts : list Part) : result (list Part) :=
  match n with
  | O => Ok parts
  | S k => parts' <- swap_if_less parts i j ;; sort_inner k i (S j) parts'
  end.

(** [for i := 0; i < len(parts)-1; i++]: [n] turns from [i]. *)
Fixpoint sort_outer (n : nat) (i : nat) (parts : list Part) : result (list Part) :=
  match n with
  | O => Ok parts
  | S k =>
      parts' <- sort_inner (List.length parts - S i) i (S i) parts ;;
      sort_outer k (S i) parts'
  end.

Definition ThresholdCombine (responses : list bytes) : result bytes :=
  if len responses =? 0 then Err ErrNoResponses else
  if len responses >? 255 then Err ErrTooManyResponses else
  parts <- unmarshal_parts responses ;;
  parts <- sort_outer (List.length parts - 1) 0 parts ;;
  let result := fold_left (fun result part => Element_Add result (PElement part))
                          parts NewElement in
  Ok (Element_Encode result).

(** What [ThreeHashTDH] returns: a part, one of its two errors, or what
    [Part.MarshalBinary] returns when it fails. *)
Inductive tdh_outcome : Type :=
  | TdhPart (part : bytes)
  | TdhInvalidAlphaLength     (* "toprf: invalid alpha length" *)
  | TdhInvalidAlpha           (* the error of Element.Decode *)
  | TdhMarshalError (e : error)
  | TdhPanic.

(** [ThreeHashTDH(k, z, alpha, ssid)].  The unkeyed BLAKE2b-512 digest of
    [golang.org/x/crypto/blake2b] is the parameter [blake2b512]: the digest
    of everything written to the hash. *)
Definition ThreeHashTDH (blake2b512 : bytes -> bytes) (k z : Share)
    (alpha ssid : bytes) : tdh_outcome :=
  if negb (len alpha =? ElementBytes) then TdhInvalidAlphaLength else
  match Element_Decode alpha with
  | None => TdhInvalidAlpha
  | Some alphaElement =>
      let beta := Element_ScalarMult (Value k) alphaElement in
      let lenBuf := PutUint16 (uint16 (len ssid)) in
      let hash := blake2b512 (lenBuf ++ ssid ++ alpha) in
      let point := Element_FromUniformBytes hash in
      let h2 := Element_ScalarMult (Value z) point in
      let beta := Element_Add beta h2 in
      let part := mkPart (Index k) beta in
      match Part_MarshalBinary (part_ptr part) with
      | Ok data => TdhPart data
      | Err e => TdhMarshalError e
      | Panic => TdhPanic
      end
  end.

End WithGroup.

End toprf.

(** ** Package dkg *)

Module dkg.

Import toprf.

(** [scalarFromUint8(v)] of package dkg *)
Definition scalarFromUint8 (v : byte) : Scalar :=
  let buf := set_nth 0 v (make_bytes 32) in
  let s := NewScalar in
  Scalar_Decode_into s buf.

(** [subtle.ConstantTimeCompare(x, y)] *)
Definition ConstantTimeCompare (x y : bytes) : Z :=
  if bytes_eqb x y then 1 else 0.

Section WithGroup.
Context {G : Group}.

(** [for exp := uint8(0); exp < k; exp++ { jPowK.Multiply(jPowK, j) }] *)
Fixpoint power_loop (n : nat) (jPowK j : Scalar) : Scalar :=
  match n with
  | O => jPowK
  | S m => power_loop m (Scalar_Multiply jPowK j) j
  end.

(** [for k := uint8(1); k < threshold; k++]: [n] turns from [k]. *)
Fixpoint commit_loop (n : nat) (k : Z) (j : Scalar) (commitments : list Element)
    (v1 : Element) : result Element :=
  match n with
  | O => Ok v1
  | S m =>
      let jPowK := power_loop (Z.to_nat k) (scalarFromUint8 x01) j in
      match nth_error commitments (Z.to_nat k) with
      | None => Panic
      | Some ck =>
          let tmP := Element_ScalarMult jPowK ck in
          commit_loop m (uint8 (k + 1)) j commitments (Element_Add v1 tmP)
      end
  end.

Definition VerifyCommitment (n threshold self i : byte)
    (commitments : list Element) (share : Share) : result unit :=
  if Byte.eqb i self then Ok tt else
  let v0 := Element_ScalarBaseMult (Value share) in
  let j := scalarFromUint8 self in
  match nth_error commitments 0 with
  | None => Panic
  | Some c0 =>
      let v1 := Element_Decode_into NewElement (Element_Encode c0) in
      v1 <- commit_loop (Z.to_nat (byte_to_Z threshold - 1)) 1 j commitments v1 ;;
      let v0Bytes := Element_Encode v0 in
      let v1Bytes := Element_Encode v1 in
      if negb (ConstantTimeCompare v0Bytes v1Bytes =? 1) then Err ErrCommitment
      else Ok tt
  end.

(** [VerifyCommitments]: the loop [for i := uint8(1); i <= n; i++], whose
    counter wraps; [None] when the fuel runs out. *)
Fixpoint verify_loop (fuel : nat) (n threshold self : byte)
    (commitments : list (list Element)) (shares : list Share)
    (i : Z) (fails : list byte) : option (result (list byte)) :=
  match fuel with
  | O => None
  | S f =>
      if i <=? byte_to_Z n then
        if Byte.eqb (Z_to_byte i) self then
          verify_loop f n threshold self commitments shares (uint8 (i + 1)) fails
        else
          let slot := Z.to_nat (uint8 (i - 1)) in
          match nth_error commitments slot, nth_error shares slot with
          | Some c, Some s =>
              match VerifyCommitment n threshold self (Z_to_byte i) c s with
              | Ok _ =>
                  verify_loop f n threshold self commitments shares (uint8 (i + 1)) fails
              | Err _ =>
                  verify_loop f n threshold self commitments shares (uint8 (i + 1))
                    (fails ++ [Z_to_byte i])
              | Panic => Some Panic
              end
          | _, _ => Some Panic
          end
      else Some (Ok fails)
  end.

Definition VerifyCommitments (fuel : nat) (n threshold self : byte)
    (commitments : list (list Element)) (shares : list Share)
  : option (result (list byte)) :=
  verify_loop fuel n threshold self commitments shares 1 [].

End WithGroup.

(** [for i := range shares]: the first share with a foreign index ends the
    call. *)
Fixpoint finish_loop (shares : list Share) (self : byte) (result : Scalar)
  : Datatypes.sum error Scalar :=
  match shares with
  | [] => inr result
  | s :: rest =>
      if negb (Byte.eqb (Index s) self) then inl ErrShareIndex
      else finish_loop rest self (Scalar_Add result (Value s))
  end.

Definition Finish (shares : list Share) (self : byte) : result Share :=
  let result := Scalar_Decode_into NewScalar (make_bytes 32) in
  match finish_loop shares self result with
  | inl e => Err e
  | inr result => Ok (mkShare self result)
  end.

(** What [Reconstruct] returns: the secret, or one of its two errors. *)
Inductive reconstruct_outcome : Type :=
  | Reconstructed (secret : Scalar)
  | ReconstructNoShares             (* "dkg: no shares provided" *)
  | ReconstructError (e : error)    (* the error of toprf.InterpolateScalar *)
  | ReconstructPanic.

Definition Reconstruct (shares : list Share) : reconstruct_outcome :=
  if len shares =? 0 then ReconstructNoShares else
  match InterpolateScalar x00 shares with
  | Ok secret => Reconstructed secret
  | Err e => ReconstructError e
  | Panic => ReconstructPanic
  end.

End dkg.

(** ** Auxiliary definitions for the proofs *)

(** Trial division: [n] has no divisor among [d, d+1, ..., d+fuel-1]. *)
Fixpoint trial_division (fuel : nat) (d n : Z) : bool :=
  match fuel with
  | O => true
  | S f => negb (n mod d =? 0) && trial_division f (d + 1) n
  end.

Definition prime_by_trial (n : Z) : bool :=
  (2 <=? n) && trial_division (Z.to_nat (Z.sqrt n - 1)) 2 n.

(** Pocklington's test for one prime [q] dividing [N - 1], with base [a]. *)
Definition pocklington_check (N q a : Z) : bool :=
  (1 <? N) && (0 <? q) && ((N - 1) mod q =? 0) &&
  (Zmod.to_Z (Zmod.pow (Zmod.of_Z N a) (N - 1)) =? 1) &&
  (Z.gcd (Zmod.to_Z (Zmod.pow (Zmod.of_Z N a) ((N - 1) / q)) - 1) N =? 1).

(** Polynomials over the scalar field, as coefficient lists with the
    constant term first; evaluation by Horner's rule. *)
Fixpoint poly_eval (cs : list Scalar) (x : Scalar) : Scalar :=
  match cs with
  | [] => Zmod.zero
  | c :: r => Zmod.add c (Zmod.mul x (poly_eval r x))
  end.

Definition poly_scale (a : Scalar) (cs : list Scalar) : list Scalar :=
  map (Zmod.mul a) cs.

Fixpoint poly_add (p q : list Scalar) : list Scalar :=
  match p, q with
  | [], _ => q
  | _, [] => p
  | a :: p', b :: q' => Zmod.add a b :: poly_add p' q'
  end.

(** The product of [cs] with the linear factor [b - x]. *)
Definition poly_mul_linear (b : Scalar) (cs : list Scalar) : list Scalar :=
  poly_add (poly_scale b cs) (Zmod.zero :: poly_scale (Zmod.opp Zmod.one) cs).

(** The quotient of [cs] by [x - a]. *)
Fixpoint poly_quot (cs : list Scalar) (a : Scalar) : list Scalar :=
  match cs with
  | [] => []
  | _ :: r =>
      match r with
      | [] => []
      | _ :: _ => poly_eval r a :: poly_quot r a
      end
  end.

(** [h] is a polynomial function of degree below [n]. *)
Definition is_poly (n : nat) (h : Scalar -> Scalar) : Prop :=
  exists cs, (List.length cs <= n)%nat /\ forall y, h y = poly_eval cs y.

(** Powers with a [nat] exponent. *)
Fixpoint spow (x : Scalar) (n : nat) : Scalar :=
  match n with
  | O => Zmod.one
  | S k => Zmod.mul x (spow x k)
  end.

(** The numerator of the Lagrange basis polynomial of [index] over
    [peers], at the point [y]: the product of [peer - y] over the peers
    other than [index]. *)
Fixpoint lagrange_num (index : byte) (peers : list byte) (y : Scalar) : Scalar :=
  match peers with
  | [] => Zmod.one
  | p :: r =>
      if Byte.eqb p index then lagrange_num index r y
      else Zmod.mul (Zmod.sub (toprf.scalarFromUint8 p) y) (lagrange_num index r y)
  end.

(** The Lagrange basis polynomial of [index] over [peers], as [lcoeff]
    computes it. *)
Definition lagrange_basis (index : byte) (peers : list byte) (y : Scalar) : Scalar :=
  Zmod.mul (lagrange_num index peers y)
           (Scalar_Invert (lagrange_num index peers (toprf.scalarFromUint8 index))).

(** The interpolant through the points [(i, f i)], [i] in [idx], with
    basis polynomials over [peers]. *)
Fixpoint interpolant (f : Scalar -> Scalar) (peers idx : list byte) (y : Scalar) : Scalar :=
  match idx with
  | [] => Zmod.zero
  | i :: r =>
      Zmod.add (Zmod.mul (lagrange_basis i peers y) (f (toprf.scalarFromUint8 i)))
               (interpolant f peers r y)
  end.

(** The share of participant [i] under the polynomial [secret :: coeffs],
    and the list [CreateShares] builds for [n] participants. *)
Definition share_at (secret : Scalar) (coeffs : list Scalar) (i : nat) : toprf.Share :=
  let idx := Z_to_byte (Z.of_nat i) in
  toprf.mkShare idx (poly_eval (secret :: coeffs) (toprf.scalarFromUint8 idx)).

Definition shares_of (secret : Scalar) (coeffs : list Scalar) (n : nat) : list toprf.Share :=
  map (share_at secret coeffs) (seq 1 n).

(** The state of the share slice after [k] turns of the loop. *)
Definition shares_filled (secret : Scalar) (coeffs : list Scalar) (n k : nat)
  : list toprf.Share :=
  shares_of secret coeffs k ++ repeat (toprf.mkShare x00 NewScalar) (n - k).

(** ** The contract of the group

    What the packages rely on from [ristretto255.Element]: a group of prime
    order [ell] on which the scalars act, with a canonical 32-byte encoding.
    Equations between elements are equations between their encodings. *)

Class GroupLaws (G : Group) : Prop := {
  Add_assoc : forall a b c : Element,
    Element_Equal (Element_Add (Element_Add a b) c) (Element_Add a (Element_Add b c));
  Add_comm : forall a b : Element,
    Element_Equal (Element_Add a b) (Element_Add b a);
  Add_identity : forall a : Element,
    Element_Equal (Element_Add NewElement a) a;
  Add_equal : forall a a' b b' : Element,
    Element_Equal a a' -> Element_Equal b b' ->
    Element_Equal (Element_Add a b) (Element_Add a' b');
  ScalarMult_equal : forall (s : Scalar) (a a' : Element),
    Element_Equal a a' ->
    Element_Equal (Element_ScalarMult s a) (Element_ScalarMult s a');
  ScalarMult_add : forall (s t : Scalar) (a : Element),
    Element_Equal (Element_ScalarMult (Zmod.add s t) a)
                  (Element_Add (Element_ScalarMult s a) (Element_ScalarMult t a));
  ScalarMult_mul : forall (s t : Scalar) (a : Element),
    Element_Equal (Element_ScalarMult s (Element_ScalarMult t a))
                  (Element_ScalarMult (Zmod.mul s t) a);
  ScalarMult_one : forall a : Element,
    Element_Equal (Element_ScalarMult Zmod.one a) a;
  ScalarMult_zero : forall a : Element,
    Element_Equal (Element_ScalarMult Zmod.zero a) NewElement;
  Encode_length : forall a : Element,
    List.length (Element_Encode a) = 32%nat;
  Decode_Encode : forall a : Element,
    exists a', Element_Decode (Element_Encode a) = Some a' /\ Element_Equal a' a
}.

(** ** The protocols, end to end *)

(** The client and the server of the basic OPRF, one after the other, with
    the fixed blind [r]. *)
Definition oprf_round_trip {G : Group} (E : Entropy) (k x r : bytes) : result bytes :=
  ra <- oprf.Blind E x (Some r) ;;
  beta <- oprf.Evaluate k (snd ra) ;;
  n <- oprf.Unblind (fst ra) beta ;;
  oprf.Finalize x n.

(** The direct evaluation [Finalize(x, k . hash_to_group(x))]. *)
Definition oprf_direct {G : Group} (k : Scalar) (x : bytes) : result bytes :=
  h0 <- oprf.hashToGroup x ;;
  oprf.Finalize x (Element_Encode (Element_ScalarMult k h0)).

(** The servers holding [shares] each evaluate [alpha] for the peer list
    [peers]. *)
Fixpoint evaluate_all {G : Group} (shares : list toprf.Share) (alpha : bytes)
    (peers : list byte) : result (list bytes) :=
  match shares with
  | [] => Ok []
  | s :: rest =>
      part <- toprf.Evaluate s alpha peers ;;
      parts <- evaluate_all rest alpha peers ;;
      Ok (part :: parts)
  end.

(** The threshold protocol from the dealing on: [CreateShares], then the
    servers holding the shares chosen by [pick] evaluate [alpha] for the
    peer list of their indexes, then [ThresholdCombine]. *)
Definition threshold_evaluation {G : Group} (E : Entropy) (secret : Scalar)
    (n t : byte) (pick : list toprf.Share -> list toprf.Share) (alpha : bytes)
  : result bytes :=
  shares <- toprf.CreateShares E secret n t ;;
  let S := pick shares in
  parts <- evaluate_all S alpha (map toprf.Index S) ;;
  toprf.ThresholdCombine parts.

(** The key share a server applies: its value times its Lagrange
    coefficient. *)
Definition baked_key (peers : list byte) (share : toprf.Share) : Scalar :=
  Zmod.mul (toprf.Value share) (toprf.coeff (toprf.Index share) peers).

(** The right-hand side of the verification equation of the DKG, as the
    specification writes it: the sum over [k] of [self^k . C[k]], from
    [k = k0] on. *)
Fixpoint commitment_sum {G : Group} (self : Scalar) (k0 : nat) (C : list Element)
  : Element :=
  match C with
  | [] => NewElement
  | c :: rest =>
      Element_Add (Element_ScalarMult (spow self k0) c) (commitment_sum self (S k0) rest)
  end.

(** A response that [ThresholdCombine] can decode: 33 bytes, the last 32 of
    them the encoding of an element. *)
Definition well_formed_part {G : Group} (r : bytes) : Prop :=
  List.length r = 33%nat /\ Element_Decode (tl r) <> None.

(** The basic OPRF with the blind drawn by [Blind] itself ([blind] nil). *)
Definition oprf_round_trip_random {G : Group} (E : Entropy) (k x : bytes) : result bytes :=
  ra <- oprf.Blind E x None ;;
  beta <- oprf.Evaluate k (snd ra) ;;
  n <- oprf.Unblind (fst ra) beta ;;
  oprf.Finalize x n.

(** The DKG between dealers whose polynomials are [polys]: the shares that
    participant [j] receives, one from each dealer, and the final shares of
    the participants [js], each computed by [Finish]. *)
Definition dealt_to (polys : list (list Scalar)) (j : byte) : list toprf.Share :=
  map (fun cs => toprf.mkShare j (poly_eval cs (toprf.scalarFromUint8 j))) polys.

Fixpoint finish_all (polys : list (list Scalar)) (js : list byte)
  : result (list toprf.Share) :=
  match js with
  | [] => Ok []
  | j :: rest =>
      s <- dkg.Finish (dealt_to polys j) j ;;
      ss <- finish_all polys rest ;;
      Ok (s :: ss)
  end.

(** The sum of the dealers' polynomials, and the group secret: the sum of
    their constant terms. *)
Definition poly_sum (polys : list (list Scalar)) : list Scalar :=
  fold_right poly_add [] polys.

Definition group_secret (polys : list (list Scalar)) : Scalar :=
  fold_right (fun cs acc => Zmod.add (hd Zmod.zero cs) acc) Zmod.zero polys.

(** Whether [VerifyCommitments] records peer [i]: it is not [self] and its
    share fails [VerifyCommitment]. *)
Definition peer_fails {G : Group} (n threshold self : byte)
    (commitments : list (list Element)) (shares : list toprf.Share) (i : nat) : bool :=
  negb (Byte.eqb (Z_to_byte (Z.of_nat i)) self) &&
  match nth_error commitments (i - 1), nth_error shares (i - 1) with
  | Some c, Some s =>
      is_Err (dkg.VerifyCommitment n threshold self (Z_to_byte (Z.of_nat i)) c s)
  | _, _ => false
  end.

(** The servers holding the pairs [kz] of a key share and a zero share each
    answer [alpha] by [ThreeHashTDH]; [None] if one of them fails. *)
Fixpoint tdh_all {G : Group} (blake2b512 : bytes -> bytes)
    (kz : list (toprf.Share * toprf.Share)) (alpha ssid : bytes) : option (list bytes) :=
  match kz with
  | [] => Some []
  | (k, z) :: rest =>
      match toprf.ThreeHashTDH blake2b512 k z alpha ssid with
      | toprf.TdhPart part =>
          option_map (cons part) (tdh_all blake2b512 rest alpha ssid)
      | _ => None
      end
  end.

(** The point [ThreeHashTDH] hashes the session identifier and [alpha] to. *)
Definition tdh_point {G : Group} (blake2b512 : bytes -> bytes) (alpha ssid : bytes)
  : Element :=
  Element_FromUniformBytes (blake2b512 (PutUint16 (uint16 (len ssid)) ++ ssid ++ alpha)).

(** The sum of the values of a list of shares. *)
Definition sum_values (shares : list toprf.Share) : Scalar :=
  fold_right (fun s acc => Zmod.add (toprf.Value s) acc) Zmod.zero shares.

(** ** Test data *)

(** An entropy source whose every read fails, for calls that read none. *)
Definition no_entropy : Entropy :=
  {| rand_fails := fun _ => true; rand_byte := fun _ _ => x00 |}.

(** An entropy source that never fails; read [k] delivers the byte [k + j]
    at position [j]. *)
Definition counting_entropy : Entropy :=
  {| rand_fails := fun _ => false;
     rand_byte := fun k j => Z_to_byte (Z.of_nat (k + j) + 1) |}.

(** Test case 0 of TEST-VECTORS.md. *)
Definition vecA_key : bytes :=
  unhex "5ebcea5ee37023ccb9fc2d2019f9d7737be85591ae8652ffa9ef0f4d37063b0e".
Definition vecA_blind : bytes :=
  unhex "64d37aed22a27f5191de1c1d69fadb899d8862b58eb4220029e036ec4c1f6706".
Definition vecA_alpha : bytes :=
  unhex "609a0ae68c15a3cf6903766461307e5c8bb2f95e7e6550e1ffa2dc99e412803c".
Definition vecA_beta : bytes :=
  unhex "7ec6578ae5120958eb2db1745758ff379e77cb64fe77b0b2d8cc917ea0869c7e".
Definition vecA_output : bytes :=
  unhex "527759c3d9366f277d8c6020418d96bb393ba2afb20ff90df23fb7708264e2f3ab9135e3bd69955851de4b1f9fe8a0973396719b7912ba9ee8aa7d0b5e24bcf6".

(** The scalars 0 and 1 on the wire. *)
Definition zero_bytes : bytes := make_bytes 32.
Definition one_bytes : bytes := x01 :: make_bytes 31.

(** A dealing for three participants with threshold two, and the shares of
    participants 3 and 1 picked from it. *)
Definition demo_secret : Scalar := Zmod.of_Z ell 42.
Definition demo_coeffs : list Scalar :=
  [Scalar_FromUniformBytes (map (rand_byte counting_entropy 0) (seq 0 64))].
Definition demo_pick : list toprf.Share :=
  [share_at demo_secret demo_coeffs 3; share_at demo_secret demo_coeffs 1].

(** Two dealers of a DKG with threshold two, by their polynomials. *)
Definition demo_dealers : list (list Scalar) :=
  [[Zmod.of_Z ell 5; Zmod.of_Z ell 7]; [Zmod.of_Z ell 11; Zmod.of_Z ell 13]].

(** A stand-in for a 64-byte digest. *)
Definition demo_digest (m : bytes) : bytes := sha512.Sum512 m.

(** Two servers of 3HashTDH: key shares 4 and 6, zero shares 9 and -9. *)
Definition demo_tdh : list (toprf.Share * toprf.Share) :=
  [(toprf.mkShare x01 (Zmod.of_Z ell 4), toprf.mkShare x01 (Zmod.of_Z ell 9));
   (toprf.mkShare x02 (Zmod.of_Z ell 6), toprf.mkShare x02 (Zmod.of_Z ell (-9)))].

(** * Proofs *)

(** ** The group order is prime

    Trial division for small numbers, Pocklington's criterion above them. *)

Lemma trial_division_spec fuel : forall d n x,
  trial_division fuel d n = true -> d <= x < d + Z.of_nat fuel -> n mod x <> 0.
Proof.
  induction fuel as [|f IH]; intros d n x H Hx.
  - lia.
  - cbn [trial_division] in H. apply andb_prop in H as [H1 H2].
    destruct (Z.eq_dec x d) as [->|Hne].
    + apply negb_true_iff, Z.eqb_neq in H1. exact H1.
    + apply (IH (d + 1) n x H2). lia.
Qed.

Lemma cofactor_bounds n m k : 1 < m < n -> n = k * m -> 1 < k < n.
Proof.
  intros Hm Hk. split.
  - destruct (Z_lt_le_dec 1 k) as [?|Hle]; [assumption|].
    assert (k * m <= 1 * m) by (apply Z.mul_le_mono_nonneg_r; lia). lia.
  - assert (0 < k) by nia.
    assert (k * 2 <= k * m) by (apply Z.mul_le_mono_nonneg_l; lia). lia.
Qed.

Lemma product_of_large a b B : 0 <= B -> B < a -> B < b -> (B + 1) * (B + 1) <= a * b.
Proof.
  intros HB Ha Hb.
  transitivity ((B + 1) * b).
  - apply Z.mul_le_mono_nonneg_l; lia.
  - apply Z.mul_le_mono_nonneg_r; lia.
Qed.

Lemma prime_by_trial_sound n : prime_by_trial n = true -> Z.prime n.
Proof.
  unfold prime_by_trial. intros H. apply andb_prop in H as [H2 Ht].
  apply Z.leb_le in H2. split; [lia|].
  intros m Hm [k Hk].
  pose proof (cofactor_bounds n m k Hm Hk) as Hk1.
  pose proof (Z.sqrt_spec n ltac:(lia)) as Hs.
  pose proof (Z.sqrt_nonneg n) as Hs0.
  assert (Hsmall : m <= Z.sqrt n \/ k <= Z.sqrt n).
  { destruct (Z_le_gt_dec m (Z.sqrt n)) as [?|Hgm]; [left; assumption|].
    destruct (Z_le_gt_dec k (Z.sqrt n)) as [?|Hgk]; [right; assumption|].
    pose proof (product_of_large k m (Z.sqrt n) ltac:(lia) ltac:(lia) ltac:(lia)).
    unfold Z.succ in Hs. lia. }
  destruct Hsmall as [Hs1|Hs1].
  - apply (trial_division_spec _ _ _ m Ht); [lia|].
    rewrite Hk. apply Z.mod_mul. lia.
  - apply (trial_division_spec _ _ _ k Ht); [lia|].
    rewrite Hk, Z.mul_comm. apply Z.mod_mul. lia.
Qed.

Lemma prime_divisor_exists n : 2 <= n -> exists p, Z.prime p /\ (p | n).
Proof.
  intros Hn. revert Hn. induction (Z.lt_wf 2 n) as [n _ IH]. intros Hn.
  destruct (prime_dec n) as [Hp|Hnp].
  - exists n. split; [apply prime_alt; exact Hp | apply Z.divide_refl].
  - destruct (not_prime_divide n ltac:(lia) Hnp) as [m [Hm Hd]].
    destruct (IH m ltac:(lia) ltac:(lia)) as [p [Hp Hpm]].
    exists p. split; [exact Hp | eapply Z.divide_trans; eauto].
Qed.

(** If every prime divisor of [N] exceeds [B] and [N < (B+1)^2], then [N]
    is prime. *)
Lemma prime_of_large_factors N B :
  1 < N -> 0 <= B -> N < (B + 1) * (B + 1) ->
  (forall p, Z.prime p -> (p | N) -> B < p) ->
  Z.prime N.
Proof.
  intros HN HB Hsq Hbig. split; [exact HN|].
  intros m Hm [k Hk].
  pose proof (cofactor_bounds N m k Hm Hk) as Hk1.
  destruct (prime_divisor_exists m ltac:(lia)) as [p [Hp Hpm]].
  destruct (prime_divisor_exists k ltac:(lia)) as [p' [Hp' Hpk]].
  assert (B < p) by (apply Hbig; [exact Hp|]; exists (k * (m / p));
    rewrite Hk; destruct Hpm as [c ->]; rewrite Z.div_mul by (destruct Hp; lia); ring).
  assert (B < p') by (apply Hbig; [exact Hp'|]; exists (m * (k / p'));
    rewrite Hk; destruct Hpk as [c ->]; rewrite Z.div_mul by (destruct Hp'; lia); ring).
  assert (p <= m) by (apply Z.divide_pos_le; [lia|exact Hpm]).
  assert (p' <= k) by (apply Z.divide_pos_le; [lia|exact Hpk]).
  pose proof (product_of_large k m B HB ltac:(lia) ltac:(lia)). lia.
Qed.

Lemma Zmod_pow_of_Z_to_Z N a z :
  0 < N -> 0 <= z -> Zmod.to_Z (Zmod.pow (Zmod.of_Z N a) z) = a ^ z mod N.
Proof.
  intros HN Hz.
  rewrite Zmod.unsigned_pow_nonneg_r by exact Hz.
  rewrite Zmod.unsigned_of_Z.
  apply Z.mod_pow_l.
Qed.

Lemma Zstar_pow_one_of_mod p a z :
  Z.prime p -> 0 <= z -> Z.coprime a p -> a ^ z mod p = 1 ->
  Zstar.pow (Zstar.of_Zmod (Zmod.of_Z p a)) z = Zstar.one.
Proof.
  intros Hp Hz Hc H. pose proof (Z.prime_ge_2 _ Hp) as Hp2.
  apply Zstar.to_Zmod_inj. rewrite Zstar.to_Zmod_pow, Zstar.to_Zmod_1.
  rewrite Zstar.to_Zmod_of_Zmod.
  - apply Zmod.unsigned_inj.
    rewrite Zmod_pow_of_Z_to_Z by lia. rewrite H.
    rewrite Zmod.unsigned_1_pos by lia. reflexivity.
  - rewrite Zmod.unsigned_of_Z. apply Z.coprime_mod_l_iff. exact Hc.
Qed.

Lemma Zstar_pow_one_to_mod p a z :
  Z.prime p -> 0 <= z -> Z.coprime a p ->
  Zstar.pow (Zstar.of_Zmod (Zmod.of_Z p a)) z = Zstar.one -> a ^ z mod p = 1.
Proof.
  intros Hp Hz Hc H. pose proof (Z.prime_ge_2 _ Hp) as Hp2.
  apply (f_equal Zstar.to_Zmod) in H.
  rewrite Zstar.to_Zmod_pow, Zstar.to_Zmod_1 in H.
  rewrite Zstar.to_Zmod_of_Zmod in H.
  - apply (f_equal Zmod.to_Z) in H.
    rewrite Zmod_pow_of_Z_to_Z in H by lia.
    rewrite Zmod.unsigned_1_pos in H by lia. exact H.
  - rewrite Zmod.unsigned_of_Z. apply Z.coprime_mod_l_iff. exact Hc.
Qed.

(** Pocklington: a prime divisor [p] of [N] is [1] modulo [q]. *)
Lemma pocklington_divides N q a p :
  pocklington_check N q a = true -> Z.prime q -> Z.prime p -> (p | N) ->
  (q | p - 1).
Proof.
  unfold pocklington_check. intros Hc Hq Hp HpN.
  repeat (apply andb_prop in Hc as [Hc ?]).
  apply Z.ltb_lt in Hc.
  match goal with H : (0 <? q) = true |- _ => apply Z.ltb_lt in H; rename H into Hq0 end.
  match goal with H : (_ mod q =? 0) = true |- _ => apply Z.eqb_eq in H; rename H into Hdiv end.
  match goal with H : (Z.gcd _ _ =? 1) = true |- _ => apply Z.eqb_eq in H; rename H into Hgcd end.
  match goal with H : (_ =? 1) = true |- _ => apply Z.eqb_eq in H; rename H into Hpow end.
  pose proof (Z.prime_ge_2 _ Hp) as Hp2.
  set (m := (N - 1) / q) in *.
  assert (HN1 : N - 1 = q * m).
  { unfold m. apply Z_div_exact_full_2; [lia | exact Hdiv]. }
  assert (Hm0 : 0 <= m) by (unfold m; apply Z.div_pos; lia).
  rewrite Zmod_pow_of_Z_to_Z in Hpow by lia.
  rewrite Zmod_pow_of_Z_to_Z in Hgcd by lia.
  (* reduce modulo p *)
  assert (Hmodp : forall x, (x mod N) mod p = x mod p).
  { intros x. apply Z.mod_mod_divide. exact HpN. }
  assert (Hpow_p : a ^ (N - 1) mod p = 1).
  { rewrite <- Hmodp, Hpow. apply Z.mod_1_l. lia. }
  assert (Hcop : Z.coprime a p).
  { symmetry. apply Z.coprime_prime_l; [exact Hp|].
    intros [c Hc']. 
    assert (a ^ (N - 1) mod p = 0).
    { replace (N - 1) with (Z.succ (N - 2)) by lia.
      rewrite Z.pow_succ_r by lia. rewrite Hc'.
      rewrite <- Z.mul_assoc, (Z.mul_comm c), <- Z.mul_assoc, Z.mul_comm.
      apply Z.mod_mul. lia. }
    lia. }
  set (x := Zstar.of_Zmod (Zmod.of_Z p a)).
  assert (Hx1 : Zstar.pow x (N - 1) = Zstar.one)
    by (apply Zstar_pow_one_of_mod; auto; lia).
  assert (Hx2 : Zstar.pow x (p - 1) = Zstar.one)
    by (replace (p - 1) with (Z.pred p) by lia; apply Zstar.fermat; exact Hp).
  destruct (Z.BoolSpec_divide q (p - 1)) as [Hyes|Hno]; [exact Hyes|exfalso].
  set (g := Z.gcd (N - 1) (p - 1)).
  destruct (Z.gcd_bezout (N - 1) (p - 1) g eq_refl) as [u [v Huv]].
  assert (Hxg : Zstar.pow x g = Zstar.one).
  { rewrite <- Huv. rewrite Zstar.pow_add_r.
    rewrite (Z.mul_comm u), (Z.mul_comm v), !Zstar.pow_mul_r.
    rewrite Hx1, Hx2, !Zstar.pow_1_l. apply Zstar.mul_1_l. }
  assert (Hqg : ~ (q | g)).
  { intros Hqg. apply Hno. eapply Z.divide_trans; [exact Hqg|]. apply Z.gcd_divide_r. }
  assert (Hcqg : Z.coprime g q).
  { symmetry. apply Z.coprime_prime_l; assumption. }
  assert (Hgm : (g | m)).
  { apply (Z.gauss g q m); [|exact Hcqg]. rewrite <- HN1. apply Z.gcd_divide_l. }
  destruct Hgm as [c Hc'].
  assert (Hxm : Zstar.pow x m = Zstar.one).
  { rewrite Hc', Z.mul_comm, Zstar.pow_mul_r, Hxg. apply Zstar.pow_1_l. }
  apply Zstar_pow_one_to_mod in Hxm; auto.
  assert (Hd1 : (p | a ^ m mod N - 1)).
  { apply Z.mod_divide; [lia|].
    rewrite Zminus_mod, Hmodp, Hxm. rewrite Z.mod_1_l by lia. reflexivity. }
  assert (Hd : (p | 1)).
  { rewrite <- Hgcd. apply Z.gcd_greatest; assumption. }
  apply Z.divide_1_r in Hd. lia.
Qed.

(** Pocklington with one prime above the square root. *)
Lemma pocklington_one N q a :
  pocklington_check N q a = true -> Z.prime q -> N < (q + 1) * (q + 1) ->
  Z.prime N.
Proof.
  intros Hc Hq Hsq.
  pose proof (Z.prime_ge_2 _ Hq) as Hq2.
  assert (HN : 1 < N).
  { unfold pocklington_check in Hc. repeat (apply andb_prop in Hc as [Hc ?]).
    apply Z.ltb_lt in Hc. exact Hc. }
  apply (prime_of_large_factors N q); [exact HN | lia | exact Hsq |].
  intros p Hp HpN.
  pose proof (pocklington_divides N q a p Hc Hq Hp HpN) as Hd.
  pose proof (Z.prime_ge_2 _ Hp).
  apply Z.divide_pos_le in Hd; lia.
Qed.

(** Pocklington with two distinct primes whose product is above the
    square root. *)
Lemma pocklington_two N q1 q2 a1 a2 :
  pocklington_check N q1 a1 = true -> pocklington_check N q2 a2 = true ->
  Z.prime q1 -> Z.prime q2 -> q1 <> q2 ->
  N < (q1 * q2 + 1) * (q1 * q2 + 1) ->
  Z.prime N.
Proof.
  intros Hc1 Hc2 Hq1 Hq2 Hne Hsq.
  pose proof (Z.prime_ge_2 _ Hq1) as Hq12.
  pose proof (Z.prime_ge_2 _ Hq2) as Hq22.
  assert (HN : 1 < N).
  { unfold pocklington_check in Hc1. repeat (apply andb_prop in Hc1 as [Hc1 ?]).
    apply Z.ltb_lt in Hc1. exact Hc1. }
  apply (prime_of_large_factors N (q1 * q2)); [exact HN | nia | exact Hsq |].
  intros p Hp HpN.
  pose proof (pocklington_divides N q1 a1 p Hc1 Hq1 Hp HpN) as Hd1.
  pose proof (pocklington_divides N q2 a2 p Hc2 Hq2 Hp HpN) as Hd2.
  pose proof (Z.prime_ge_2 _ Hp).
  assert (Hcop : Z.coprime q1 q2).
  { apply Z.coprime_prime_l; [exact Hq1|]. intros Hd.
    apply Hne. apply Z.divide_prime_prime; assumption. }
  assert (Hd : (q1 * q2 | p - 1)).
  { destruct Hd2 as [c Hc]. rewrite Hc, Z.mul_comm in Hd1.
    apply Z.gauss in Hd1; [|exact Hcop].
    destruct Hd1 as [c' Hc']. exists c'. rewrite Hc, Hc'. ring. }
  apply Z.divide_pos_le in Hd; lia.
Qed.

(** The certificate chain for [ell]: each prime is certified by the next. *)

Lemma prime_531581 : Z.prime 531581.
Proof. apply prime_by_trial_sound. vm_compute. reflexivity. Qed.

Lemma prime_1224481 : Z.prime 1224481.
Proof. apply prime_by_trial_sound. vm_compute. reflexivity. Qed.

Lemma prime_chain_5 : Z.prime 1257559732178653.
Proof.
  apply (pocklington_two _ 531581 1224481 2 2);
    [vm_compute; reflexivity | vm_compute; reflexivity
    | exact prime_531581 | exact prime_1224481 | discriminate
    | vm_compute; reflexivity].
Qed.

Lemma prime_chain_4 : Z.prime 4434155615661930479.
Proof.
  apply (pocklington_one _ 1257559732178653 2);
    [vm_compute; reflexivity | exact prime_chain_5 | vm_compute; reflexivity].
Qed.

Lemma prime_chain_3 : Z.prime 172054593956031949258510691.
Proof.
  apply (pocklington_one _ 4434155615661930479 2);
    [vm_compute; reflexivity | exact prime_chain_4 | vm_compute; reflexivity].
Qed.

Lemma prime_chain_2 : Z.prime 19757330305831588566944191468367130476339.
Proof.
  apply (pocklington_one _ 172054593956031949258510691 2);
    [vm_compute; reflexivity | exact prime_chain_3 | vm_compute; reflexivity].
Qed.

Lemma prime_chain_1 : Z.prime 276602624281642239937218680557139826668747.
Proof.
  apply (pocklington_one _ 19757330305831588566944191468367130476339 2);
    [vm_compute; reflexivity | exact prime_chain_2 | vm_compute; reflexivity].
Qed.

Theorem ell_prime : Z.prime ell.
Proof.
  apply (pocklington_one _ 276602624281642239937218680557139826668747 2);
    [vm_compute; reflexivity | exact prime_chain_1 | vm_compute; reflexivity].
Qed.

(** ** Bytes and the wire form of scalars *)

Lemma byte_to_Z_range b : 0 <= byte_to_Z b < 256.
Proof.
  unfold byte_to_Z. pose proof (Byte.to_N_bounded b) as H.
  split; [apply N2Z.is_nonneg|]. 
  change 256 with (Z.of_N 256). apply N2Z.inj_lt. lia.
Qed.

Lemma byte_to_Z_to_byte z : byte_to_Z (Z_to_byte z) = z mod 256.
Proof.
  unfold Z_to_byte, byte_to_Z.
  pose proof (Z.mod_pos_bound z 256 ltac:(lia)) as Hr.
  destruct (Byte.of_N (Z.to_N (z mod 256))) as [b|] eqn:E.
  - apply Byte.to_of_N in E. rewrite E. apply Z2N.id. lia.
  - apply Byte.of_N_None_iff in E. lia.
Qed.

Lemma Z_to_byte_to_Z b : Z_to_byte (byte_to_Z b) = b.
Proof.
  unfold Z_to_byte. rewrite Z.mod_small by apply byte_to_Z_range.
  unfold byte_to_Z. rewrite N2Z.id, Byte.of_to_N. reflexivity.
Qed.

Lemma byte_to_Z_inj a b : byte_to_Z a = byte_to_Z b -> a = b.
Proof.
  intros H. rewrite <- (Z_to_byte_to_Z a), <- (Z_to_byte_to_Z b), H. reflexivity.
Qed.

Lemma byte_eqb_eq a b : Byte.eqb a b = true <-> a = b.
Proof. split; [apply Byte.byte_dec_bl | apply Byte.byte_dec_lb]. Qed.

Lemma byte_eqb_neq a b : Byte.eqb a b = false <-> a <> b.
Proof.
  split.
  - intros H E. apply byte_eqb_eq in E. congruence.
  - intros H. destruct (Byte.eqb a b) eqn:E; [|reflexivity].
    apply byte_eqb_eq in E. contradiction.
Qed.

Lemma length_le_bytes n : forall z, List.length (le_bytes n z) = n.
Proof. induction n; intros; cbn; [reflexivity | f_equal; apply IHn]. Qed.

Lemma le_int_le_bytes n : forall z, le_int (le_bytes n z) = z mod 256 ^ Z.of_nat n.
Proof.
  induction n as [|n IH]; intros z.
  - cbn. rewrite Z.mod_1_r. reflexivity.
  - cbn [le_bytes le_int]. rewrite byte_to_Z_to_byte, IH.
    rewrite Nat2Z.inj_succ, Z.pow_succ_r by lia.
    rewrite Z.rem_mul_r by lia. reflexivity.
Qed.

Lemma le_int_range bs : 0 <= le_int bs < 256 ^ Z.of_nat (List.length bs).
Proof.
  induction bs as [|b r IH].
  - cbn. lia.
  - cbn [le_int List.length]. rewrite Nat2Z.inj_succ, Z.pow_succ_r by lia.
    pose proof (byte_to_Z_range b). lia.
Qed.

Lemma le_bytes_le_int bs : le_bytes (List.length bs) (le_int bs) = bs.
Proof.
  induction bs as [|b r IH]; [reflexivity|].
  cbn [le_int List.length le_bytes]. pose proof (byte_to_Z_range b) as Hb. f_equal.
  - apply byte_to_Z_inj. rewrite byte_to_Z_to_byte.
    rewrite Z.mul_comm, Z.mod_add by lia. apply Z.mod_small. exact Hb.
  - rewrite Z.mul_comm, Z.div_add by lia.
    rewrite Z.div_small by lia. exact IH.
Qed.

(** ** The scalar field *)

Lemma ell_bounds : 256 < ell < 2 ^ 253.
Proof. split; reflexivity. Qed.

Lemma ell_pos : 0 < ell.
Proof. reflexivity. Qed.

Lemma Scalar_to_Z_range (s : Scalar) : 0 <= Zmod.to_Z s < ell.
Proof. apply Zmod.unsigned_pos_bound. exact ell_pos. Qed.

Lemma length_Scalar_Encode s : List.length (Scalar_Encode s) = 32%nat.
Proof. apply length_le_bytes. Qed.

Lemma Scalar_Decode_Encode s : Scalar_Decode (Scalar_Encode s) = Some s.
Proof.
  unfold Scalar_Decode, Scalar_Encode, len.
  rewrite length_le_bytes, le_int_le_bytes.
  pose proof (Scalar_to_Z_range s) as Hs. pose proof ell_bounds as Hl.
  assert (Hsmall : Zmod.to_Z s mod 256 ^ Z.of_nat 32 = Zmod.to_Z s).
  { apply Z.mod_small. change (256 ^ Z.of_nat 32) with (2 ^ 256).
    assert (2 ^ 253 < 2 ^ 256) by reflexivity. lia. }
  rewrite Hsmall.
  replace (Z.of_nat 32 =? 32) with true by reflexivity.
  replace (Zmod.to_Z s <? ell) with true by (symmetry; apply Z.ltb_lt; lia).
  cbn [andb]. rewrite Zmod.of_Z_unsigned. reflexivity.
Qed.

Lemma Scalar_Decode_Some b s :
  Scalar_Decode b = Some s ->
  List.length b = 32%nat /\ le_int b < ell /\ s = Zmod.of_Z ell (le_int b).
Proof.
  unfold Scalar_Decode, len. intros H.
  destruct ((Z.of_nat (List.length b) =? 32) && (le_int b <? ell)) eqn:E; [|discriminate].
  apply andb_prop in E as [E1 E2]. apply Z.eqb_eq in E1. apply Z.ltb_lt in E2.
  injection H as <-. split; [lia | split; [exact E2 | reflexivity]].
Qed.

Lemma Scalar_Encode_Decode b s : Scalar_Decode b = Some s -> Scalar_Encode s = b.
Proof.
  intros H. apply Scalar_Decode_Some in H as [Hl [Hr ->]].
  unfold Scalar_Encode. rewrite Zmod.unsigned_of_Z.
  rewrite Z.mod_small by (pose proof (le_int_range b); lia).
  rewrite <- Hl. apply le_bytes_le_int.
Qed.

Lemma Scalar_Encode_inj s t : Scalar_Encode s = Scalar_Encode t -> s = t.
Proof.
  intros H. pose proof (Scalar_Decode_Encode s) as Hs.
  rewrite H, Scalar_Decode_Encode in Hs. congruence.
Qed.

Lemma le_int_make_bytes n : le_int (make_bytes n) = 0.
Proof. induction n; cbn; [reflexivity|]. unfold make_bytes in IHn. rewrite IHn. reflexivity. Qed.

(** The zero scalar that [Finish] and [InterpolateScalar] decode. *)
Lemma Scalar_Decode_zero : Scalar_Decode_into NewScalar (make_bytes 32) = Zmod.zero.
Proof.
  unfold Scalar_Decode_into, Scalar_Decode.
  rewrite le_int_make_bytes. cbn. reflexivity.
Qed.

Lemma toprf_scalarFromUint8_eq v :
  toprf.scalarFromUint8 v = Zmod.of_Z ell (byte_to_Z v).
Proof.
  unfold toprf.scalarFromUint8, Scalar_Decode_into, Scalar_Decode.
  change (set_nth 0 v (make_bytes 32)) with (v :: make_bytes 31).
  assert (Hi : le_int (v :: make_bytes 31) = byte_to_Z v).
  { cbn [le_int]. rewrite le_int_make_bytes. lia. }
  rewrite Hi. pose proof (byte_to_Z_range v). pose proof ell_bounds.
  replace (len (v :: make_bytes 31) =? 32) with true by reflexivity.
  replace (byte_to_Z v <? ell) with true by (symmetry; apply Z.ltb_lt; lia).
  reflexivity.
Qed.

Lemma dkg_scalarFromUint8_eq v : dkg.scalarFromUint8 v = toprf.scalarFromUint8 v.
Proof. reflexivity. Qed.

Lemma scalarFromUint8_inj a b :
  toprf.scalarFromUint8 a = toprf.scalarFromUint8 b -> a = b.
Proof.
  rewrite !toprf_scalarFromUint8_eq. intros H.
  apply (f_equal Zmod.to_Z) in H. rewrite !Zmod.unsigned_of_Z in H.
  pose proof (byte_to_Z_range a). pose proof (byte_to_Z_range b). pose proof ell_bounds.
  rewrite !Z.mod_small in H by lia. apply byte_to_Z_inj. exact H.
Qed.

(** Ring and field structure. *)

Lemma Scalar_ring :
  ring_theory (R := Zmod ell) Zmod.zero Zmod.one Zmod.add Zmod.mul Zmod.sub Zmod.opp eq.
Proof. apply Zmod.ring_theory. Qed.

Add Ring Scalar_ring_inst : Scalar_ring.

Ltac scalar_unfold :=
  unfold Scalar_Add, Scalar_Subtract, Scalar_Multiply, NewScalar in *.

Lemma Scalar_Invert_zero : Scalar_Invert Zmod.zero = Zmod.zero.
Proof. unfold Scalar_Invert. apply Zmod.pow_0_l. discriminate. Qed.

Lemma Scalar_Invert_inv (x : Scalar) : x <> Zmod.zero -> Scalar_Invert x = Zmod.inv x.
Proof. intros Hx. unfold Scalar_Invert. apply Zmod.fermat_inv; [exact Hx | exact ell_prime]. Qed.

Lemma Scalar_Invert_r (x : Scalar) :
  x <> Zmod.zero -> Zmod.mul x (Scalar_Invert x) = Zmod.one.
Proof.
  intros Hx. rewrite Scalar_Invert_inv by exact Hx.
  apply Zmod.mul_inv_same_r_prime; [exact ell_prime | exact Hx].
Qed.

Lemma Scalar_Invert_l (x : Scalar) :
  x <> Zmod.zero -> Zmod.mul (Scalar_Invert x) x = Zmod.one.
Proof. intros Hx. rewrite Zmod.mul_comm. apply Scalar_Invert_r. exact Hx. Qed.

Lemma Scalar_mul_eq_0 (a b : Scalar) :
  Zmod.mul a b = Zmod.zero -> a = Zmod.zero \/ b = Zmod.zero.
Proof. apply Zmod.mul_0_iff_prime. exact ell_prime. Qed.

Lemma Scalar_one_neq_zero : (Zmod.one : Scalar) <> Zmod.zero.
Proof. apply Zmod.one_neq_zero. pose proof ell_bounds. lia. Qed.

(** ** Polynomials and Lagrange interpolation over the scalar field *)

Lemma poly_eval_scale a cs y :
  poly_eval (poly_scale a cs) y = Zmod.mul a (poly_eval cs y).
Proof.
  induction cs as [|c r IH]; cbn [poly_scale map poly_eval].
  - ring.
  - unfold poly_scale in IH. rewrite IH. ring.
Qed.

Lemma poly_eval_add p : forall q y,
  poly_eval (poly_add p q) y = Zmod.add (poly_eval p y) (poly_eval q y).
Proof.
  induction p as [|a p IH]; intros [|b q] y; cbn [poly_add poly_eval]; try ring.
  rewrite IH. ring.
Qed.

Lemma length_poly_add p : forall q,
  List.length (poly_add p q) = Nat.max (List.length p) (List.length q).
Proof.
  induction p as [|a p IH]; intros [|b q]; cbn [poly_add List.length]; try lia.
  rewrite IH. lia.
Qed.

Lemma poly_eval_mul_linear b cs y :
  poly_eval (poly_mul_linear b cs) y = Zmod.mul (Zmod.sub b y) (poly_eval cs y).
Proof.
  unfold poly_mul_linear. rewrite poly_eval_add. cbn [poly_eval].
  rewrite !poly_eval_scale. ring.
Qed.

Lemma length_poly_mul_linear b cs :
  List.length (poly_mul_linear b cs) = S (List.length cs).
Proof.
  unfold poly_mul_linear, poly_scale.
  rewrite length_poly_add. cbn [List.length]. rewrite !length_map. lia.
Qed.

Lemma length_poly_quot cs a : List.length (poly_quot cs a) = pred (List.length cs).
Proof.
  induction cs as [|c r IH]; [reflexivity|].
  cbn [poly_quot]. destruct r as [|c' r']; [reflexivity|].
  cbn [List.length] in *. rewrite IH. reflexivity.
Qed.

Lemma poly_eval_quot cs a y :
  poly_eval cs y =
  Zmod.add (poly_eval cs a) (Zmod.mul (Zmod.sub y a) (poly_eval (poly_quot cs a) y)).
Proof.
  induction cs as [|c r IH]; cbn [poly_quot poly_eval].
  - ring.
  - destruct r as [|c' r'].
    + cbn [poly_eval]. ring.
    + cbn [poly_eval] in *. rewrite IH. ring.
Qed.

(** A polynomial of degree below [n] with [n] distinct roots vanishes
    everywhere. *)
Lemma poly_roots xs : forall cs,
  NoDup xs -> (List.length cs <= List.length xs)%nat ->
  (forall x, In x xs -> poly_eval cs x = Zmod.zero) ->
  forall y, poly_eval cs y = Zmod.zero.
Proof.
  induction xs as [|a xs IH]; intros cs Hnd Hlen Hroots y.
  - destruct cs; [reflexivity | cbn [List.length] in Hlen; lia].
  - inversion Hnd as [|? ? Hnotin Hnd']; subst.
    assert (Hq : forall z, poly_eval (poly_quot cs a) z = Zmod.zero).
    { apply IH; [exact Hnd' | rewrite length_poly_quot; cbn [List.length] in Hlen; lia |].
      intros b Hb.
      pose proof (Hroots b (or_intror Hb)) as Hpb.
      rewrite (poly_eval_quot cs a b), (Hroots a (or_introl eq_refl)) in Hpb.
      assert (Hprod : Zmod.mul (Zmod.sub b a) (poly_eval (poly_quot cs a) b) = Zmod.zero).
      { rewrite <- Hpb. ring. }
      apply Scalar_mul_eq_0 in Hprod as [Hz|Hz]; [|exact Hz].
      apply Zmod.sub_eq_0 in Hz. subst b. contradiction. }
    rewrite (poly_eval_quot cs a y), (Hroots a (or_introl eq_refl)), Hq. ring.
Qed.

Lemma is_poly_mono n m h : (n <= m)%nat -> is_poly n h -> is_poly m h.
Proof. intros Hnm [cs [Hl He]]. exists cs. split; [lia | exact He]. Qed.

Lemma is_poly_ext n h h' : (forall y, h y = h' y) -> is_poly n h -> is_poly n h'.
Proof. intros E [cs [Hl He]]. exists cs. split; [exact Hl | intros y; rewrite <- E; apply He]. Qed.

Lemma is_poly_zero n : is_poly n (fun _ => Zmod.zero).
Proof. exists []. split; [cbn [List.length]; lia | reflexivity]. Qed.

Lemma is_poly_const c : is_poly 1 (fun _ => c).
Proof. exists [c]. split; [cbn [List.length]; lia | intros y; cbn [poly_eval]; ring]. Qed.

Lemma is_poly_eval cs : is_poly (List.length cs) (poly_eval cs).
Proof. exists cs. split; [lia | reflexivity]. Qed.

Lemma is_poly_add n h k :
  is_poly n h -> is_poly n k -> is_poly n (fun y => Zmod.add (h y) (k y)).
Proof.
  intros [p [Hp Ep]] [q [Hq Eq]]. exists (poly_add p q). split.
  - rewrite length_poly_add. lia.
  - intros y. rewrite poly_eval_add, Ep, Eq. reflexivity.
Qed.

Lemma is_poly_scale_r n h c : is_poly n h -> is_poly n (fun y => Zmod.mul (h y) c).
Proof.
  intros [p [Hp Ep]]. exists (poly_scale c p). split.
  - unfold poly_scale. rewrite length_map. exact Hp.
  - intros y. rewrite poly_eval_scale, Ep. ring.
Qed.

Lemma is_poly_sub n h k :
  is_poly n h -> is_poly n k -> is_poly n (fun y => Zmod.sub (h y) (k y)).
Proof.
  intros Hh Hk.
  apply (is_poly_ext n (fun y => Zmod.add (h y) (Zmod.mul (k y) (Zmod.opp Zmod.one)))).
  - intros y. ring.
  - apply is_poly_add; [exact Hh | apply is_poly_scale_r; exact Hk].
Qed.

Lemma is_poly_mul_linear n h b :
  is_poly n h -> is_poly (S n) (fun y => Zmod.mul (Zmod.sub b y) (h y)).
Proof.
  intros [p [Hp Ep]]. exists (poly_mul_linear b p). split.
  - rewrite length_poly_mul_linear. lia.
  - intros y. rewrite poly_eval_mul_linear, Ep. reflexivity.
Qed.

Lemma is_poly_roots n h xs :
  is_poly n h -> NoDup xs -> (n <= List.length xs)%nat ->
  (forall x, In x xs -> h x = Zmod.zero) -> forall y, h y = Zmod.zero.
Proof.
  intros [cs [Hl He]] Hnd Hn Hroots y. rewrite He.
  apply (poly_roots xs); [exact Hnd | lia |].
  intros x Hx. rewrite <- He. apply Hroots. exact Hx.
Qed.

(** The basis polynomials. *)

Lemma is_poly_lagrange_num index peers :
  is_poly (S (List.length peers)) (lagrange_num index peers).
Proof.
  induction peers as [|p r IH]; cbn [lagrange_num List.length].
  - apply is_poly_const.
  - destruct (Byte.eqb p index).
    + apply (is_poly_mono (S (List.length r))); [lia | exact IH].
    + apply is_poly_mul_linear. exact IH.
Qed.

Lemma is_poly_lagrange_num_in index peers :
  In index peers -> is_poly (List.length peers) (lagrange_num index peers).
Proof.
  induction peers as [|p r IH]; intros Hin; [contradiction|].
  cbn [lagrange_num List.length].
  destruct (Byte.eqb p index) eqn:E.
  - apply is_poly_lagrange_num.
  - apply is_poly_mul_linear. apply IH.
    destruct Hin as [->|Hin]; [|exact Hin].
    apply byte_eqb_neq in E. contradiction.
Qed.

Lemma lagrange_num_other index k peers :
  In k peers -> k <> index ->
  lagrange_num index peers (toprf.scalarFromUint8 k) = Zmod.zero.
Proof.
  induction peers as [|p r IH]; intros Hin Hne; [contradiction|].
  cbn [lagrange_num].
  destruct (Byte.eqb p index) eqn:E.
  - apply byte_eqb_eq in E. subst p.
    destruct Hin as [->|Hin]; [contradiction | apply IH; assumption].
  - destruct Hin as [->|Hin].
    + ring.
    + rewrite IH by assumption. ring.
Qed.

Lemma lagrange_num_self index peers :
  lagrange_num index peers (toprf.scalarFromUint8 index) <> Zmod.zero.
Proof.
  induction peers as [|p r IH]; cbn [lagrange_num].
  - exact Scalar_one_neq_zero.
  - destruct (Byte.eqb p index) eqn:E; [exact IH|].
    intros H. apply Scalar_mul_eq_0 in H as [H|H]; [|contradiction].
    apply Zmod.sub_eq_0, scalarFromUint8_inj in H.
    apply byte_eqb_neq in E. contradiction.
Qed.

Lemma lagrange_basis_self index peers :
  lagrange_basis index peers (toprf.scalarFromUint8 index) = Zmod.one.
Proof. unfold lagrange_basis. apply Scalar_Invert_r, lagrange_num_self. Qed.

Lemma lagrange_basis_other index k peers :
  In k peers -> k <> index ->
  lagrange_basis index peers (toprf.scalarFromUint8 k) = Zmod.zero.
Proof.
  intros Hin Hne. unfold lagrange_basis.
  rewrite lagrange_num_other by assumption. ring.
Qed.

Lemma is_poly_lagrange_basis index peers :
  In index peers -> is_poly (List.length peers) (lagrange_basis index peers).
Proof.
  intros Hin. unfold lagrange_basis.
  apply is_poly_scale_r, is_poly_lagrange_num_in, Hin.
Qed.

Lemma is_poly_interpolant f peers idx :
  incl idx peers -> is_poly (List.length peers) (interpolant f peers idx).
Proof.
  induction idx as [|i r IH]; intros Hincl; cbn [interpolant].
  - apply is_poly_zero.
  - apply is_poly_add.
    + apply is_poly_scale_r, is_poly_lagrange_basis, Hincl. left. reflexivity.
    + apply IH. intros x Hx. apply Hincl. right. exact Hx.
Qed.

Lemma interpolant_at_node f peers idx k :
  In k peers -> NoDup idx ->
  interpolant f peers idx (toprf.scalarFromUint8 k) =
  if in_dec Byte.byte_eq_dec k idx then f (toprf.scalarFromUint8 k) else Zmod.zero.
Proof.
  intros Hk. induction idx as [|i r IH]; intros Hnd; [reflexivity|].
  inversion Hnd as [|? ? Hnotin Hnd']; subst.
  cbn [interpolant]. rewrite (IH Hnd').
  destruct (Byte.byte_eq_dec i k) as [->|Hne].
  - rewrite lagrange_basis_self.
    destruct (in_dec Byte.byte_eq_dec k r) as [Hin|_]; [contradiction|].
    destruct (in_dec Byte.byte_eq_dec k (k :: r)) as [_|Hout]; [ring|].
    exfalso. apply Hout. left. reflexivity.
  - rewrite lagrange_basis_other by (auto; congruence).
    destruct (in_dec Byte.byte_eq_dec k r) as [Hin|Hnin];
      destruct (in_dec Byte.byte_eq_dec k (i :: r)) as [Hin'|Hnin']; try ring.
    + exfalso. apply Hnin'. right. exact Hin.
    + exfalso. destruct Hin' as [E|Hin']; [congruence | contradiction].
Qed.

Lemma NoDup_map_scalarFromUint8 peers :
  NoDup peers -> NoDup (map toprf.scalarFromUint8 peers).
Proof.
  induction 1 as [|p r Hnotin Hnd IH]; cbn [map]; constructor; [|exact IH].
  intros Hin. apply in_map_iff in Hin as [q [Hq Hin]].
  apply scalarFromUint8_inj in Hq. subst q. contradiction.
Qed.

(** Lagrange interpolation: a polynomial of degree below the number of
    (distinct) peers is its own interpolant. *)
Theorem lagrange_interpolation cs peers y :
  NoDup peers -> (List.length cs <= List.length peers)%nat ->
  interpolant (poly_eval cs) peers peers y = poly_eval cs y.
Proof.
  intros Hnd Hlen.
  apply Zmod.sub_eq_0.
  apply (is_poly_roots (List.length peers)
           (fun y => Zmod.sub (interpolant (poly_eval cs) peers peers y) (poly_eval cs y))
           (map toprf.scalarFromUint8 peers)).
  - apply is_poly_sub.
    + apply is_poly_interpolant, incl_refl.
    + apply (is_poly_mono (List.length cs)); [exact Hlen | apply is_poly_eval].
  - apply NoDup_map_scalarFromUint8. exact Hnd.
  - rewrite length_map. lia.
  - intros x Hx. apply in_map_iff in Hx as [k [<- Hk]].
    rewrite interpolant_at_node by assumption.
    destruct (in_dec Byte.byte_eq_dec k peers) as [_|Hout]; [|contradiction].
    ring.
Qed.

(** ** Package toprf: Lagrange coefficients *)

Lemma scalarFromUint8_one : toprf.scalarFromUint8 x01 = Zmod.one.
Proof. rewrite toprf_scalarFromUint8_eq. apply Zmod.of_Z_1. Qed.

Lemma scalarFromUint8_zero : toprf.scalarFromUint8 x00 = Zmod.zero.
Proof. rewrite toprf_scalarFromUint8_eq. apply Zmod.of_Z_0. Qed.

Lemma lcoeff_fold index y peers : forall a b,
  fold_left (toprf.lcoeff_step index y (toprf.scalarFromUint8 index)) peers (a, b) =
  (Zmod.mul a (lagrange_num index peers y),
   Zmod.mul b (lagrange_num index peers (toprf.scalarFromUint8 index))).
Proof.
  induction peers as [|p r IH]; intros a b; cbn [fold_left lagrange_num].
  - f_equal; ring.
  - unfold toprf.lcoeff_step at 2. destruct (Byte.eqb p index).
    + apply IH.
    + cbn [fst snd]. scalar_unfold. rewrite IH. f_equal; ring.
Qed.

Lemma lcoeff_eq index x peers :
  toprf.lcoeff index x peers = lagrange_basis index peers (toprf.scalarFromUint8 x).
Proof.
  unfold toprf.lcoeff, lagrange_basis. rewrite lcoeff_fold. cbn [fst snd].
  rewrite scalarFromUint8_one. scalar_unfold. rewrite !Zmod.mul_1_l. reflexivity.
Qed.

(** ** Package toprf: InterpolateScalar *)

Lemma interpolate_fold (f : Scalar -> Scalar) x indexes (shares : list toprf.Share) :
  (forall s, In s shares -> toprf.Value s = f (toprf.scalarFromUint8 (toprf.Index s))) ->
  forall acc,
  fold_left
    (fun result share =>
       Scalar_Add result
         (Scalar_Multiply (toprf.lcoeff (toprf.Index share) x indexes) (toprf.Value share)))
    shares acc =
  Zmod.add acc (interpolant f indexes (map toprf.Index shares) (toprf.scalarFromUint8 x)).
Proof.
  induction shares as [|s r IH]; intros Hval acc; cbn [fold_left map interpolant].
  - ring.
  - rewrite IH by (intros s' Hs'; apply Hval; right; exact Hs').
    rewrite lcoeff_eq, (Hval s (or_introl eq_refl)). scalar_unfold. ring.
Qed.

(** Interpolating shares that lie on a polynomial of degree below their
    number returns the value of the polynomial. *)
Lemma InterpolateScalar_poly cs x (shares : list toprf.Share) :
  shares <> [] ->
  NoDup (map toprf.Index shares) ->
  (List.length cs <= List.length shares)%nat ->
  (forall s, In s shares ->
     toprf.Value s = poly_eval cs (toprf.scalarFromUint8 (toprf.Index s))) ->
  toprf.InterpolateScalar x shares = Ok (poly_eval cs (toprf.scalarFromUint8 x)).
Proof.
  intros Hne Hnd Hlen Hval. unfold toprf.InterpolateScalar, len.
  destruct shares as [|s0 r]; [contradiction|].
  replace (Z.of_nat (List.length (s0 :: r)) =? 0) with false
    by (symmetry; apply Z.eqb_neq; cbn [List.length]; lia).
  f_equal. rewrite Scalar_Decode_zero.
  rewrite (interpolate_fold (poly_eval cs)) by exact Hval.
  rewrite lagrange_interpolation; [ring | exact Hnd | rewrite length_map; exact Hlen].
Qed.

(** ** Package toprf: CreateShares *)

Lemma draw_coeffs_length E n : forall k cs,
  toprf.draw_coeffs E k n = Ok cs -> List.length cs = n.
Proof.
  induction n as [|m IH]; intros k cs H; cbn [toprf.draw_coeffs] in H.
  - injection H as <-. reflexivity.
  - destruct (rand_Read E k 64) as [randBytes| |]; try discriminate.
    destruct (toprf.draw_coeffs E (S k) m) as [rest| |] eqn:Er; cbn [bind] in H;
      try discriminate.
    injection H as <-. cbn [List.length]. f_equal. eapply IH. exact Er.
Qed.

Lemma draw_coeffs_total E n : forall k,
  (forall i, rand_fails E i = false) -> exists cs, toprf.draw_coeffs E k n = Ok cs.
Proof.
  induction n as [|m IH]; intros k Hok; cbn [toprf.draw_coeffs].
  - eexists. reflexivity.
  - unfold rand_Read. rewrite Hok.
    destruct (IH (S k) Hok) as [rest ->]. cbn [bind]. eexists. reflexivity.
Qed.

(** No read returns an error, so the loop returns none. *)
Lemma draw_coeffs_no_error E n : forall k e, toprf.draw_coeffs E k n <> Err e.
Proof.
  induction n as [|m IH]; intros k e; cbn [toprf.draw_coeffs]; [discriminate|].
  unfold rand_Read. destruct (rand_fails E k); [discriminate|].
  specialize (IH (S k) e).
  destruct (toprf.draw_coeffs E (S k) m); cbn [bind]; try discriminate. exact IH.
Qed.

Lemma times_x_spec n : forall term x,
  toprf.times_x n term x = Zmod.mul term (spow x n).
Proof.
  induction n as [|k IH]; intros term x; cbn [toprf.times_x spow].
  - ring.
  - rewrite IH. scalar_unfold. ring.
Qed.

Lemma skipn_nth_error {A : Type} (l : list A) : forall j a,
  nth_error l j = Some a -> skipn j l = a :: skipn (S j) l.
Proof.
  induction l as [|b r IH]; intros [|j] a H; cbn in H; try discriminate.
  - injection H as <-. reflexivity.
  - cbn [skipn]. rewrite (IH j a H). reflexivity.
Qed.

Lemma add_terms_spec n : forall j coeffs x value,
  (j + n = List.length coeffs)%nat ->
  toprf.add_terms n j coeffs x value =
  Ok (Zmod.add value (Zmod.mul (spow x (S j)) (poly_eval (skipn j coeffs) x))).
Proof.
  induction n as [|k IH]; intros j coeffs x value Hlen; cbn [toprf.add_terms].
  - rewrite skipn_all2 by lia. cbn [poly_eval]. f_equal. ring.
  - destruct (nth_error coeffs j) as [c|] eqn:E.
    + rewrite IH by lia. rewrite (skipn_nth_error coeffs j c E).
      rewrite times_x_spec. cbn [poly_eval spow]. scalar_unfold. f_equal. ring.
    + apply nth_error_None in E. lia.
Qed.

Lemma share_value_spec secret coeffs x :
  toprf.add_terms (List.length coeffs) 0 coeffs x (Scalar_Add NewScalar secret) =
  Ok (poly_eval (secret :: coeffs) x).
Proof.
  rewrite add_terms_spec by lia. cbn [skipn poly_eval spow]. scalar_unfold.
  f_equal. ring.
Qed.

Lemma set_nth_app {A : Type} (l1 : list A) v a l2 :
  set_nth (List.length l1) v (l1 ++ a :: l2) = l1 ++ v :: l2.
Proof. induction l1 as [|b r IH]; cbn; [reflexivity | rewrite IH; reflexivity]. Qed.

Lemma length_shares_of secret coeffs n : List.length (shares_of secret coeffs n) = n.
Proof. unfold shares_of. rewrite length_map, length_seq. reflexivity. Qed.

Lemma shares_of_S secret coeffs k :
  shares_of secret coeffs (S k) = shares_of secret coeffs k ++ [share_at secret coeffs (S k)].
Proof. unfold shares_of. rewrite seq_S, map_app. reflexivity. Qed.

Lemma length_shares_filled secret coeffs n k :
  (k <= n)%nat -> List.length (shares_filled secret coeffs n k) = n.
Proof.
  intros H. unfold shares_filled. rewrite length_app, length_shares_of, repeat_length. lia.
Qed.

Lemma uint8_small z : 0 <= z < 256 -> uint8 z = z.
Proof. intros H. unfold uint8. apply Z.mod_small. exact H. Qed.

(** The loop of [CreateShares]: with [n <= 254] it fills every slot and
    stops; with [n = 255] the counter wraps to [0] and the slot [255] is
    out of range. *)
Lemma shares_loop_spec secret n threshold coeffs :
  List.length coeffs = Z.to_nat (uint8 (byte_to_Z threshold - 1)) ->
  forall m k fuel,
  (k + m = Z.to_nat (byte_to_Z n))%nat -> (m < fuel)%nat ->
  toprf.shares_loop fuel secret n threshold coeffs (uint8 (Z.of_nat (S k)))
    (shares_filled secret coeffs (Z.to_nat (byte_to_Z n)) k) =
  if byte_to_Z n =? 255 then Some Panic
  else Some (Ok (shares_of secret coeffs (Z.to_nat (byte_to_Z n)))).
Proof.
  intros Hcoeffs. pose proof (byte_to_Z_range n) as Hn.
  set (N := Z.to_nat (byte_to_Z n)).
  assert (HN : Z.of_nat N = byte_to_Z n) by (unfold N; lia).
  induction m as [|m IH]; intros k fuel Hk Hfuel;
    (destruct fuel as [|f]; [lia|]); cbn [toprf.shares_loop].
  - (* all slots filled *)
    assert (k = N) by lia. subst k.
    destruct (Z.eqb_spec (byte_to_Z n) 255) as [E255|E255].
    + replace (uint8 (Z.of_nat (S N))) with 0
        by (rewrite Nat2Z.inj_succ, HN, E255; reflexivity).
      replace (0 <=? byte_to_Z n) with true by (symmetry; apply Z.leb_le; lia).
      replace (Z.to_nat (uint8 (0 - 1))) with 255%nat by reflexivity.
      rewrite length_shares_filled by lia.
      replace (255 <? N)%nat with false; [reflexivity|].
      symmetry. apply Nat.ltb_ge. lia.
    + rewrite uint8_small by lia.
      replace (Z.of_nat (S N) <=? byte_to_Z n) with false
        by (symmetry; apply Z.leb_gt; lia).
      unfold shares_filled. rewrite Nat.sub_diag. cbn [repeat].
      rewrite app_nil_r. reflexivity.
  - (* one more turn *)
    assert (Hk' : (k < N)%nat) by lia.
    rewrite (uint8_small (Z.of_nat (S k))) by lia.
    replace (Z.of_nat (S k) <=? byte_to_Z n) with true
      by (symmetry; apply Z.leb_le; lia).
    replace (Z.to_nat (uint8 (Z.of_nat (S k) - 1))) with k
      by (rewrite uint8_small by lia; lia).
    rewrite length_shares_filled by lia.
    replace (k <? N)%nat with true by (symmetry; apply Nat.ltb_lt; lia).
    rewrite <- Hcoeffs, share_value_spec.
    replace (uint8 (Z.of_nat (S k) + 1)) with (uint8 (Z.of_nat (S (S k))))
      by (f_equal; lia).
    replace (set_nth k _ (shares_filled secret coeffs N k))
      with (shares_filled secret coeffs N (S k)).
    + apply IH; lia.
    + unfold shares_filled.
      replace (N - k)%nat with (S (N - S k)) by lia. cbn [repeat].
      rewrite <- (length_shares_of secret coeffs k) at 3.
      rewrite set_nth_app, shares_of_S, <- app_assoc. reflexivity.
Qed.

(** What [CreateShares] returns, case by case. *)
Lemma CreateShares_cases E secret n threshold :
  toprf.CreateShares E secret n threshold =
  if (byte_to_Z threshold <? 1) || (byte_to_Z n <? byte_to_Z threshold)
  then Err ErrInvalidThreshold
  else match toprf.draw_coeffs E 0 (Z.to_nat (byte_to_Z threshold - 1)) with
       | Ok coeffs =>
           if byte_to_Z n =? 255 then Panic
           else Ok (shares_of secret coeffs (Z.to_nat (byte_to_Z n)))
       | Err e => Err e
       | Panic => Panic
       end.
Proof.
  unfold toprf.CreateShares.
  pose proof (byte_to_Z_range n) as Hn. pose proof (byte_to_Z_range threshold) as Ht.
  destruct ((byte_to_Z threshold <? 1) || (byte_to_Z n <? byte_to_Z threshold)) eqn:Eg;
    [reflexivity|].
  apply orb_false_iff in Eg as [Eg1 Eg2].
  apply Z.ltb_ge in Eg1. apply Z.ltb_ge in Eg2.
  replace (byte_to_Z threshold >? byte_to_Z n) with false
    by (symmetry; rewrite Z.gtb_ltb; apply Z.ltb_ge; lia).
  rewrite (uint8_small (byte_to_Z threshold - 1)) by lia.
  destruct (toprf.draw_coeffs E 0 (Z.to_nat (byte_to_Z threshold - 1)))
    as [coeffs|e|] eqn:Ed; cbn [bind]; try reflexivity.
  pose proof (draw_coeffs_length _ _ _ _ Ed) as Hlen.
  pose proof (shares_loop_spec secret n threshold coeffs) as Hloop.
  rewrite (uint8_small (byte_to_Z threshold - 1)) in Hloop by lia.
  specialize (Hloop Hlen (Z.to_nat (byte_to_Z n)) 0%nat 257%nat ltac:(lia) ltac:(lia)).
  change (uint8 (Z.of_nat 1)) with 1 in Hloop.
  unfold shares_filled in Hloop. rewrite Nat.sub_0_r in Hloop.
  change (shares_of secret coeffs 0 ++ ?l) with l in Hloop.
  rewrite Hloop. destruct (byte_to_Z n =? 255); reflexivity.
Qed.

(** The shares [CreateShares] returns lie on a polynomial of degree
    [threshold - 1] with constant term [secret]. *)
Lemma CreateShares_Ok E secret n threshold shares :
  toprf.CreateShares E secret n threshold = Ok shares ->
  exists coeffs,
    S (List.length coeffs) = Z.to_nat (byte_to_Z threshold) /\
    shares = shares_of secret coeffs (Z.to_nat (byte_to_Z n)).
Proof.
  rewrite CreateShares_cases. intros H.
  destruct ((byte_to_Z threshold <? 1) || (byte_to_Z n <? byte_to_Z threshold)) eqn:Eg;
    [discriminate|].
  apply orb_false_iff in Eg as [Eg1 Eg2]. apply Z.ltb_ge in Eg1.
  destruct (toprf.draw_coeffs E 0 (Z.to_nat (byte_to_Z threshold - 1)))
    as [coeffs|e|] eqn:Ed; try discriminate.
  destruct (byte_to_Z n =? 255); [discriminate|].
  injection H as <-. exists coeffs. split; [|reflexivity].
  rewrite (draw_coeffs_length _ _ _ _ Ed). lia.
Qed.

Lemma In_shares_of secret coeffs n s :
  (n <= 255)%nat -> In s (shares_of secret coeffs n) ->
  toprf.Value s = poly_eval (secret :: coeffs) (toprf.scalarFromUint8 (toprf.Index s)) /\
  1 <= byte_to_Z (toprf.Index s) <= Z.of_nat n /\
  s = share_at secret coeffs (Z.to_nat (byte_to_Z (toprf.Index s))).
Proof.
  intros Hn Hin. unfold shares_of in Hin. apply in_map_iff in Hin as [i [<- Hi]].
  apply in_seq in Hi. unfold share_at. cbn [toprf.Value toprf.Index].
  rewrite byte_to_Z_to_byte, Z.mod_small by lia.
  rewrite Nat2Z.id. split; [reflexivity | split; [lia | reflexivity]].
Qed.

(** Distinct shares of one dealing carry distinct indexes. *)
Lemma NoDup_map_Index secret coeffs n S :
  (n <= 255)%nat -> incl S (shares_of secret coeffs n) -> NoDup S ->
  NoDup (map toprf.Index S).
Proof.
  intros Hn Hincl Hnd. induction Hnd as [|s r Hnotin Hnd IH]; cbn [map]; constructor.
  - intros Hin. apply in_map_iff in Hin as [s' [Hidx Hs']].
    apply Hnotin.
    destruct (In_shares_of secret coeffs n s Hn (Hincl s (or_introl eq_refl)))
      as [_ [_ Es]].
    destruct (In_shares_of secret coeffs n s' Hn (Hincl s' (or_intror Hs')))
      as [_ [_ Es']].
    rewrite Es, <- Hidx, <- Es'. exact Hs'.
  - apply IH. intros x Hx. apply Hincl. right. exact Hx.
Qed.

(** ** Equality of group elements *)

#[global] Instance Element_Equal_Equivalence {G : Group} : Equivalence (@Element_Equal G).
Proof.
  unfold Element_Equal. split.
  - intros a. reflexivity.
  - intros a b H. symmetry. exact H.
  - intros a b c H1 H2. etransitivity; eassumption.
Qed.

#[global] Instance Element_Add_Proper {G : Group} {GL : GroupLaws G} :
  Proper (Element_Equal ==> Element_Equal ==> Element_Equal) Element_Add.
Proof. intros a a' Ha b b' Hb. apply Add_equal; assumption. Qed.

#[global] Instance Element_ScalarMult_Proper {G : Group} {GL : GroupLaws G} :
  Proper (eq ==> Element_Equal ==> Element_Equal) Element_ScalarMult.
Proof. intros s s' <- a a' Ha. apply ScalarMult_equal; assumption. Qed.

#[global] Instance Element_Encode_Proper {G : Group} :
  Proper (Element_Equal ==> eq) Element_Encode.
Proof. intros a a' Ha. exact Ha. Qed.

(** The discrete-logarithm representation satisfies the contract. *)
#[global] Instance DLog_laws : GroupLaws DLog.
Proof.
  split; unfold Element_Equal; cbn [DLog Element NewElement Element_Add Element_ScalarMult
    Element_Encode Element_Decode]; intros.
  - f_equal; ring.
  - f_equal; ring.
  - f_equal; ring.
  - apply Scalar_Encode_inj in H, H0. subst. reflexivity.
  - apply Scalar_Encode_inj in H. subst. reflexivity.
  - f_equal; ring.
  - f_equal; ring.
  - f_equal; ring.
  - f_equal; ring.
  - apply length_Scalar_Encode.
  - exists a. split; [apply Scalar_Decode_Encode | reflexivity].
Qed.

Section GroupFacts.
Context {G : Group} {GL : GroupLaws G}.

Lemma Add_identity_r (a : Element) : Element_Equal (Element_Add a NewElement) a.
Proof. rewrite Add_comm. apply Add_identity. Qed.

Lemma len_Element_Encode (a : Element) : len (Element_Encode a) = 32.
Proof. unfold len. rewrite Encode_length. reflexivity. Qed.

(** Sums of elements, as [ThresholdCombine] accumulates them. *)
Lemma fold_Add_shift {A : Type} (f : A -> Element) (l : list A) : forall acc,
  Element_Equal (fold_left (fun r x => Element_Add r (f x)) l acc)
                (Element_Add acc (fold_left (fun r x => Element_Add r (f x)) l NewElement)).
Proof.
  induction l as [|x r IH]; intros acc; cbn [fold_left].
  - rewrite Add_identity_r. reflexivity.
  - rewrite IH. rewrite (IH (Element_Add NewElement (f x))).
    rewrite Add_identity. rewrite Add_assoc. reflexivity.
Qed.

Lemma fold_Add_cons {A : Type} (f : A -> Element) (x : A) (l : list A) :
  Element_Equal (fold_left (fun r x => Element_Add r (f x)) (x :: l) NewElement)
                (Element_Add (f x) (fold_left (fun r x => Element_Add r (f x)) l NewElement)).
Proof. cbn [fold_left]. rewrite fold_Add_shift, Add_identity. reflexivity. Qed.

Lemma fold_Add_Permutation {A : Type} (f : A -> Element) (l l' : list A) :
  Permutation l l' ->
  Element_Equal (fold_left (fun r x => Element_Add r (f x)) l NewElement)
                (fold_left (fun r x => Element_Add r (f x)) l' NewElement).
Proof.
  induction 1 as [|x l l' _ IH|x y l|l l' l'' _ IH1 _ IH2].
  - reflexivity.
  - rewrite !fold_Add_cons, IH. reflexivity.
  - rewrite !fold_Add_cons. rewrite <- !Add_assoc.
    rewrite (Add_comm (f y) (f x)). reflexivity.
  - etransitivity; eassumption.
Qed.

End GroupFacts.

(** ** crypto/sha512: the digest has 64 bytes *)

Lemma length_be_bytes n z : List.length (be_bytes n z) = n.
Proof. unfold be_bytes. rewrite length_rev. apply length_le_bytes. Qed.

Lemma length_flat_map_be_bytes (h : list Z) :
  List.length (flat_map (be_bytes 8) h) = (8 * List.length h)%nat.
Proof.
  induction h as [|w r IH]; [reflexivity|].
  cbn [flat_map List.length]. rewrite length_app, length_be_bytes, IH. lia.
Qed.

Lemma length_round s kw : List.length (sha512.round s kw) = List.length s.
Proof.
  unfold sha512.round.
  do 9 (destruct s as [|? s]; [reflexivity|]). reflexivity.
Qed.

Lemma length_fold_round l : forall s,
  List.length (fold_left sha512.round l s) = List.length s.
Proof.
  induction l as [|kw r IH]; intros s; cbn [fold_left]; [reflexivity|].
  rewrite IH. apply length_round.
Qed.

Lemma length_compress h block : List.length (sha512.compress h block) = List.length h.
Proof.
  unfold sha512.compress. rewrite length_map, length_combine, length_fold_round. lia.
Qed.

Lemma length_blocks n : forall h bs, List.length (sha512.blocks n h bs) = List.length h.
Proof.
  induction n as [|k IH]; intros h bs; cbn [sha512.blocks]; [reflexivity|].
  rewrite IH. apply length_compress.
Qed.

Lemma length_Sum512 msg : List.length (sha512.Sum512 msg) = 64%nat.
Proof.
  unfold sha512.Sum512. rewrite length_flat_map_be_bytes, length_blocks. reflexivity.
Qed.

Lemma length_Sum h : List.length (sha512.Sum h) = 64%nat.
Proof. apply length_Sum512. Qed.

(** ** Package oprf: expandMessageXMD *)

Lemma length_expand_loop n : forall i b0 bPrev dstPrime uniformBytes,
  List.length (oprf.expand_loop n i b0 bPrev dstPrime uniformBytes) =
  (List.length uniformBytes + 64 * n)%nat.
Proof.
  induction n as [|k IH]; intros; cbn [oprf.expand_loop]; [lia|].
  rewrite IH, length_app, length_Sum. lia.
Qed.

Lemma int_wrap_small z : - 2 ^ 63 <= z < 2 ^ 63 -> int_wrap z = z.
Proof.
  intros H. unfold int_wrap. rewrite Z.mod_small; lia.
Qed.

(** The number of blocks [ell] that [expandMessageXMD] computes. *)
Lemma expand_ell lenInBytes :
  0 <= lenInBytes < 2 ^ 63 - 64 ->
  Z.quot (int_wrap (int_wrap (lenInBytes + oprf.sha512OutputBytes) - 1))
         oprf.sha512OutputBytes = (lenInBytes + 63) / 64.
Proof.
  intros H. unfold oprf.sha512OutputBytes.
  rewrite (int_wrap_small (lenInBytes + 64)) by lia.
  rewrite int_wrap_small by lia.
  rewrite Z.quot_div_nonneg by lia. f_equal. lia.
Qed.

(** [expandMessageXMD] returns its error exactly when more than 255 blocks
    are asked for, and a result otherwise, whatever the length of [dst]. *)
Lemma expandMessageXMD_cases msg dst lenInBytes :
  0 <= lenInBytes < 2 ^ 63 - 64 ->
  if 255 * 64 <? lenInBytes
  then oprf.expandMessageXMD msg dst lenInBytes = Err ErrLenInBytesTooLarge
  else exists out, oprf.expandMessageXMD msg dst lenInBytes = Ok out /\
                   len out = lenInBytes.
Proof.
  intros H. unfold oprf.expandMessageXMD. rewrite expand_ell by exact H.
  set (ell' := (lenInBytes + 63) / 64).
  assert (Hell : 0 <= ell' /\ 64 * ell' - 63 <= lenInBytes + 0 <= 64 * ell').
  { unfold ell'. pose proof (Z.div_mod (lenInBytes + 63) 64 ltac:(lia)).
    pose proof (Z.mod_pos_bound (lenInBytes + 63) 64 ltac:(lia)).
    split; [apply Z.div_pos; lia | lia]. }
  destruct (Z.ltb_spec (255 * 64) lenInBytes) as [Hbig|Hsmall].
  - replace (ell' >? 255) with true by (symmetry; rewrite Z.gtb_ltb; apply Z.ltb_lt; lia).
    reflexivity.
  - replace (ell' >? 255) with false by (symmetry; rewrite Z.gtb_ltb; apply Z.ltb_ge; lia).
    unfold oprf.sha512OutputBytes.
    rewrite (int_wrap_small (ell' * 64)) by lia.
    replace (ell' * 64 <? 0) with false by (symmetry; apply Z.ltb_ge; lia).
    unfold slice_to, len. rewrite length_expand_loop.
    cbn [app]. rewrite length_Sum.
    replace ((0 <=? lenInBytes) &&
             (lenInBytes <=? Z.of_nat (64 + 64 * Z.to_nat (ell' - 1)))) with true
      by (symmetry; apply andb_true_intro; split; apply Z.leb_le; lia).
    eexists. split; [reflexivity|].
    rewrite length_firstn, length_expand_loop, length_Sum. lia.
Qed.

Lemma expandMessageXMD_64 msg :
  exists out, oprf.expandMessageXMD msg oprf.HashToGroupDST oprf.HashBytes = Ok out /\
              List.length out = 64%nat.
Proof.
  pose proof (expandMessageXMD_cases msg oprf.HashToGroupDST 64 ltac:(lia)) as H.
  change (255 * 64 <? 64) with false in H. destruct H as [out [H Hl]].
  exists out. split; [exact H|]. unfold len in Hl. lia.
Qed.

Lemma hashToGroup_total {G : Group} msg : exists h0, oprf.hashToGroup msg = Ok h0.
Proof.
  unfold oprf.hashToGroup. destruct (expandMessageXMD_64 msg) as [out [-> _]].
  eexists. reflexivity.
Qed.

(** [Finalize] has one failure only, the length of [n]. *)
Lemma Finalize_cases input n :
  if len n =? ElementBytes
  then exists out, oprf.Finalize input n = Ok out /\ List.length out = 64%nat
  else oprf.Finalize input n = Err ErrNLength.
Proof.
  unfold oprf.Finalize. destruct (len n =? ElementBytes); cbn [negb].
  - eexists. split; [reflexivity | apply length_Sum].
  - reflexivity.
Qed.

(** ** Package oprf: the round trip *)

Section OPRF.
Context {G : Group} {GL : GroupLaws G}.

Lemma Blind_fixed E x r rS h0 :
  oprf.hashToGroup x = Ok h0 -> Scalar_Decode r = Some rS ->
  oprf.Blind E x (Some r) = Ok (r, Element_Encode (Element_ScalarMult rS h0)).
Proof.
  intros Hh Hr. unfold oprf.Blind. rewrite Hh.
  destruct (Scalar_Decode_Some _ _ Hr) as [Hl _].
  unfold len, ScalarBytes. rewrite Hl. cbn [Z.of_nat Z.eqb negb Pos.of_succ_nat].
  replace (Z.of_nat 32 =? 32) with true by reflexivity. cbn [negb].
  rewrite Hr. reflexivity.
Qed.

Lemma Evaluate_decoded k kS alpha A :
  Scalar_Decode k = Some kS -> len alpha = 32 -> Element_Decode alpha = Some A ->
  oprf.Evaluate k alpha = Ok (Element_Encode (Element_ScalarMult kS A)).
Proof.
  intros Hk Hl Ha. unfold oprf.Evaluate.
  destruct (Scalar_Decode_Some _ _ Hk) as [Hlk _].
  unfold len, ScalarBytes, ElementBytes in *. rewrite Hlk, Hl.
  replace (Z.of_nat 32 =? 32) with true by reflexivity.
  change (32 =? 32) with true. cbn [negb].
  rewrite Hk, Ha. reflexivity.
Qed.

Lemma Unblind_decoded r rS beta B :
  Scalar_Decode r = Some rS -> len beta = 32 -> Element_Decode beta = Some B ->
  oprf.Unblind r beta = Ok (Element_Encode (Element_ScalarMult (Scalar_Invert rS) B)).
Proof.
  intros Hr Hl Hb. unfold oprf.Unblind.
  destruct (Scalar_Decode_Some _ _ Hr) as [Hlr _].
  unfold len, ScalarBytes, ElementBytes in *. rewrite Hlr, Hl.
  replace (Z.of_nat 32 =? 32) with true by reflexivity.
  change (32 =? 32) with true. cbn [negb].
  rewrite Hr, Hb. reflexivity.
Qed.

(** The blinded evaluation, unblinded, is the element [k . H(x)]. *)
Lemma unblinded_element (kS rS : Scalar) (h0 A B : Element) :
  rS <> Zmod.zero ->
  Element_Equal A (Element_ScalarMult rS h0) ->
  Element_Equal B (Element_ScalarMult kS A) ->
  Element_Equal (Element_ScalarMult (Scalar_Invert rS) B) (Element_ScalarMult kS h0).
Proof.
  intros Hr HA HB. rewrite HB, HA, !ScalarMult_mul.
  assert (E : Zmod.mul (Zmod.mul (Scalar_Invert rS) kS) rS = kS).
  { transitivity (Zmod.mul kS (Zmod.mul rS (Scalar_Invert rS))); [ring|].
    rewrite Scalar_Invert_r by exact Hr. ring. }
  rewrite E. reflexivity.
Qed.

End OPRF.

(** ** Package toprf: the exchange sort of ThresholdCombine *)

Lemma length_set_nth {A : Type} (l : list A) : forall i v,
  List.length (set_nth i v l) = List.length l.
Proof.
  induction l as [|a r IH]; intros [|i] v; cbn [set_nth List.length]; try reflexivity.
  rewrite IH. reflexivity.
Qed.

Lemma Permutation_set_nth {A : Type} (l : list A) : forall j a b,
  nth_error l j = Some b -> Permutation (a :: l) (b :: set_nth j a l).
Proof.
  induction l as [|x r IH]; intros [|j] a b H; cbn [nth_error set_nth] in *;
    try discriminate.
  - injection H as ->. apply perm_swap.
  - etransitivity; [apply perm_swap|].
    etransitivity; [apply perm_skip, (IH j a b H)|]. apply perm_swap.
Qed.

Lemma Permutation_swap {A : Type} (l : list A) : forall i j a b,
  nth_error l i = Some a -> nth_error l j = Some b ->
  Permutation l (set_nth j a (set_nth i b l)).
Proof.
  induction l as [|x r IH]; intros [|i] [|j] a b Hi Hj;
    cbn [nth_error set_nth] in *; try discriminate.
  - injection Hi as ->. reflexivity.
  - injection Hi as ->. apply Permutation_set_nth. exact Hj.
  - injection Hj as ->. apply Permutation_set_nth. exact Hi.
  - apply perm_skip. apply IH; assumption.
Qed.

Section Combine.
Context {G : Group} {GL : GroupLaws G}.

Lemma swap_if_less_ok (parts : list toprf.Part) i j :
  (i < List.length parts)%nat -> (j < List.length parts)%nat ->
  exists parts', toprf.swap_if_less parts i j = Ok parts' /\ Permutation parts parts'.
Proof.
  intros Hi Hj. unfold toprf.swap_if_less.
  destruct (nth_error parts i) as [pi|] eqn:Ei; [|apply nth_error_None in Ei; lia].
  destruct (nth_error parts j) as [pj|] eqn:Ej; [|apply nth_error_None in Ej; lia].
  destruct (byte_to_Z (toprf.PIndex pj) <? byte_to_Z (toprf.PIndex pi)).
  - eexists. split; [reflexivity|]. apply Permutation_swap; assumption.
  - eexists. split; reflexivity.
Qed.

Lemma sort_inner_ok n : forall i j (parts : list toprf.Part),
  (i < List.length parts)%nat -> (j + n <= List.length parts)%nat ->
  exists parts', toprf.sort_inner n i j parts = Ok parts' /\ Permutation parts parts'.
Proof.
  induction n as [|k IH]; intros i j parts Hi Hj; cbn [toprf.sort_inner].
  - eexists. split; reflexivity.
  - destruct (swap_if_less_ok parts i j Hi ltac:(lia)) as [p1 [-> Hp1]]. cbn [bind].
    pose proof (Permutation_length Hp1) as Hl.
    destruct (IH i (S j) p1 ltac:(lia) ltac:(lia)) as [p2 [-> Hp2]].
    eexists. split; [reflexivity|]. etransitivity; eassumption.
Qed.

Lemma sort_outer_ok n : forall i (parts : list toprf.Part),
  (n = 0 \/ i + n < List.length parts)%nat ->
  exists parts', toprf.sort_outer n i parts = Ok parts' /\ Permutation parts parts'.
Proof.
  induction n as [|k IH]; intros i parts Hn; cbn [toprf.sort_outer].
  - eexists. split; reflexivity.
  - destruct (sort_inner_ok (List.length parts - S i) i (S i) parts ltac:(lia) ltac:(lia))
      as [p1 [-> Hp1]]. cbn [bind].
    pose proof (Permutation_length Hp1) as Hl.
    destruct (IH (S i) p1 ltac:(lia)) as [p2 [-> Hp2]].
    eexists. split; [reflexivity|]. etransitivity; eassumption.
Qed.

(** [ThresholdCombine] on decodable parts: the encoding of a sum of their
    elements, taken in some order. *)
Lemma ThresholdCombine_decoded (responses : list bytes) (parts : list toprf.Part) :
  (0 < List.length responses <= 255)%nat ->
  toprf.unmarshal_parts responses = Ok parts ->
  exists beta,
    toprf.ThresholdCombine responses = Ok beta /\
    beta = Element_Encode
             (fold_left (fun r p => Element_Add r (toprf.PElement p)) parts NewElement).
Proof.
  intros Hlen Hparts. unfold toprf.ThresholdCombine, len.
  replace (Z.of_nat (List.length responses) =? 0) with false
    by (symmetry; apply Z.eqb_neq; lia).
  replace (Z.of_nat (List.length responses) >? 255) with false
    by (symmetry; rewrite Z.gtb_ltb; apply Z.ltb_ge; lia).
  rewrite Hparts. cbn [bind].
  destruct (sort_outer_ok (List.length parts - 1) 0 parts ltac:(lia)) as [sorted [-> Hperm]].
  cbn [bind]. eexists. split; [reflexivity|].
  apply (fold_Add_Permutation toprf.PElement). symmetry. exact Hperm.
Qed.

(** ** Package toprf: Evaluate and the parts it emits *)

Lemma copy_full (src : bytes) : List.length src = 32%nat -> copy (make_bytes 32) src = src.
Proof.
  intros H. unfold copy, make_bytes. rewrite repeat_length, H.
  rewrite <- H at 1. rewrite firstn_all. cbn [skipn repeat]. apply app_nil_r.
Qed.

Lemma Part_MarshalBinary_eq (p : toprf.Part) :
  toprf.Part_MarshalBinary (toprf.part_ptr p) =
  Ok (toprf.PIndex p :: Element_Encode (toprf.PElement p)).
Proof.
  unfold toprf.Part_MarshalBinary, toprf.part_ptr. cbn [toprf.PtrElement toprf.PtrPIndex].
  change (set_nth 0 (toprf.PIndex p) (make_bytes (Z.to_nat toprf.PartBytes)))
    with (toprf.PIndex p :: make_bytes 32).
  cbn [firstn skipn app]. rewrite copy_full by apply Encode_length. reflexivity.
Qed.

Lemma Part_UnmarshalBinary_Marshal (idx : byte) (e : Element) :
  exists e', toprf.Part_UnmarshalBinary (idx :: Element_Encode e) = Ok (toprf.mkPart idx e') /\
             Element_Equal e' e.
Proof.
  unfold toprf.Part_UnmarshalBinary, len. cbn [List.length].
  rewrite Encode_length. change (Z.of_nat 33 =? toprf.PartBytes) with true. cbn [negb].
  destruct (Decode_Encode e) as [e' [-> He]]. exists e'. split; [reflexivity | exact He].
Qed.

Lemma toprf_Evaluate_decoded (share : toprf.Share) (alpha : bytes) (A : Element)
    (peers : list byte) :
  len alpha = 32 -> Element_Decode alpha = Some A ->
  toprf.Evaluate share alpha peers =
  Ok (toprf.Index share ::
      Element_Encode
        (Element_ScalarMult
           (Zmod.mul (toprf.Value share) (toprf.coeff (toprf.Index share) peers)) A)).
Proof.
  intros Hl Ha. unfold toprf.Evaluate. rewrite Hl, Ha.
  change (32 =? ElementBytes) with true. cbn [negb].
  rewrite Part_MarshalBinary_eq. reflexivity.
Qed.

Lemma evaluate_all_decoded (shares : list toprf.Share) alpha A peers :
  len alpha = 32 -> Element_Decode alpha = Some A ->
  evaluate_all shares alpha peers =
  Ok (map (fun s => toprf.Index s ::
                    Element_Encode (Element_ScalarMult (baked_key peers s) A)) shares).
Proof.
  intros Hl Ha. induction shares as [|s r IH]; cbn [evaluate_all map]; [reflexivity|].
  rewrite (toprf_Evaluate_decoded s alpha A peers Hl Ha), IH. reflexivity.
Qed.

Lemma unmarshal_parts_evaluated (shares : list toprf.Share) A peers :
  exists parts,
    toprf.unmarshal_parts
      (map (fun s => toprf.Index s ::
                     Element_Encode (Element_ScalarMult (baked_key peers s) A)) shares)
    = Ok parts /\
    Forall2 (fun s p => Element_Equal (toprf.PElement p)
                          (Element_ScalarMult (baked_key peers s) A)) shares parts.
Proof.
  induction shares as [|s r [parts [IH HF]]]; cbn [map toprf.unmarshal_parts].
  - exists []. split; [reflexivity | constructor].
  - destruct (Part_UnmarshalBinary_Marshal (toprf.Index s)
                (Element_ScalarMult (baked_key peers s) A)) as [e' [-> He]].
    cbn [bind]. rewrite IH. cbn [bind]. eexists. split; [reflexivity|].
    constructor; [exact He | exact HF].
Qed.

Lemma sum_of_parts (key : toprf.Share -> Scalar) (A : Element)
    (shares : list toprf.Share) (parts : list toprf.Part) :
  Forall2 (fun s p => Element_Equal (toprf.PElement p) (Element_ScalarMult (key s) A))
          shares parts ->
  forall acc k, Element_Equal acc (Element_ScalarMult k A) ->
  Element_Equal (fold_left (fun r p => Element_Add r (toprf.PElement p)) parts acc)
                (Element_ScalarMult (fold_left (fun a s => Zmod.add a (key s)) shares k) A).
Proof.
  induction 1 as [|s p shares parts Hsp _ IH]; intros acc k Hacc; cbn [fold_left].
  - exact Hacc.
  - apply IH. rewrite ScalarMult_add, Hacc, Hsp. reflexivity.
Qed.

End Combine.

(** The sum of the baked keys is what [InterpolateScalar] computes at 0. *)
Lemma baked_key_sum (shares all : list toprf.Share) : forall acc,
  fold_left (fun a s => Zmod.add a (baked_key (map toprf.Index all) s)) shares acc =
  fold_left
    (fun result share =>
       Scalar_Add result
         (Scalar_Multiply (toprf.lcoeff (toprf.Index share) x00 (map toprf.Index all))
                          (toprf.Value share)))
    shares acc.
Proof.
  induction shares as [|s r IH]; intros acc; cbn [fold_left]; [reflexivity|].
  rewrite IH. f_equal. unfold baked_key, toprf.coeff. scalar_unfold. ring.
Qed.

(** ** Package dkg: the verification equation *)

Lemma bytes_eqb_eq (a b : bytes) : bytes_eqb a b = true <-> a = b.
Proof.
  unfold bytes_eqb. revert b.
  induction a as [|x r IH]; intros [|y s]; cbn [List.length combine forallb fst snd Nat.eqb];
    try (split; [discriminate | discriminate]).
  - split; reflexivity.
  - specialize (IH s). cbn [andb] in *. split.
    + intros H. apply andb_prop in H as [Hlen H]. apply andb_prop in H as [Hxy H].
      apply byte_eqb_eq in Hxy. subst y. f_equal. apply IH.
      rewrite Hlen, H. reflexivity.
    + intros H. injection H as -> ->.
      pose proof (proj2 IH eq_refl) as H. apply andb_prop in H as [Hlen H].
      rewrite Hlen, H, (proj2 (byte_eqb_eq y y) eq_refl). reflexivity.
Qed.

Lemma power_loop_spec n : forall a j,
  dkg.power_loop n a j = Zmod.mul a (spow j n).
Proof.
  induction n as [|k IH]; intros a j; cbn [dkg.power_loop spow].
  - ring.
  - rewrite IH. scalar_unfold. ring.
Qed.

Section DKG.
Context {G : Group} {GL : GroupLaws G}.

Lemma commit_loop_spec (j : Scalar) (C : list Element) n : forall k v,
  (1 <= k)%nat -> (k + n = List.length C)%nat -> (List.length C <= 255)%nat ->
  exists v', dkg.commit_loop n (Z.of_nat k) j C v = Ok v' /\
             Element_Equal v' (Element_Add v (commitment_sum j k (skipn k C))).
Proof.
  induction n as [|m IH]; intros k v Hk Hlen HC; cbn [dkg.commit_loop].
  - exists v. split; [reflexivity|].
    rewrite skipn_all2 by lia. cbn [commitment_sum]. rewrite Add_identity_r. reflexivity.
  - rewrite Nat2Z.id.
    destruct (nth_error C k) as [ck|] eqn:E; [|apply nth_error_None in E; lia].
    replace (uint8 (Z.of_nat k + 1)) with (Z.of_nat (S k))
      by (rewrite uint8_small by lia; lia).
    destruct (IH (S k) (Element_Add v
                (Element_ScalarMult (dkg.power_loop k (dkg.scalarFromUint8 x01) j) ck))
              ltac:(lia) ltac:(lia) HC) as [v' [-> Hv']].
    exists v'. split; [reflexivity|].
    rewrite Hv', (skipn_nth_error C k ck E). cbn [commitment_sum].
    rewrite power_loop_spec, dkg_scalarFromUint8_eq, scalarFromUint8_one, Zmod.mul_1_l.
    rewrite Add_assoc. reflexivity.
Qed.

(** For a commitment vector of length [threshold >= 1], the element [v1]
    that [VerifyCommitment] compares is the sum of the specification. *)
Lemma VerifyCommitment_cases (n threshold self i : byte) (C : list Element)
    (share : toprf.Share) :
  1 <= byte_to_Z threshold ->
  List.length C = Z.to_nat (byte_to_Z threshold) ->
  dkg.VerifyCommitment n threshold self i C share =
  if Byte.eqb i self then Ok tt
  else if bytes_eqb (Element_Encode (Element_ScalarBaseMult (toprf.Value share)))
                    (Element_Encode (commitment_sum (toprf.scalarFromUint8 self) 0 C))
       then Ok tt else Err ErrCommitment.
Proof.
  intros Ht Hlen. unfold dkg.VerifyCommitment.
  destruct (Byte.eqb i self); [reflexivity|].
  pose proof (byte_to_Z_range threshold) as Hr.
  destruct C as [|c0 rest]; [cbn [List.length] in Hlen; lia|].
  cbn [nth_error].
  set (v1 := Element_Decode_into NewElement (Element_Encode c0)).
  assert (Hv1 : Element_Equal v1 c0).
  { unfold v1, Element_Decode_into. destruct (Decode_Encode c0) as [c' [-> Hc']]. exact Hc'. }
  destruct (commit_loop_spec (dkg.scalarFromUint8 self) (c0 :: rest)
              (Z.to_nat (byte_to_Z threshold - 1)) 1 v1 ltac:(lia)
              ltac:(rewrite Hlen; lia) ltac:(rewrite Hlen; lia)) as [v' [Hloop Hv']].
  change (Z.of_nat 1) with 1 in Hloop. rewrite Hloop. cbn [bind].
  assert (Hsum : Element_Equal v'
            (commitment_sum (toprf.scalarFromUint8 self) 0 (c0 :: rest))).
  { rewrite Hv'. cbn [skipn commitment_sum spow].
    rewrite ScalarMult_one, Hv1. rewrite dkg_scalarFromUint8_eq. reflexivity. }
  unfold dkg.ConstantTimeCompare. rewrite Hsum.
  destruct (bytes_eqb _ _); reflexivity.
Qed.

End DKG.

(** ** Package dkg: Finish *)

Lemma finish_loop_spec (shares : list toprf.Share) self : forall acc,
  dkg.finish_loop shares self acc =
  if forallb (fun s => Byte.eqb (toprf.Index s) self) shares
  then inr (fold_left (fun a s => Zmod.add a (toprf.Value s)) shares acc)
  else inl ErrShareIndex.
Proof.
  induction shares as [|s r IH]; intros acc; cbn [dkg.finish_loop forallb fold_left];
    [reflexivity|].
  destruct (Byte.eqb (toprf.Index s) self); cbn [negb andb]; [apply IH | reflexivity].
Qed.

(** * The claims of the specification *)

(** ** C1: the OPRF round trip *)

(** C1, as amended: for every canonical 32-byte key [k], every input [x]
    and every canonical NONZERO blind [r], blinding, evaluating, unblinding
    and finalizing returns the same 64 bytes as finalizing
    [k . hash_to_group(x)] directly; the output does not depend on [r]. *)
Theorem C1_round_trip {G : Group} {GL : GroupLaws G} (E : Entropy)
    (k x r : bytes) (kS rS : Scalar) :
  Scalar_Decode k = Some kS -> Scalar_Decode r = Some rS -> rS <> Zmod.zero ->
  exists out, oprf_round_trip E k x r = Ok out /\ oprf_direct kS x = Ok out.
Proof.
  intros Hk Hr Hnz.
  destruct (hashToGroup_total x) as [h0 Hh].
  unfold oprf_round_trip, oprf_direct.
  rewrite (Blind_fixed E x r rS h0 Hh Hr), Hh. cbn [bind fst snd].
  destruct (Decode_Encode (Element_ScalarMult rS h0)) as [A [HA HAeq]].
  rewrite (Evaluate_decoded k kS _ A Hk (len_Element_Encode _) HA). cbn [bind].
  destruct (Decode_Encode (Element_ScalarMult kS A)) as [B [HB HBeq]].
  rewrite (Unblind_decoded r rS _ B Hr (len_Element_Encode _) HB). cbn [bind].
  rewrite (unblinded_element kS rS h0 A B Hnz HAeq HBeq).
  pose proof (Finalize_cases x (Element_Encode (Element_ScalarMult kS h0))) as HF.
  rewrite len_Element_Encode in HF. change (32 =? ElementBytes) with true in HF.
  destruct HF as [out [HF _]]. exists out. split; exact HF.
Qed.

Lemma C1_round_trip_witness :
  exists out,
    @oprf_round_trip DLog no_entropy vecA_key [x00] vecA_blind = Ok out /\
    @oprf_direct DLog (Zmod.of_Z ell (le_int vecA_key)) [x00] = Ok out.
Proof.
  apply (@C1_round_trip DLog DLog_laws no_entropy vecA_key [x00] vecA_blind
           (Zmod.of_Z ell (le_int vecA_key)) (Zmod.of_Z ell (le_int vecA_blind))).
  - vm_compute. reflexivity.
  - vm_compute. reflexivity.
  - intros H. apply (f_equal Zmod.to_Z) in H. vm_compute in H. discriminate H.
Defined.

(** C1 fails for the blind [r = 0], which is canonical: its inverse is
    computed as 0, so the client finalizes the identity element. *)
Lemma C1_counterexample :
  Scalar_Decode one_bytes = Some Zmod.one /\
  Scalar_Decode zero_bytes = Some Zmod.zero /\
  @oprf_round_trip R255 no_entropy one_bytes [x00] zero_bytes =
    Ok (unhex "490cdb110c03517f456e529d30990af788da8d5575bd65aba698c07e5ea36df57327b1ad1b8475fbf5754b6a9f9091dcbf745e82203e004a350154aee0977f07") /\
  @oprf_direct R255 Zmod.one [x00] =
    Ok (unhex "0738102d5a35bb1312412c2886c878a35d4fa6f630411072e16de42e1e93ad427b8d337924ca519cd6ff1d8c9980226d957955cae5a22f8052eb5ad7da1a408d").
Proof.
  split; [vm_compute; reflexivity|]. split; [vm_compute; reflexivity|].
  split; vm_compute; reflexivity.
Qed.

(** ** C3: the test vector *)

(** C3: on input [00] with the key and the blind of test vector A, [Blind]
    returns the listed alpha, [Evaluate] the listed beta, and unblinding and
    finalizing the listed 64-byte output. *)
Theorem C3_test_vector_A :
  @oprf.Blind R255 no_entropy [x00] (Some vecA_blind) = Ok (vecA_blind, vecA_alpha) /\
  @oprf.Evaluate R255 vecA_key vecA_alpha = Ok vecA_beta /\
  (n <- @oprf.Unblind R255 vecA_blind vecA_beta ;; oprf.Finalize [x00] n) = Ok vecA_output.
Proof.
  split; [|split]; vm_compute; reflexivity.
Qed.

(** ** C6: Lagrange coefficients of the peers 1, 2, 3 *)

(** C6: over the peers [1; 2; 3] the reconstruction coefficient of peer 1
    is 3, of peer 2 is -3 modulo the group order, of peer 3 is 1. *)
Theorem C6_lagrange_sanity :
  toprf.coeff x01 [x01; x02; x03] = Zmod.of_Z ell 3 /\
  toprf.coeff x02 [x01; x02; x03] = Zmod.of_Z ell (-3) /\
  toprf.coeff x03 [x01; x02; x03] = Zmod.of_Z ell 1.
Proof.
  split; [|split]; apply Zmod.unsigned_inj; vm_compute; reflexivity.
Qed.

(** ** C7: failures of the hashing layer *)

(** C7: the two length limits of the hashing layer are not checked.
    [Finalize] accepts an input of 65536 bytes, one more than the 16-bit
    framing can express, and frames it with the length prefix of the empty
    input; [expandMessageXMD] accepts a [dst] of 256 bytes, whose length
    byte wraps to 0. *)
Theorem C7_length_limits_not_checked :
  len (make_bytes (Z.to_nat 65536)) = 65536 /\
  (exists out, oprf.Finalize (make_bytes (Z.to_nat 65536)) zero_bytes = Ok out /\
               len out = 64) /\
  PutUint16 (uint16 (len (make_bytes (Z.to_nat 65536)))) =
    PutUint16 (uint16 (len (@nil byte))) /\
  len (make_bytes 256) = 256 /\
  is_Ok (oprf.expandMessageXMD [] (make_bytes 256) 32) = true.
Proof.
  assert (Hlen : len (make_bytes (Z.to_nat 65536)) = 65536).
  { unfold len, make_bytes. rewrite repeat_length, Z2Nat.id by lia. reflexivity. }
  split; [exact Hlen|]. split.
  - pose proof (Finalize_cases (make_bytes (Z.to_nat 65536)) zero_bytes) as HF.
    change (len zero_bytes =? ElementBytes) with true in HF.
    destruct HF as [out [HF Hout]]. exists out. split; [exact HF|].
    unfold len. rewrite Hout. reflexivity.
  - split; [rewrite Hlen; reflexivity|].
    split; [reflexivity | vm_compute; reflexivity].
Qed.

(** X32: inside the limits of an [int], that is for [0 <= L < 2^63 - 64],
    [expandMessageXMD(msg, dst, L)] returns its error exactly when [L]
    exceeds [255 * 64], whatever the length of [dst], and a result of [L]
    bytes otherwise; [Finalize(x, N)] with a 32-byte [N] returns 64 bytes for
    every input [x], whatever its length. *)
Theorem X32_hashing_outcomes (msg dst x N : bytes) (L : Z) :
  0 <= L < 2 ^ 63 - 64 -> len N = 32 ->
  (oprf.expandMessageXMD msg dst L = Err ErrLenInBytesTooLarge <-> 255 * 64 < L) /\
  (L <= 255 * 64 ->
   exists out, oprf.expandMessageXMD msg dst L = Ok out /\ len out = L) /\
  (exists out, oprf.Finalize x N = Ok out /\ len out = 64).
Proof.
  intros HL HN.
  pose proof (expandMessageXMD_cases msg dst L HL) as Hx.
  pose proof (Finalize_cases x N) as HF. rewrite HN in HF.
  change (32 =? ElementBytes) with true in HF.
  destruct (Z.ltb_spec (255 * 64) L) as [Hbig|Hsmall].
  - split; [split; [intros _; exact Hbig | intros _; exact Hx]|].
    split; [intros; lia|].
    destruct HF as [out [HF Hl]]. exists out. split; [exact HF | unfold len; lia].
  - destruct Hx as [out [Hx Hl]].
    split; [split; [rewrite Hx; discriminate | lia]|].
    split; [intros _; exists out; split; assumption|].
    destruct HF as [o [HF Hlo]]. exists o. split; [exact HF | unfold len; lia].
Qed.

Lemma X32_hashing_outcomes_witness :
  (oprf.expandMessageXMD [x00] oprf.HashToGroupDST 64 = Err ErrLenInBytesTooLarge
     <-> 255 * 64 < 64) /\
  (64 <= 255 * 64 ->
   exists out, oprf.expandMessageXMD [x00] oprf.HashToGroupDST 64 = Ok out /\ len out = 64) /\
  (exists out, oprf.Finalize [x00] zero_bytes = Ok out /\ len out = 64).
Proof.
  apply (X32_hashing_outcomes [x00] oprf.HashToGroupDST [x00] zero_bytes 64).
  - split; [discriminate | reflexivity].
  - reflexivity.
Defined.

(** ** C8: parameter validation of CreateShares *)

(** C8, as amended: for every secret and every pair [(n, t)] of [uint8]
    parameters, [CreateShares(secret, n, t)] returns its invalid-parameters
    error if and only if [t < 1] or [n < t], that is if and only if
    [1 <= t <= n <= 255] fails to hold. *)
Theorem C8_CreateShares_validation (E : Entropy) (secret : Scalar) (n t : byte) :
  toprf.CreateShares E secret n t = Err ErrInvalidThreshold <->
  (byte_to_Z t < 1 \/ byte_to_Z n < byte_to_Z t).
Proof.
  rewrite CreateShares_cases.
  destruct ((byte_to_Z t <? 1) || (byte_to_Z n <? byte_to_Z t)) eqn:Eg.
  - apply orb_true_iff in Eg. rewrite !Z.ltb_lt in Eg. split; [intros _; exact Eg | reflexivity].
  - apply orb_false_iff in Eg as [E1 E2]. apply Z.ltb_ge in E1. apply Z.ltb_ge in E2.
    split; [|lia]. intros H. exfalso.
    destruct (toprf.draw_coeffs E 0 (Z.to_nat (byte_to_Z t - 1))) as [cs|e|] eqn:Ed.
    + destruct (byte_to_Z n =? 255); discriminate H.
    + exact (draw_coeffs_no_error _ _ _ _ Ed).
    + discriminate H.
Qed.

(** C8 fails at [n = 1], [t = 1]: the parameters violate [2 <= t], and the
    call returns one share, the secret itself. *)
Lemma C8_counterexample :
  ~ (2 <= byte_to_Z x01) /\
  toprf.CreateShares no_entropy (Zmod.of_Z ell 7) x01 x01 =
    Ok [toprf.mkShare x01 (Zmod.of_Z ell 7)].
Proof.
  split; [vm_compute; intros H; apply H; reflexivity|].
  vm_compute. reflexivity.
Qed.

(** ** C10: Finish on an empty share list *)

(** C10: [Finish] called with no shares returns no error but the share
    [(self, 0)]. *)
Theorem C10_Finish_empty (self : byte) :
  dkg.Finish [] self = Ok (toprf.mkShare self Zmod.zero).
Proof.
  unfold dkg.Finish. rewrite Scalar_Decode_zero. reflexivity.
Qed.

(** ** C4: Shamir recovery *)

(** Any [t] distinct shares of a dealing with threshold [t] interpolate to
    the secret at 0. *)
Lemma shares_interpolate (secret : Scalar) (coeffs : list Scalar) (n : nat)
    (S : list toprf.Share) :
  (n <= 255)%nat -> NoDup S -> incl S (shares_of secret coeffs n) ->
  (List.length coeffs < List.length S)%nat ->
  toprf.InterpolateScalar x00 S = Ok secret.
Proof.
  intros Hn Hnd Hincl Hlen.
  rewrite (InterpolateScalar_poly (secret :: coeffs) x00 S).
  - f_equal. cbn [poly_eval]. rewrite scalarFromUint8_zero. ring.
  - intros ->. cbn [List.length] in Hlen. lia.
  - apply (NoDup_map_Index secret coeffs n); assumption.
  - cbn [List.length]. lia.
  - intros s Hs. apply (In_shares_of secret coeffs n s Hn). apply Hincl. exact Hs.
Qed.

(** C4: with [n = 255] and [t = 2], [CreateShares] returns no shares to
    recover the secret from: after the 255th share its [uint8] counter wraps
    to 0, the loop goes on and [shares[i-1]] is out of range. *)
Theorem C4_CreateShares_255_panics :
  toprf.CreateShares counting_entropy demo_secret xff x02 = Panic.
Proof. vm_compute. reflexivity. Qed.

(** ** C2: threshold correctness *)

(** C2: with [n = 255] and [t = 2] the threshold evaluation ends in
    [CreateShares], which panics (its [uint8] counter wraps): there are no
    parts to combine. *)
Theorem C2_threshold_255_panics :
  @threshold_evaluation R255 counting_entropy demo_secret xff x02 (firstn 2) vecA_alpha
  = Panic.
Proof. vm_compute. reflexivity. Qed.

(** X31: threshold correctness over a dealing.  For every list of shares
    that [CreateShares(s, n, t)] returns with [t >= 2], every choice [S] of
    exactly [t] of them (their indexes being the peer list [P]) and every
    valid 32-byte [alpha], combining the [t] parts [Evaluate(share, alpha, P)]
    with [ThresholdCombine] returns the same 32 bytes as
    [oprf.Evaluate(encode(s), alpha)]. *)
Theorem X31_threshold_correctness {G : Group} {GL : GroupLaws G} (E : Entropy)
    (secret : Scalar) (n t : byte) (shares S : list toprf.Share)
    (alpha : bytes) (A : Element) :
  2 <= byte_to_Z t <= byte_to_Z n ->
  toprf.CreateShares E secret n t = Ok shares ->
  NoDup S -> incl S shares -> List.length S = Z.to_nat (byte_to_Z t) ->
  len alpha = 32 -> Element_Decode alpha = Some A ->
  exists parts beta,
    evaluate_all S alpha (map toprf.Index S) = Ok parts /\
    toprf.ThresholdCombine parts = Ok beta /\
    oprf.Evaluate (Scalar_Encode secret) alpha = Ok beta.
Proof.
  intros Ht Hc Hnd Hincl Hlen Hl Ha.
  destruct (CreateShares_Ok _ _ _ _ _ Hc) as [coeffs [Hcl ->]].
  pose proof (byte_to_Z_range n) as Hn. pose proof (byte_to_Z_range t) as Htr.
  assert (Hn255 : (Z.to_nat (byte_to_Z n) <= 255)%nat) by lia.
  assert (Hdeg : (List.length coeffs < List.length S)%nat) by lia.
  pose proof (shares_interpolate secret coeffs (Z.to_nat (byte_to_Z n)) S
                Hn255 Hnd Hincl Hdeg) as Hint.
  set (P := map toprf.Index S) in *.
  rewrite (evaluate_all_decoded S alpha A P Hl Ha).
  destruct (unmarshal_parts_evaluated S A P) as [parts [Hun HF]].
  assert (Hcount : (0 < List.length
            (map (fun s => toprf.Index s ::
                    Element_Encode (Element_ScalarMult (baked_key P s) A)) S) <= 255)%nat)
    by (rewrite length_map; lia).
  destruct (ThresholdCombine_decoded _ parts Hcount Hun) as [beta [Hcomb Hbeta]].
  eexists. exists beta. split; [reflexivity|]. split; [exact Hcomb|].
  rewrite (Evaluate_decoded (Scalar_Encode secret) secret alpha A
             (Scalar_Decode_Encode secret) Hl Ha).
  f_equal. rewrite Hbeta.
  assert (Hzero : Element_Equal NewElement (Element_ScalarMult Zmod.zero A))
    by (symmetry; apply ScalarMult_zero).
  pose proof (sum_of_parts (baked_key P) A S parts HF NewElement Zmod.zero Hzero) as Hsum.
  rewrite Hsum. f_equal. f_equal.
  unfold P. rewrite baked_key_sum.
  unfold toprf.InterpolateScalar in Hint.
  destruct (len S =? 0); [discriminate Hint|].
  injection Hint as Hint. rewrite Scalar_Decode_zero in Hint. symmetry. exact Hint.
Qed.

Lemma X31_threshold_correctness_witness :
  exists parts beta,
    @evaluate_all DLog demo_pick one_bytes (map toprf.Index demo_pick) = Ok parts /\
    @toprf.ThresholdCombine DLog parts = Ok beta /\
    @oprf.Evaluate DLog (Scalar_Encode demo_secret) one_bytes = Ok beta.
Proof.
  apply (@X31_threshold_correctness DLog DLog_laws counting_entropy demo_secret
           x03 x02 (shares_of demo_secret demo_coeffs 3) demo_pick one_bytes Zmod.one).
  - split; vm_compute; discriminate.
  - rewrite CreateShares_cases. reflexivity.
  - constructor.
    + intros [H|[]]. apply (f_equal toprf.Index) in H. discriminate H.
    + constructor; [intros [] | constructor].
  - intros s [<-|[<-|[]]]; unfold shares_of; cbn [seq map]; auto with datatypes.
  - reflexivity.
  - reflexivity.
  - vm_compute. reflexivity.
Defined.

(** ** C5: verification of a DKG share *)

(** C5, as amended: for a commitment vector [C] of length [t >= 1],
    [VerifyCommitment(n, t, self, i, C, sh)] returns success if and only if
    [i = self] or [g . sh.Value] equals the sum over [k < t] of
    [self^k . C[k]]; in every other case it returns its verification
    error. *)
Theorem C5_VerifyCommitment {G : Group} {GL : GroupLaws G} (n t self i : byte)
    (C : list Element) (share : toprf.Share) :
  1 <= byte_to_Z t -> List.length C = Z.to_nat (byte_to_Z t) ->
  (dkg.VerifyCommitment n t self i C share = Ok tt <->
   (i = self \/
    Element_Equal (Element_ScalarBaseMult (toprf.Value share))
                  (commitment_sum (toprf.scalarFromUint8 self) 0 C))) /\
  (dkg.VerifyCommitment n t self i C share <> Ok tt ->
   dkg.VerifyCommitment n t self i C share = Err ErrCommitment).
Proof.
  intros Ht Hlen. rewrite (VerifyCommitment_cases n t self i C share Ht Hlen).
  unfold Element_Equal.
  destruct (Byte.eqb i self) eqn:Ei.
  - apply byte_eqb_eq in Ei. split; [|intros H; contradiction].
    split; [intros _; left; exact Ei | reflexivity].
  - apply byte_eqb_neq in Ei.
    destruct (bytes_eqb _ _) eqn:Eb.
    + apply bytes_eqb_eq in Eb. split; [|intros H; contradiction].
      split; [intros _; right; exact Eb | reflexivity].
    + split; [|reflexivity].
      split; [discriminate|].
      intros [H|H]; [contradiction|].
      apply bytes_eqb_eq in H. congruence.
Qed.

Lemma C5_VerifyCommitment_witness :
  (@dkg.VerifyCommitment DLog x03 x02 x01 x02
     [Zmod.of_Z ell 5; Zmod.of_Z ell 7] (toprf.mkShare x01 (Zmod.of_Z ell 12)) = Ok tt <->
   (x02 = x01 \/
    @Element_Equal DLog (@Element_ScalarBaseMult DLog (Zmod.of_Z ell 12))
      (@commitment_sum DLog (toprf.scalarFromUint8 x01) 0
         [Zmod.of_Z ell 5; Zmod.of_Z ell 7]))) /\
  (@dkg.VerifyCommitment DLog x03 x02 x01 x02
     [Zmod.of_Z ell 5; Zmod.of_Z ell 7] (toprf.mkShare x01 (Zmod.of_Z ell 12)) <> Ok tt ->
   @dkg.VerifyCommitment DLog x03 x02 x01 x02
     [Zmod.of_Z ell 5; Zmod.of_Z ell 7] (toprf.mkShare x01 (Zmod.of_Z ell 12))
     = Err ErrCommitment).
Proof.
  apply (@C5_VerifyCommitment DLog DLog_laws x03 x02 x01 x02
           [Zmod.of_Z ell 5; Zmod.of_Z ell 7] (toprf.mkShare x01 (Zmod.of_Z ell 12))).
  - vm_compute. discriminate.
  - reflexivity.
Defined.

(** C5 fails for [t = 0] and the empty commitment vector: with [i <> self]
    the call indexes [commitments[0]] and panics, returning neither success
    nor an error. *)
Lemma C5_counterexample :
  List.length (@nil (@Element R255)) = Z.to_nat (byte_to_Z x00) /\
  x02 <> x01 /\
  @dkg.VerifyCommitment R255 x03 x00 x01 x02 [] (toprf.mkShare x01 Zmod.one) = Panic.
Proof.
  split; [reflexivity|]. split; [discriminate|]. reflexivity.
Qed.

(** ** C9: peer lists are not validated *)

(** C9, as amended: for every share, every valid 32-byte [alpha] and every
    peer list, duplicates and the index 0 included, [toprf.Evaluate] returns
    a part: the share's index followed by the encoding of
    [(value * coeff(index, peers)) . alpha].  No peer list is rejected. *)
Theorem C9_Evaluate_accepts_peers {G : Group} {GL : GroupLaws G}
    (share : toprf.Share) (alpha : bytes) (A : Element) (peers : list byte) :
  len alpha = 32 -> Element_Decode alpha = Some A ->
  toprf.Evaluate share alpha peers =
  Ok (toprf.Index share ::
      Element_Encode
        (Element_ScalarMult
           (Zmod.mul (toprf.Value share) (toprf.coeff (toprf.Index share) peers)) A)).
Proof. apply toprf_Evaluate_decoded. Qed.

Lemma C9_Evaluate_accepts_peers_witness :
  @toprf.Evaluate DLog (toprf.mkShare x01 (Zmod.of_Z ell 9)) one_bytes [x01; x01; x00] =
  Ok (x01 ::
      @Element_Encode DLog
        (@Element_ScalarMult DLog
           (Zmod.mul (Zmod.of_Z ell 9) (toprf.coeff x01 [x01; x01; x00])) Zmod.one)).
Proof.
  apply (@C9_Evaluate_accepts_peers DLog DLog_laws
           (toprf.mkShare x01 (Zmod.of_Z ell 9)) one_bytes Zmod.one [x01; x01; x00]).
  - reflexivity.
  - vm_compute. reflexivity.
Defined.

(** C9 fails on the implementation of RFC 9496: with the peer list
    [1; 1] (a duplicate) and with [0; 1] (the index 0), [Evaluate] returns a
    part for the valid element [alpha] of test vector A. *)
Lemma C9_counterexample :
  ~ NoDup [x01; x01] /\ In x00 [x00; x01] /\
  @toprf.Evaluate R255 (toprf.mkShare x01 Zmod.one) vecA_alpha [x01; x01] =
    Ok (x01 :: vecA_alpha) /\
  @toprf.Evaluate R255 (toprf.mkShare x01 Zmod.one) vecA_alpha [x00; x01] =
    Ok (x01 :: zero_bytes).
Proof.
  split; [|split; [|split]].
  - intros H. inversion H as [|? ? Hnotin _]. apply Hnotin. left. reflexivity.
  - left. reflexivity.
  - vm_compute. reflexivity.
  - vm_compute. reflexivity.
Qed.

(** * Further properties of the code *)

(** ** CreateShares: what it returns, and when *)

Lemma draw_coeffs_cases E n : forall k,
  toprf.draw_coeffs E k n =
  if existsb (rand_fails E) (seq k n)
  then Panic
  else Ok (map (fun j => Scalar_FromUniformBytes (map (rand_byte E j) (seq 0 64)))
               (seq k n)).
Proof.
  induction n as [|m IH]; intros k; cbn [toprf.draw_coeffs seq existsb map];
    [reflexivity|].
  unfold rand_Read. destruct (rand_fails E k) eqn:Ek; cbn [orb]; [reflexivity|].
  rewrite IH. destruct (existsb _ _); reflexivity.
Qed.

(** X1: with valid parameters, [n <= 254] and an entropy source whose
    reads succeed, [CreateShares] returns exactly [n] shares, the share at
    position [i] (from 0) carrying the index [i + 1]. *)
Theorem X1_CreateShares_indexes (E : Entropy) (secret : Scalar) (n t : byte) :
  1 <= byte_to_Z t <= byte_to_Z n -> byte_to_Z n <= 254 ->
  (forall k, rand_fails E k = false) ->
  exists shares,
    toprf.CreateShares E secret n t = Ok shares /\
    map toprf.Index shares =
      map (fun i => Z_to_byte (Z.of_nat i)) (seq 1 (Z.to_nat (byte_to_Z n))).
Proof.
  intros Ht Hn Hrand. rewrite CreateShares_cases.
  replace ((byte_to_Z t <? 1) || (byte_to_Z n <? byte_to_Z t)) with false
    by (symmetry; apply orb_false_iff; split; apply Z.ltb_ge; lia).
  destruct (draw_coeffs_total E (Z.to_nat (byte_to_Z t - 1)) 0 Hrand) as [coeffs ->].
  replace (byte_to_Z n =? 255) with false by (symmetry; apply Z.eqb_neq; lia).
  eexists. split; [reflexivity|].
  unfold shares_of. rewrite map_map. reflexivity.
Qed.

Lemma X1_CreateShares_indexes_witness :
  exists shares,
    toprf.CreateShares counting_entropy demo_secret x03 x02 = Ok shares /\
    map toprf.Index shares =
      map (fun i => Z_to_byte (Z.of_nat i)) (seq 1 (Z.to_nat (byte_to_Z x03))).
Proof.
  apply (X1_CreateShares_indexes counting_entropy demo_secret x03 x02).
  - split; vm_compute; discriminate.
  - vm_compute; discriminate.
  - reflexivity.
Defined.

(** X2: with [n = 255] the call never returns: after the 255th share the
    [uint8] counter wraps to 0, the loop goes on and indexes [shares[255]],
    out of range. *)
Theorem X2_CreateShares_255_panics (E : Entropy) (secret : Scalar) (t : byte) :
  1 <= byte_to_Z t -> (forall k, rand_fails E k = false) ->
  toprf.CreateShares E secret xff t = Panic.
Proof.
  intros Ht Hrand. rewrite CreateShares_cases.
  pose proof (byte_to_Z_range t) as Hr.
  change (byte_to_Z xff) with 255.
  replace ((byte_to_Z t <? 1) || (255 <? byte_to_Z t)) with false
    by (symmetry; apply orb_false_iff; split; apply Z.ltb_ge; lia).
  destruct (draw_coeffs_total E (Z.to_nat (byte_to_Z t - 1)) 0 Hrand) as [coeffs ->].
  reflexivity.
Qed.

Lemma X2_CreateShares_255_panics_witness :
  toprf.CreateShares counting_entropy demo_secret xff x02 = Panic.
Proof.
  apply (X2_CreateShares_255_panics counting_entropy demo_secret x02).
  - vm_compute; discriminate.
  - reflexivity.
Defined.

(** X3: with threshold 1 no randomness is read and every share carries the
    secret itself. *)
Theorem X3_CreateShares_threshold_one (E : Entropy) (secret : Scalar) (n : byte) :
  1 <= byte_to_Z n <= 254 ->
  toprf.CreateShares E secret n x01 =
  Ok (map (fun i => toprf.mkShare (Z_to_byte (Z.of_nat i)) secret)
          (seq 1 (Z.to_nat (byte_to_Z n)))).
Proof.
  intros Hn. rewrite CreateShares_cases.
  change (byte_to_Z x01) with 1.
  replace ((1 <? 1) || (byte_to_Z n <? 1)) with false
    by (symmetry; apply orb_false_iff; split; apply Z.ltb_ge; lia).
  cbn [Z.sub Z.to_nat toprf.draw_coeffs Z.opp Z.add Z.pos_sub].
  replace (byte_to_Z n =? 255) with false by (symmetry; apply Z.eqb_neq; lia).
  f_equal. unfold shares_of. apply map_ext. intros i.
  unfold share_at. f_equal. cbn [poly_eval]. ring.
Qed.

Lemma X3_CreateShares_threshold_one_witness :
  toprf.CreateShares no_entropy demo_secret x03 x01 =
  Ok (map (fun i => toprf.mkShare (Z_to_byte (Z.of_nat i)) demo_secret)
          (seq 1 (Z.to_nat (byte_to_Z x03)))).
Proof.
  apply (X3_CreateShares_threshold_one no_entropy demo_secret x03).
  split; vm_compute; discriminate.
Defined.

(** X4: with valid parameters, [n <= 254] and reads that succeed,
    [CreateShares] deals a polynomial: the share of participant [i] is
    [(i, f(i))] where [f] has the constant term [secret] and, as coefficient
    of [x^(j+1)], the 64 bytes of read [j] reduced modulo the group order,
    for [j < t - 1]. *)
Theorem X4_CreateShares_deals_polynomial (E : Entropy) (secret : Scalar) (n t : byte) :
  1 <= byte_to_Z t <= byte_to_Z n -> byte_to_Z n <= 254 ->
  (forall k, rand_fails E k = false) ->
  toprf.CreateShares E secret n t =
  Ok (map (fun i =>
             toprf.mkShare (Z_to_byte (Z.of_nat i))
               (poly_eval
                  (secret ::
                   map (fun j => Scalar_FromUniformBytes (map (rand_byte E j) (seq 0 64)))
                       (seq 0 (Z.to_nat (byte_to_Z t - 1))))
                  (toprf.scalarFromUint8 (Z_to_byte (Z.of_nat i)))))
          (seq 1 (Z.to_nat (byte_to_Z n)))).
Proof.
  intros Ht Hn Hrand. rewrite CreateShares_cases.
  replace ((byte_to_Z t <? 1) || (byte_to_Z n <? byte_to_Z t)) with false
    by (symmetry; apply orb_false_iff; split; apply Z.ltb_ge; lia).
  rewrite draw_coeffs_cases.
  replace (existsb (rand_fails E) (seq 0 (Z.to_nat (byte_to_Z t - 1)))) with false.
  - replace (byte_to_Z n =? 255) with false by (symmetry; apply Z.eqb_neq; lia).
    reflexivity.
  - symmetry. apply not_true_is_false. intros Hex.
    apply existsb_exists in Hex as [k [_ Hk]]. rewrite Hrand in Hk. discriminate Hk.
Qed.

Lemma X4_CreateShares_deals_polynomial_witness :
  toprf.CreateShares counting_entropy demo_secret x03 x02 =
  Ok (map (fun i =>
             toprf.mkShare (Z_to_byte (Z.of_nat i))
               (poly_eval
                  (demo_secret ::
                   map (fun j => Scalar_FromUniformBytes
                                   (map (rand_byte counting_entropy j) (seq 0 64)))
                       (seq 0 (Z.to_nat (byte_to_Z x02 - 1))))
                  (toprf.scalarFromUint8 (Z_to_byte (Z.of_nat i)))))
          (seq 1 (Z.to_nat (byte_to_Z x03)))).
Proof.
  apply (X4_CreateShares_deals_polynomial counting_entropy demo_secret x03 x02).
  - split; vm_compute; discriminate.
  - vm_compute; discriminate.
  - reflexivity.
Defined.

(** ** InterpolateScalar: beyond the secret *)

(** X5: any [t] or more distinct shares of a dealing determine the whole
    dealing: interpolating them at 0 returns the secret, and interpolating
    them at the index of any share of the dealing returns that share's
    value. *)
Theorem X5_shares_determine_dealing (E : Entropy) (secret : Scalar) (n t : byte)
    (shares S : list toprf.Share) :
  toprf.CreateShares E secret n t = Ok shares ->
  NoDup S -> incl S shares -> (Z.to_nat (byte_to_Z t) <= List.length S)%nat ->
  toprf.InterpolateScalar x00 S = Ok secret /\
  forall sh, In sh shares ->
    toprf.InterpolateScalar (toprf.Index sh) S = Ok (toprf.Value sh).
Proof.
  intros Hc Hnd Hincl Hlen.
  destruct (CreateShares_Ok _ _ _ _ _ Hc) as [coeffs [Hcl ->]].
  pose proof (byte_to_Z_range n) as Hn.
  assert (Hn255 : (Z.to_nat (byte_to_Z n) <= 255)%nat) by lia.
  assert (Hdeg : (List.length coeffs < List.length S)%nat) by lia.
  split; [apply (shares_interpolate secret coeffs _ S Hn255 Hnd Hincl Hdeg)|].
  intros sh Hsh.
  rewrite (InterpolateScalar_poly (secret :: coeffs) (toprf.Index sh) S).
  - f_equal. symmetry. apply (In_shares_of secret coeffs _ sh Hn255 Hsh).
  - intros ->. cbn [List.length] in Hdeg. lia.
  - apply (NoDup_map_Index secret coeffs (Z.to_nat (byte_to_Z n))); assumption.
  - cbn [List.length]. lia.
  - intros s Hs. apply (In_shares_of secret coeffs _ s Hn255). apply Hincl. exact Hs.
Qed.

Lemma X5_shares_determine_dealing_witness :
  toprf.InterpolateScalar x00 demo_pick = Ok demo_secret /\
  forall sh, In sh (shares_of demo_secret demo_coeffs 3) ->
    toprf.InterpolateScalar (toprf.Index sh) demo_pick = Ok (toprf.Value sh).
Proof.
  apply (X5_shares_determine_dealing counting_entropy demo_secret x03 x02
           (shares_of demo_secret demo_coeffs 3) demo_pick).
  - rewrite CreateShares_cases. reflexivity.
  - constructor.
    + intros [H|[]]. apply (f_equal toprf.Index) in H. discriminate H.
    + constructor; [intros [] | constructor].
  - intros s [<-|[<-|[]]]; unfold shares_of; cbn [seq map]; auto with datatypes.
  - cbn. lia.
Defined.

(** ** The wire format of shares and parts *)

Lemma Share_MarshalBinary_eq (s : toprf.Share) :
  toprf.Share_MarshalBinary (toprf.share_ptr s) =
  Ok (toprf.Index s :: Scalar_Encode (toprf.Value s)).
Proof.
  unfold toprf.Share_MarshalBinary, toprf.share_ptr.
  cbn [toprf.PtrValue toprf.PtrIndex].
  change (set_nth 0 (toprf.Index s) (make_bytes (Z.to_nat toprf.ShareBytes)))
    with (toprf.Index s :: make_bytes 32).
  cbn [firstn skipn app]. rewrite copy_full by apply length_Scalar_Encode. reflexivity.
Qed.


(** X7: the wire form of a share is unique: whatever [UnmarshalBinary]
    accepts is what [MarshalBinary] writes for the share it returns. *)
Theorem X7_Share_wire_canonical (data : bytes) (s : toprf.Share) :
  toprf.Share_UnmarshalBinary data = Ok s ->
  toprf.Share_MarshalBinary (toprf.share_ptr s) = Ok data.
Proof.
  unfold toprf.Share_UnmarshalBinary. intros H.
  destruct (negb (len data =? toprf.ShareBytes)); [discriminate|].
  destruct data as [|d0 rest]; [discriminate|].
  destruct (Scalar_Decode rest) as [v|] eqn:Ev; [|discriminate].
  injection H as <-. rewrite Share_MarshalBinary_eq. cbn [toprf.Index toprf.Value].
  rewrite (Scalar_Encode_Decode rest v Ev). reflexivity.
Qed.

Lemma X7_Share_wire_canonical_witness :
  toprf.Share_MarshalBinary (toprf.share_ptr (toprf.mkShare x07 Zmod.one)) =
  Ok (x07 :: one_bytes).
Proof.
  apply (X7_Share_wire_canonical (x07 :: one_bytes) (toprf.mkShare x07 Zmod.one)).
  vm_compute. reflexivity.
Defined.

Section PartWire.
Context {G : Group} {GL : GroupLaws G}.


End PartWire.


(** ** ThresholdCombine *)

Lemma Part_UnmarshalBinary_cases {G : Group} (data : bytes) :
  toprf.Part_UnmarshalBinary data =
  if negb (List.length data =? 33)%nat then Err ErrPartLength
  else match Element_Decode (tl data) with
       | Some e => Ok (toprf.mkPart (hd x00 data) e)
       | None => Err ErrDecode
       end.
Proof.
  unfold toprf.Part_UnmarshalBinary, len, toprf.PartBytes.
  destruct (Nat.eqb_spec (List.length data) 33) as [Hl|Hl].
  - rewrite Hl. change (Z.of_nat 33 =? 33) with true. cbn [negb].
    destruct data as [|d0 rest]; [discriminate Hl|]. reflexivity.
  - replace (Z.of_nat (List.length data) =? 33) with false
      by (symmetry; apply Z.eqb_neq; lia).
    reflexivity.
Qed.

Lemma unmarshal_parts_cases {G : Group} (responses : list bytes) :
  (exists parts, toprf.unmarshal_parts responses = Ok parts /\
                 List.length parts = List.length responses /\
                 Forall well_formed_part responses) \/
  (exists e, toprf.unmarshal_parts responses = Err e /\
             ~ Forall well_formed_part responses).
Proof.
  induction responses as [|r rest IH]; cbn [toprf.unmarshal_parts].
  - left. exists []. split; [reflexivity|]. split; [reflexivity | constructor].
  - rewrite Part_UnmarshalBinary_cases.
    destruct (Nat.eqb_spec (List.length r) 33) as [Hl|Hl]; cbn [negb bind].
    + destruct (Element_Decode (tl r)) as [e|] eqn:Ed; cbn [bind].
      * destruct IH as [[parts [-> [Hlen HF]]]|[e' [-> HF]]]; cbn [bind].
        -- left. eexists. split; [reflexivity|].
           split; [cbn [List.length]; rewrite Hlen; reflexivity|].
           constructor; [|exact HF]. split; [exact Hl | rewrite Ed; discriminate].
        -- right. eexists. split; [reflexivity|].
           intros H. inversion H; subst. contradiction.
      * right. eexists. split; [reflexivity|].
        intros H. inversion H as [|? ? Hw _]; subst. destruct Hw as [_ Hd].
        rewrite Ed in Hd. contradiction.
    + right. eexists. split; [reflexivity|].
      intros H. inversion H as [|? ? Hw _]; subst. destruct Hw as [Hl' _].
      contradiction.
Qed.

(** X10: [ThresholdCombine] never panics, and it returns a result exactly
    when it is given between 1 and 255 responses, each of 33 bytes with a
    decodable element after the index byte.  It asks for no minimum number
    of responses. *)
Theorem X10_ThresholdCombine_succeeds_iff {G : Group} (responses : list bytes) :
  ((exists beta, toprf.ThresholdCombine responses = Ok beta) <->
   (0 < List.length responses <= 255)%nat /\ Forall well_formed_part responses) /\
  toprf.ThresholdCombine responses <> Panic.
Proof.
  unfold toprf.ThresholdCombine, len.
  destruct (Z.eqb_spec (Z.of_nat (List.length responses)) 0) as [H0|H0].
  { split; [|discriminate]. split; [intros [beta H]; discriminate H | intros [H _]; lia]. }
  rewrite Z.gtb_ltb.
  destruct (Z.ltb_spec 255 (Z.of_nat (List.length responses))) as [H255|H255].
  { split; [|discriminate]. split; [intros [beta H]; discriminate H | intros [H _]; lia]. }
  destruct (unmarshal_parts_cases responses) as [[parts [-> [Hlen HF]]]|[e [-> HF]]];
    cbn [bind].
  - destruct (sort_outer_ok (List.length parts - 1) 0 parts ltac:(lia))
      as [sorted [-> _]].
    cbn [bind]. split; [|discriminate].
    split; [intros _; split; [lia | exact HF] | intros _; eexists; reflexivity].
  - split; [|discriminate].
    split; [intros [beta H]; discriminate H | intros [_ H]; contradiction].
Qed.

Section CombineOrder.
Context {G : Group} {GL : GroupLaws G}.

Lemma unmarshal_parts_Permutation (rs rs' : list bytes) :
  Permutation rs rs' ->
  forall parts, toprf.unmarshal_parts rs = Ok parts ->
  exists parts', toprf.unmarshal_parts rs' = Ok parts' /\ Permutation parts parts'.
Proof.
  induction 1 as [|r l l' _ IH|a b l|l l' l'' _ IH1 _ IH2]; intros parts Hp.
  - exists parts. split; [exact Hp | reflexivity].
  - cbn [toprf.unmarshal_parts] in *.
    destruct (toprf.Part_UnmarshalBinary r) as [p| |]; try discriminate. cbn [bind] in *.
    destruct (toprf.unmarshal_parts l) as [ps| |]; try discriminate. cbn [bind] in *.
    injection Hp as <-. destruct (IH ps eq_refl) as [ps' [-> Hperm]]. cbn [bind].
    eexists. split; [reflexivity|]. apply perm_skip. exact Hperm.
  - cbn [toprf.unmarshal_parts] in *.
    destruct (toprf.Part_UnmarshalBinary b) as [pb| |]; try discriminate. cbn [bind] in *.
    destruct (toprf.Part_UnmarshalBinary a) as [pa| |]; try discriminate. cbn [bind] in *.
    destruct (toprf.unmarshal_parts l) as [ps| |]; try discriminate. cbn [bind] in *.
    injection Hp as <-. eexists. split; [reflexivity|]. apply perm_swap.
  - destruct (IH1 parts Hp) as [p1 [H1 Hperm1]].
    destruct (IH2 p1 H1) as [p2 [H2 Hperm2]].
    exists p2. split; [exact H2|]. etransitivity; eassumption.
Qed.

Lemma ThresholdCombine_Ok_inv (responses : list bytes) (beta : bytes) :
  toprf.ThresholdCombine responses = Ok beta ->
  (0 < List.length responses <= 255)%nat /\
  exists parts, toprf.unmarshal_parts responses = Ok parts.
Proof.
  unfold toprf.ThresholdCombine, len. intros H.
  destruct (Z.eqb_spec (Z.of_nat (List.length responses)) 0) as [H0|H0]; [discriminate|].
  rewrite Z.gtb_ltb in H.
  destruct (Z.ltb_spec 255 (Z.of_nat (List.length responses))) as [H255|H255];
    [discriminate|].
  split; [lia|].
  destruct (toprf.unmarshal_parts responses) as [parts| |]; try discriminate.
  exists parts. reflexivity.
Qed.

(** X11: the result of [ThresholdCombine] does not depend on the order in
    which the responses arrive. *)
Theorem X11_ThresholdCombine_order (responses responses' : list bytes) (beta : bytes) :
  Permutation responses responses' ->
  toprf.ThresholdCombine responses = Ok beta ->
  toprf.ThresholdCombine responses' = Ok beta.
Proof.
  intros Hperm Hc.
  destruct (ThresholdCombine_Ok_inv responses beta Hc) as [Hlen [parts Hparts]].
  destruct (unmarshal_parts_Permutation _ _ Hperm parts Hparts) as [parts' [Hparts' Hpp]].
  destruct (ThresholdCombine_decoded responses parts Hlen Hparts) as [b [Hb ->]].
  assert (Hlen' : (0 < List.length responses' <= 255)%nat)
    by (rewrite <- (Permutation_length Hperm); exact Hlen).
  destruct (ThresholdCombine_decoded responses' parts' Hlen' Hparts') as [b' [Hb' ->]].
  rewrite Hb'. rewrite Hb in Hc. rewrite <- Hc. f_equal.
  apply (fold_Add_Permutation toprf.PElement). symmetry. exact Hpp.
Qed.

(** X12: a single well-formed response is passed through: the result is
    the encoding of its element, whatever its index. *)
Theorem X12_ThresholdCombine_single (idx : byte) (e : Element) :
  toprf.ThresholdCombine [idx :: Element_Encode e] = Ok (Element_Encode e).
Proof.
  destruct (Part_UnmarshalBinary_Marshal idx e) as [e' [Hu He]].
  destruct (ThresholdCombine_decoded [idx :: Element_Encode e] [toprf.mkPart idx e'])
    as [b [Hb ->]].
  - cbn [List.length]. lia.
  - cbn [toprf.unmarshal_parts]. rewrite Hu. reflexivity.
  - rewrite Hb. f_equal. cbn [fold_left toprf.PElement].
    rewrite Add_identity. exact He.
Qed.

End CombineOrder.

Lemma X11_ThresholdCombine_order_witness :
  @toprf.ThresholdCombine DLog [x02 :: one_bytes; x01 :: zero_bytes] = Ok one_bytes.
Proof.
  apply (@X11_ThresholdCombine_order DLog DLog_laws
           [x01 :: zero_bytes; x02 :: one_bytes] [x02 :: one_bytes; x01 :: zero_bytes]
           one_bytes).
  - apply perm_swap.
  - vm_compute. reflexivity.
Defined.

Lemma X12_ThresholdCombine_single_witness :
  @toprf.ThresholdCombine DLog [x09 :: @Element_Encode DLog Zmod.one] =
  Ok (@Element_Encode DLog Zmod.one).
Proof.
  apply (@X12_ThresholdCombine_single DLog DLog_laws x09 Zmod.one).
Defined.

(** ** InterpolateScalar on a single share *)

(** X14: a single share interpolates to its own value at every point. *)
Theorem X14_InterpolateScalar_single (x : byte) (s : toprf.Share) :
  toprf.InterpolateScalar x [s] = Ok (toprf.Value s).
Proof.
  rewrite (InterpolateScalar_poly [toprf.Value s] x [s]).
  - f_equal. cbn [poly_eval]. ring.
  - discriminate.
  - constructor; [intros [] | constructor].
  - reflexivity.
  - intros s' [<-|[]]. cbn [poly_eval]. ring.
Qed.

(** ** Package oprf: blinding *)

Lemma Blind_fixed_cases {G : Group} (E : Entropy) (x b : bytes) (h0 : Element) :
  oprf.hashToGroup x = Ok h0 ->
  oprf.Blind E x (Some b) =
  if negb (List.length b =? 32)%nat then Err ErrBlindLength
  else if le_int b <? ell
       then Ok (b, Element_Encode (Element_ScalarMult (Zmod.of_Z ell (le_int b)) h0))
       else Err ErrInvalidBlindScalar.
Proof.
  intros Hh. unfold oprf.Blind. rewrite Hh. unfold len, ScalarBytes, Scalar_Decode.
  destruct (Nat.eqb_spec (List.length b) 32) as [Hl|Hl].
  - unfold len. rewrite Hl. change (Z.of_nat 32 =? 32) with true. cbn [negb andb].
    destruct (le_int b <? ell); reflexivity.
  - replace (Z.of_nat (List.length b) =? 32) with false
      by (symmetry; apply Z.eqb_neq; lia).
    reflexivity.
Qed.

Lemma Blind_random_eq {G : Group} (E E' : Entropy) (x : bytes) :
  rand_fails E 0 = false ->
  oprf.Blind E x None =
  oprf.Blind E' x
    (Some (Scalar_Encode
             (Scalar_FromUniformBytes (map (rand_byte E 0) (seq 0 64))))).
Proof.
  intros Hrand. destruct (hashToGroup_total x) as [h0 Hh].
  unfold oprf.Blind. rewrite Hh. unfold rand_Read. rewrite Hrand.
  unfold len, ScalarBytes. rewrite length_Scalar_Encode.
  change (Z.of_nat 32 =? 32) with true. cbn [negb].
  rewrite Scalar_Decode_Encode. reflexivity.
Qed.

(** X15: hashing to the group never fails, so [Blind] with a given blind
    has two failures only: a blind that is not 32 bytes long, and a 32-byte
    blind that is not below the group order.  Otherwise it returns the blind
    unchanged with the encoding of [r . H(x)]; the entropy source is not
    touched. *)
Theorem X15_Blind_fixed_outcomes {G : Group} (E : Entropy) (x b : bytes) :
  exists h0,
    oprf.hashToGroup x = Ok h0 /\
    oprf.Blind E x (Some b) =
    if negb (List.length b =? 32)%nat then Err ErrBlindLength
    else if le_int b <? ell
         then Ok (b, Element_Encode (Element_ScalarMult (Zmod.of_Z ell (le_int b)) h0))
         else Err ErrInvalidBlindScalar.
Proof.
  destruct (hashToGroup_total x) as [h0 Hh]. exists h0.
  split; [exact Hh | apply Blind_fixed_cases; exact Hh].
Qed.

(** X16: the blind that [Blind] draws reproduces its result.  When the
    read succeeds, [Blind] with a nil blind returns the blind
    [r = encode(draw mod ell)], [draw] being the 64 bytes read, with some
    [alpha], and [Blind] with the given blind [r] returns the same pair. *)
Theorem X16_Blind_random_reproducible {G : Group} (E E' : Entropy) (x : bytes) :
  rand_fails E 0 = false ->
  exists alpha,
    oprf.Blind E x None =
      Ok (Scalar_Encode (Scalar_FromUniformBytes (map (rand_byte E 0) (seq 0 64))),
          alpha) /\
    oprf.Blind E' x
      (Some (Scalar_Encode (Scalar_FromUniformBytes (map (rand_byte E 0) (seq 0 64)))))
    = Ok (Scalar_Encode (Scalar_FromUniformBytes (map (rand_byte E 0) (seq 0 64))),
          alpha).
Proof.
  intros Hrand. destruct (hashToGroup_total x) as [h0 Hh].
  set (rS := Scalar_FromUniformBytes (map (rand_byte E 0) (seq 0 64))).
  exists (Element_Encode (Element_ScalarMult rS h0)).
  assert (Hfixed : forall E0, oprf.Blind E0 x (Some (Scalar_Encode rS)) =
            Ok (Scalar_Encode rS, Element_Encode (Element_ScalarMult rS h0))).
  { intros E0. unfold oprf.Blind. rewrite Hh.
    unfold len, ScalarBytes. rewrite length_Scalar_Encode.
    change (Z.of_nat 32 =? 32) with true. cbn [negb].
    rewrite Scalar_Decode_Encode. reflexivity. }
  split; [|apply Hfixed].
  unfold oprf.Blind. rewrite Hh. unfold rand_Read. rewrite Hrand. reflexivity.
Qed.

Lemma X16_Blind_random_reproducible_witness :
  exists alpha,
    @oprf.Blind DLog counting_entropy [x00] None =
      Ok (Scalar_Encode
            (Scalar_FromUniformBytes (map (rand_byte counting_entropy 0) (seq 0 64))),
          alpha) /\
    @oprf.Blind DLog no_entropy [x00]
      (Some (Scalar_Encode
               (Scalar_FromUniformBytes (map (rand_byte counting_entropy 0) (seq 0 64)))))
    = Ok (Scalar_Encode
            (Scalar_FromUniformBytes (map (rand_byte counting_entropy 0) (seq 0 64))),
          alpha).
Proof.
  apply (@X16_Blind_random_reproducible DLog counting_entropy no_entropy [x00]).
  reflexivity.
Defined.

Section OPRFExtras.
Context {G : Group} {GL : GroupLaws G}.

Lemma round_trip_fixed (E : Entropy) (k x r : bytes) (kS rS : Scalar) :
  Scalar_Decode k = Some kS -> Scalar_Decode r = Some rS -> rS <> Zmod.zero ->
  exists out, oprf_round_trip E k x r = Ok out /\ oprf_direct kS x = Ok out.
Proof.
  intros Hk Hr Hnz.
  destruct (hashToGroup_total x) as [h0 Hh].
  unfold oprf_round_trip, oprf_direct.
  rewrite (Blind_fixed E x r rS h0 Hh Hr), Hh. cbn [bind fst snd].
  destruct (Decode_Encode (Element_ScalarMult rS h0)) as [A [HA HAeq]].
  rewrite (Evaluate_decoded k kS _ A Hk (len_Element_Encode _) HA). cbn [bind].
  destruct (Decode_Encode (Element_ScalarMult kS A)) as [B [HB HBeq]].
  rewrite (Unblind_decoded r rS _ B Hr (len_Element_Encode _) HB). cbn [bind].
  rewrite (unblinded_element kS rS h0 A B Hnz HAeq HBeq).
  pose proof (Finalize_cases x (Element_Encode (Element_ScalarMult kS h0))) as HF.
  rewrite len_Element_Encode in HF. change (32 =? ElementBytes) with true in HF.
  destruct HF as [out [HF _]]. exists out. split; exact HF.
Qed.

(** X17: the round trip with a blind drawn by [Blind]: when the read
    succeeds and the draw is not a multiple of the group order, blinding,
    evaluating, unblinding and finalizing returns the 64 bytes of the direct
    evaluation; the output does not depend on the draw. *)
Theorem X17_round_trip_random (E : Entropy) (k x : bytes) (kS : Scalar) :
  rand_fails E 0 = false ->
  Scalar_FromUniformBytes (map (rand_byte E 0) (seq 0 64)) <> Zmod.zero ->
  Scalar_Decode k = Some kS ->
  exists out, oprf_round_trip_random E k x = Ok out /\ oprf_direct kS x = Ok out.
Proof.
  intros Hrand Hnz Hk.
  set (rS := Scalar_FromUniformBytes (map (rand_byte E 0) (seq 0 64))) in *.
  destruct (round_trip_fixed E k x (Scalar_Encode rS) kS rS Hk
              (Scalar_Decode_Encode rS) Hnz) as [out [Hrt Hd]].
  exists out. split; [|exact Hd].
  unfold oprf_round_trip_random. rewrite (Blind_random_eq E E x Hrand).
  exact Hrt.
Qed.

(** X18: [Unblind] undoes [Blind]: for a canonical nonzero blind [r],
    unblinding the blinded element itself returns the encoding of
    [H(x)]. *)
Theorem X18_Unblind_undoes_Blind (E : Entropy) (x r : bytes) (rS : Scalar) :
  Scalar_Decode r = Some rS -> rS <> Zmod.zero ->
  exists alpha h0,
    oprf.Blind E x (Some r) = Ok (r, alpha) /\
    oprf.hashToGroup x = Ok h0 /\
    oprf.Unblind r alpha = Ok (Element_Encode h0).
Proof.
  intros Hr Hnz. destruct (hashToGroup_total x) as [h0 Hh].
  exists (Element_Encode (Element_ScalarMult rS h0)), h0.
  split; [apply Blind_fixed; assumption|]. split; [exact Hh|].
  destruct (Decode_Encode (Element_ScalarMult rS h0)) as [A [HA HAeq]].
  rewrite (Unblind_decoded r rS _ A Hr (len_Element_Encode _) HA).
  f_equal. rewrite HAeq, ScalarMult_mul, Scalar_Invert_l by exact Hnz.
  apply ScalarMult_one.
Qed.

(** X19: a key that [KeyGen] returns is a canonical scalar of 32 bytes, and
    [Evaluate] under it answers every valid [alpha]. *)
Theorem X19_KeyGen_key_is_valid (E : Entropy) (key alpha : bytes) (A : Element) :
  oprf.KeyGen E = Ok key -> len alpha = 32 -> Element_Decode alpha = Some A ->
  List.length key = 32%nat /\
  exists kS,
    Scalar_Decode key = Some kS /\
    oprf.Evaluate key alpha = Ok (Element_Encode (Element_ScalarMult kS A)).
Proof.
  unfold oprf.KeyGen, rand_Read. intros Hk Hl Ha.
  destruct (rand_fails E 0); [discriminate|]. injection Hk as <-.
  split; [apply length_Scalar_Encode|]. eexists.
  split; [apply Scalar_Decode_Encode|].
  apply Evaluate_decoded; [apply Scalar_Decode_Encode | exact Hl | exact Ha].
Qed.

End OPRFExtras.

Lemma X17_round_trip_random_witness :
  exists out,
    @oprf_round_trip_random DLog counting_entropy vecA_key [x00] = Ok out /\
    @oprf_direct DLog (Zmod.of_Z ell (le_int vecA_key)) [x00] = Ok out.
Proof.
  apply (@X17_round_trip_random DLog DLog_laws counting_entropy vecA_key [x00]
           (Zmod.of_Z ell (le_int vecA_key))).
  - reflexivity.
  - intros H. apply (f_equal Zmod.to_Z) in H. vm_compute in H. discriminate H.
  - vm_compute. reflexivity.
Defined.

Lemma X18_Unblind_undoes_Blind_witness :
  exists alpha h0,
    @oprf.Blind DLog no_entropy [x00] (Some one_bytes) = Ok (one_bytes, alpha) /\
    @oprf.hashToGroup DLog [x00] = Ok h0 /\
    @oprf.Unblind DLog one_bytes alpha = Ok (@Element_Encode DLog h0).
Proof.
  apply (@X18_Unblind_undoes_Blind DLog DLog_laws no_entropy [x00] one_bytes Zmod.one).
  - vm_compute. reflexivity.
  - exact Scalar_one_neq_zero.
Defined.

Lemma X19_KeyGen_key_is_valid_witness :
  List.length
    (Scalar_Encode
       (Scalar_FromUniformBytes (map (rand_byte counting_entropy 0) (seq 0 64)))) = 32%nat /\
  exists kS,
    Scalar_Decode
      (Scalar_Encode
         (Scalar_FromUniformBytes (map (rand_byte counting_entropy 0) (seq 0 64))))
      = Some kS /\
    @oprf.Evaluate DLog
      (Scalar_Encode
         (Scalar_FromUniformBytes (map (rand_byte counting_entropy 0) (seq 0 64))))
      one_bytes
    = Ok (@Element_Encode DLog (@Element_ScalarMult DLog kS Zmod.one)).
Proof.
  apply (@X19_KeyGen_key_is_valid DLog counting_entropy
           (Scalar_Encode
              (Scalar_FromUniformBytes (map (rand_byte counting_entropy 0) (seq 0 64))))
           one_bytes Zmod.one).
  - reflexivity.
  - reflexivity.
  - vm_compute. reflexivity.
Defined.

(** ** Package oprf: expandMessageXMD outside its range *)

(** X20: a negative length is not rejected: [expandMessageXMD] panics on
    it, when it allocates the output or when it cuts it. *)
Theorem X20_expandMessageXMD_negative (msg dst : bytes) (lenInBytes : Z) :
  - 2 ^ 63 <= lenInBytes < 0 ->
  oprf.expandMessageXMD msg dst lenInBytes = Panic.
Proof.
  intros H. unfold oprf.expandMessageXMD, oprf.sha512OutputBytes.
  rewrite (int_wrap_small (lenInBytes + 64)) by lia.
  rewrite (int_wrap_small (lenInBytes + 64 - 1)) by lia.
  set (q := Z.quot (lenInBytes + 64 - 1) 64).
  assert (Hq : q <= 0).
  { unfold q. change 0 with (Z.quot 63 64). apply Z.quot_le_mono; lia. }
  replace (q >? 255) with false by (symmetry; rewrite Z.gtb_ltb; apply Z.ltb_ge; lia).
  destruct (int_wrap (q * 64) <? 0); [reflexivity|].
  unfold slice_to.
  replace (0 <=? lenInBytes) with false by (symmetry; apply Z.leb_gt; lia).
  reflexivity.
Qed.

Lemma X20_expandMessageXMD_negative_witness :
  oprf.expandMessageXMD [x00] oprf.FinalizeDST (- 1) = Panic.
Proof.
  apply (X20_expandMessageXMD_negative [x00] oprf.FinalizeDST (- 1)). lia.
Defined.

(** ** Package dkg: Finish and the shares it produces *)

Lemma fold_left_sum_values (shares : list toprf.Share) : forall acc,
  fold_left (fun a s => Zmod.add a (toprf.Value s)) shares acc =
  Zmod.add acc (sum_values shares).
Proof.
  induction shares as [|s r IH]; intros acc; cbn [fold_left sum_values fold_right].
  - ring.
  - rewrite IH. fold (sum_values r). ring.
Qed.

Lemma Finish_cases (shares : list toprf.Share) (self : byte) :
  dkg.Finish shares self =
  if forallb (fun s => Byte.eqb (toprf.Index s) self) shares
  then Ok (toprf.mkShare self (sum_values shares))
  else Err ErrShareIndex.
Proof.
  unfold dkg.Finish. rewrite finish_loop_spec.
  destruct (forallb _ shares); [|reflexivity].
  rewrite fold_left_sum_values, Scalar_Decode_zero. do 2 f_equal. ring.
Qed.

(** X21: [Finish] returns the share [(self, sum of the values)] exactly
    when every share carries the index [self], and its index error as soon
    as one does not; on the empty list it returns the zero share. *)
Theorem X21_Finish_outcomes (shares : list toprf.Share) (self : byte) :
  dkg.Finish shares self =
  if forallb (fun s => Byte.eqb (toprf.Index s) self) shares
  then Ok (toprf.mkShare self (sum_values shares))
  else Err ErrShareIndex.
Proof.
  unfold dkg.Finish. rewrite Scalar_Decode_zero.
  assert (Hloop : forall l acc,
            dkg.finish_loop l self acc =
            if forallb (fun s => Byte.eqb (toprf.Index s) self) l
            then inr (Zmod.add acc (sum_values l)) else inl ErrShareIndex).
  { induction l as [|s r IH]; intros acc;
      cbn [dkg.finish_loop forallb sum_values fold_right].
    - f_equal. ring.
    - destruct (Byte.eqb (toprf.Index s) self); cbn [negb andb]; [|reflexivity].
      rewrite IH. fold (sum_values r). unfold Scalar_Add.
      destruct (forallb _ r); [f_equal; ring | reflexivity]. }
  rewrite Hloop. destruct (forallb _ shares); [|reflexivity].
  do 2 f_equal. ring.
Qed.

Lemma sum_values_dealt_to (polys : list (list Scalar)) (j : byte) :
  sum_values (dealt_to polys j) = poly_eval (poly_sum polys) (toprf.scalarFromUint8 j).
Proof.
  induction polys as [|cs r IH]; cbn [dealt_to map sum_values fold_right poly_sum];
    [reflexivity|].
  fold (poly_sum r). rewrite poly_eval_add. cbn [toprf.Value]. f_equal. exact IH.
Qed.

Lemma forallb_dealt_to (polys : list (list Scalar)) (j : byte) :
  forallb (fun s => Byte.eqb (toprf.Index s) j) (dealt_to polys j) = true.
Proof.
  induction polys as [|cs r IH]; cbn [dealt_to map forallb toprf.Index]; [reflexivity|].
  rewrite (proj2 (byte_eqb_eq j j) eq_refl). exact IH.
Qed.

Lemma finish_all_eq (polys : list (list Scalar)) (js : list byte) :
  finish_all polys js =
  Ok (map (fun j => toprf.mkShare j (poly_eval (poly_sum polys) (toprf.scalarFromUint8 j)))
          js).
Proof.
  induction js as [|j r IH]; cbn [finish_all map]; [reflexivity|].
  rewrite Finish_cases, forallb_dealt_to, sum_values_dealt_to. cbn [bind].
  rewrite IH. reflexivity.
Qed.

Lemma length_poly_sum (polys : list (list Scalar)) (t : nat) :
  Forall (fun cs => (List.length cs <= t)%nat) polys ->
  (List.length (poly_sum polys) <= t)%nat.
Proof.
  induction 1 as [|cs r Hcs _ IH]; cbn [poly_sum fold_right List.length]; [lia|].
  fold (poly_sum r). rewrite length_poly_add. lia.
Qed.

Lemma poly_eval_zero (cs : list Scalar) : poly_eval cs Zmod.zero = hd Zmod.zero cs.
Proof. destruct cs as [|c r]; cbn [poly_eval hd]; ring. Qed.

Lemma poly_sum_zero (polys : list (list Scalar)) :
  poly_eval (poly_sum polys) Zmod.zero = group_secret polys.
Proof.
  induction polys as [|cs r IH]; cbn [poly_sum group_secret fold_right]; [reflexivity|].
  fold (poly_sum r). fold (group_secret r).
  rewrite poly_eval_add, poly_eval_zero, IH. reflexivity.
Qed.

(** X22: the DKG is consistent.  When every dealer deals the values of a
    polynomial with at most [t] coefficients, the shares that [Finish]
    computes for any [t] or more distinct participants interpolate at 0 to
    the sum of the dealers' secrets, and [Reconstruct] returns it. *)
Theorem X22_dkg_final_shares_reconstruct (polys : list (list Scalar)) (t : nat)
    (js : list byte) :
  Forall (fun cs => (List.length cs <= t)%nat) polys ->
  NoDup js -> js <> [] -> (t <= List.length js)%nat ->
  exists finals,
    finish_all polys js = Ok finals /\
    map toprf.Index finals = js /\
    toprf.InterpolateScalar x00 finals = Ok (group_secret polys) /\
    dkg.Reconstruct finals = dkg.Reconstructed (group_secret polys).
Proof.
  intros Hpolys Hnd Hne Hlen. rewrite finish_all_eq. eexists. split; [reflexivity|].
  split; [rewrite map_map; cbn [toprf.Index]; apply map_id|].
  assert (Hint : toprf.InterpolateScalar x00
            (map (fun j => toprf.mkShare j
                    (poly_eval (poly_sum polys) (toprf.scalarFromUint8 j))) js) =
          Ok (group_secret polys)).
  { rewrite (InterpolateScalar_poly (poly_sum polys)).
    - rewrite scalarFromUint8_zero, poly_sum_zero. reflexivity.
    - destruct js; [contradiction | discriminate].
    - rewrite map_map. cbn [toprf.Index]. rewrite map_id. exact Hnd.
    - rewrite length_map. pose proof (length_poly_sum polys t Hpolys). lia.
    - intros s Hs. apply in_map_iff in Hs as [j [<- _]]. reflexivity. }
  split; [exact Hint|].
  unfold dkg.Reconstruct, len. rewrite length_map.
  replace (Z.of_nat (List.length js) =? 0) with false
    by (symmetry; apply Z.eqb_neq; destruct js; [contradiction | cbn [List.length]; lia]).
  rewrite Hint. reflexivity.
Qed.

Lemma X22_dkg_final_shares_reconstruct_witness :
  exists finals,
    finish_all demo_dealers [x03; x01] = Ok finals /\
    map toprf.Index finals = [x03; x01] /\
    toprf.InterpolateScalar x00 finals = Ok (group_secret demo_dealers) /\
    dkg.Reconstruct finals = dkg.Reconstructed (group_secret demo_dealers).
Proof.
  apply (X22_dkg_final_shares_reconstruct demo_dealers 2 [x03; x01]).
  - repeat constructor.
  - constructor.
    + intros [H|[]]. discriminate H.
    + constructor; [intros [] | constructor].
  - discriminate.
  - cbn. lia.
Defined.

(** ** Package dkg: VerifyCommitment *)

Section DKGExtras.
Context {G : Group} {GL : GroupLaws G}.

Lemma commitment_sum_honest (j : Scalar) (a : list Scalar) :
  (forall s, Element_Equal (Element_ScalarBaseMult s)
               (Element_ScalarMult s (Element_ScalarBaseMult Zmod.one))) ->
  forall k,
  Element_Equal (commitment_sum j k (map Element_ScalarBaseMult a))
                (Element_ScalarBaseMult (Zmod.mul (spow j k) (poly_eval a j))).
Proof.
  intros Hbase. induction a as [|c r IH]; intros k; cbn [map commitment_sum poly_eval].
  - rewrite (Hbase (Zmod.mul (spow j k) Zmod.zero)).
    replace (Zmod.mul (spow j k) Zmod.zero) with (Zmod.zero : Scalar) by ring.
    rewrite ScalarMult_zero. reflexivity.
  - rewrite IH. rewrite (Hbase c), (Hbase (Zmod.mul (spow j (S k)) (poly_eval r j))).
    rewrite (Hbase (Zmod.mul (spow j k) (Zmod.add c (Zmod.mul j (poly_eval r j))))).
    rewrite ScalarMult_mul, <- ScalarMult_add. cbn [spow].
    replace (Zmod.add (Zmod.mul (spow j k) c)
               (Zmod.mul (Zmod.mul j (spow j k)) (poly_eval r j)))
      with (Zmod.mul (spow j k) (Zmod.add c (Zmod.mul j (poly_eval r j)))) by ring.
    reflexivity.
Qed.

(** X23: an honest dealer passes.  When the commitments are the base-point
    multiples of the coefficients of a polynomial with [t >= 1]
    coefficients, and the share value is that polynomial at [self],
    [VerifyCommitment] returns success, whatever [n], the index [i] and the
    index written in the share. *)
Theorem X23_VerifyCommitment_honest (n t self i idx : byte) (a : list Scalar) :
  (forall s, Element_Equal (Element_ScalarBaseMult s)
               (Element_ScalarMult s (Element_ScalarBaseMult Zmod.one))) ->
  1 <= byte_to_Z t -> List.length a = Z.to_nat (byte_to_Z t) ->
  dkg.VerifyCommitment n t self i (map Element_ScalarBaseMult a)
    (toprf.mkShare idx (poly_eval a (toprf.scalarFromUint8 self))) = Ok tt.
Proof.
  intros Hbase Ht Hlen.
  rewrite VerifyCommitment_cases by (try rewrite length_map; assumption).
  destruct (Byte.eqb i self); [reflexivity|].
  cbn [toprf.Value].
  rewrite (commitment_sum_honest _ a Hbase 0). cbn [spow].
  rewrite Zmod.mul_1_l.
  rewrite (proj2 (bytes_eqb_eq _ _) eq_refl). reflexivity.
Qed.

End DKGExtras.

Lemma X23_VerifyCommitment_honest_witness :
  @dkg.VerifyCommitment DLog x03 x02 x03 x01
    (map (@Element_ScalarBaseMult DLog) [Zmod.of_Z ell 5; Zmod.of_Z ell 7])
    (toprf.mkShare x00
       (poly_eval [Zmod.of_Z ell 5; Zmod.of_Z ell 7] (toprf.scalarFromUint8 x03)))
  = Ok tt.
Proof.
  apply (@X23_VerifyCommitment_honest DLog DLog_laws x03 x02 x03 x01 x00
           [Zmod.of_Z ell 5; Zmod.of_Z ell 7]).
  - intros s. unfold Element_Equal.
    cbn [DLog Element_ScalarBaseMult Element_ScalarMult Element_Encode].
    f_equal. ring.
  - vm_compute. discriminate.
  - reflexivity.
Defined.

Lemma commit_loop_short {G : Group} (j : Scalar) (C : list Element) (m : nat) :
  forall (k : nat) (v : Element),
  (k <= List.length C)%nat -> (List.length C < k + m)%nat -> (k + m <= 256)%nat ->
  dkg.commit_loop m (Z.of_nat k) j C v = Panic.
Proof.
  induction m as [|m IH]; intros k v Hk Hlen Hmax; [lia|].
  cbn [dkg.commit_loop]. rewrite Nat2Z.id.
  destruct (nth_error C k) as [ck|] eqn:E; [|reflexivity].
  assert (Hk' : (k < List.length C)%nat) by (apply nth_error_Some; congruence).
  replace (uint8 (Z.of_nat k + 1)) with (Z.of_nat (S k))
    by (rewrite uint8_small by lia; lia).
  apply IH; lia.
Qed.

(** X24: [VerifyCommitment] does not check the length of the commitment
    vector: for a peer other than [self], a vector with fewer than
    [threshold] entries makes it index out of range and panic. *)
Theorem X24_VerifyCommitment_short_vector {G : Group} (n t self i : byte)
    (C : list Element) (share : toprf.Share) :
  i <> self -> (List.length C < Z.to_nat (byte_to_Z t))%nat ->
  dkg.VerifyCommitment n t self i C share = Panic.
Proof.
  intros Hi Hlen. unfold dkg.VerifyCommitment.
  replace (Byte.eqb i self) with false by (symmetry; apply byte_eqb_neq; exact Hi).
  pose proof (byte_to_Z_range t) as Ht.
  destruct C as [|c0 rest]; [reflexivity|]. cbn [nth_error].
  change 1 with (Z.of_nat 1).
  rewrite (commit_loop_short _ (c0 :: rest) (Z.to_nat (byte_to_Z t - Z.of_nat 1)) 1).
  - reflexivity.
  - cbn [List.length]. lia.
  - lia.
  - lia.
Qed.

Lemma X24_VerifyCommitment_short_vector_witness :
  @dkg.VerifyCommitment DLog x03 x02 x01 x02 [Zmod.of_Z ell 5]
    (toprf.mkShare x01 Zmod.one) = Panic.
Proof.
  apply (@X24_VerifyCommitment_short_vector DLog x03 x02 x01 x02 [Zmod.of_Z ell 5]
           (toprf.mkShare x01 Zmod.one)).
  - discriminate.
  - cbn. lia.
Defined.

(** ** Package dkg: VerifyCommitments *)

Section VerifyAll.
Context {G : Group} {GL : GroupLaws G}.

Lemma verify_loop_spec (n t self : byte) (commitments : list (list Element))
    (shares : list toprf.Share) :
  byte_to_Z n <= 254 -> 1 <= byte_to_Z t ->
  (Z.to_nat (byte_to_Z n) <= List.length commitments)%nat ->
  (Z.to_nat (byte_to_Z n) <= List.length shares)%nat ->
  Forall (fun c => List.length c = Z.to_nat (byte_to_Z t)) commitments ->
  forall m k fuel fails,
  (k + m = Z.to_nat (byte_to_Z n))%nat -> (m < fuel)%nat ->
  dkg.verify_loop fuel n t self commitments shares (Z.of_nat (S k)) fails =
  Some (Ok (fails ++ map (fun i => Z_to_byte (Z.of_nat i))
                         (filter (peer_fails n t self commitments shares) (seq (S k) m)))).
Proof.
  intros Hn Ht Hc Hs Hall. pose proof (byte_to_Z_range n) as Hr.
  induction m as [|m IH]; intros k fuel fails Hk Hfuel;
    (destruct fuel as [|fuel]; [lia|]); cbn [dkg.verify_loop].
  - replace (Z.of_nat (S k) <=? byte_to_Z n) with false
      by (symmetry; apply Z.leb_gt; lia).
    cbn [seq filter map]. rewrite app_nil_r. reflexivity.
  - replace (Z.of_nat (S k) <=? byte_to_Z n) with true
      by (symmetry; apply Z.leb_le; lia).
    replace (uint8 (Z.of_nat (S k) + 1)) with (Z.of_nat (S (S k)))
      by (rewrite uint8_small by lia; lia).
    replace (Z.to_nat (uint8 (Z.of_nat (S k) - 1))) with k
      by (rewrite uint8_small by lia; lia).
    cbn [seq filter]. unfold peer_fails at 1.
    replace (S k - 1)%nat with k by lia.
    destruct (Byte.eqb (Z_to_byte (Z.of_nat (S k))) self) eqn:Eself; cbn [negb andb].
    + apply IH; lia.
    + destruct (nth_error commitments k) as [c|] eqn:Ec;
        [|apply nth_error_None in Ec; lia].
      destruct (nth_error shares k) as [s|] eqn:Es;
        [|apply nth_error_None in Es; lia].
      assert (Hlen : List.length c = Z.to_nat (byte_to_Z t)).
      { rewrite Forall_forall in Hall. apply Hall. eapply nth_error_In. exact Ec. }
      rewrite (VerifyCommitment_cases n t self _ c s Ht Hlen), Eself.
      destruct (bytes_eqb _ _); cbn [is_Err].
      * apply IH; lia.
      * rewrite IH by lia. cbn [map]. rewrite <- app_assoc. reflexivity.
Qed.

(** X25: for [n <= 254], commitment vectors of length [t >= 1] and at
    least [n] commitments and shares, [VerifyCommitments] returns, in
    increasing order, exactly the peers [i] in [1..n] other than [self]
    whose share [shares[i-1]] fails [VerifyCommitment] against
    [commitments[i-1]]. *)
Theorem X25_VerifyCommitments_outcome (fuel : nat) (n t self : byte)
    (commitments : list (list Element)) (shares : list toprf.Share) :
  byte_to_Z n <= 254 -> 1 <= byte_to_Z t ->
  (Z.to_nat (byte_to_Z n) <= List.length commitments)%nat ->
  (Z.to_nat (byte_to_Z n) <= List.length shares)%nat ->
  Forall (fun c => List.length c = Z.to_nat (byte_to_Z t)) commitments ->
  (Z.to_nat (byte_to_Z n) < fuel)%nat ->
  dkg.VerifyCommitments fuel n t self commitments shares =
  Some (Ok (map (fun i => Z_to_byte (Z.of_nat i))
                (filter (peer_fails n t self commitments shares)
                        (seq 1 (Z.to_nat (byte_to_Z n)))))).
Proof.
  intros Hn Ht Hc Hs Hall Hfuel. unfold dkg.VerifyCommitments.
  change 1 with (Z.of_nat 1).
  rewrite (verify_loop_spec n t self commitments shares Hn Ht Hc Hs Hall
             (Z.to_nat (byte_to_Z n)) 0 fuel []) by lia.
  reflexivity.
Qed.

End VerifyAll.

Lemma X25_VerifyCommitments_outcome_witness :
  @dkg.VerifyCommitments DLog 3 x02 x01 x01
    [[Zmod.of_Z ell 5]; [Zmod.of_Z ell 7]]
    [toprf.mkShare x01 (Zmod.of_Z ell 5); toprf.mkShare x01 (Zmod.of_Z ell 8)] =
  Some (Ok (map (fun i => Z_to_byte (Z.of_nat i))
              (filter (@peer_fails DLog x02 x01 x01
                         [[Zmod.of_Z ell 5]; [Zmod.of_Z ell 7]]
                         [toprf.mkShare x01 (Zmod.of_Z ell 5);
                          toprf.mkShare x01 (Zmod.of_Z ell 8)])
                      (seq 1 (Z.to_nat (byte_to_Z x02)))))).
Proof.
  apply (@X25_VerifyCommitments_outcome DLog DLog_laws 3 x02 x01 x01
           [[Zmod.of_Z ell 5]; [Zmod.of_Z ell 7]]
           [toprf.mkShare x01 (Zmod.of_Z ell 5); toprf.mkShare x01 (Zmod.of_Z ell 8)]).
  - vm_compute. discriminate.
  - vm_compute. discriminate.
  - cbn. lia.
  - cbn. lia.
  - repeat constructor.
  - cbn. lia.
Defined.

Lemma verify_loop_255 {G : Group} (t self : byte) (commitments : list (list Element))
    (shares : list toprf.Share) (fuel : nat) :
  forall i fails fails',
  0 <= i <= 255 ->
  dkg.verify_loop fuel xff t self commitments shares i fails <> Some (Ok fails').
Proof.
  induction fuel as [|fuel IH]; intros i fails fails' Hi; cbn [dkg.verify_loop];
    [discriminate|].
  change (byte_to_Z xff) with 255.
  replace (i <=? 255) with true by (symmetry; apply Z.leb_le; lia).
  assert (Hnext : 0 <= uint8 (i + 1) <= 255).
  { unfold uint8. pose proof (Z.mod_pos_bound (i + 1) 256 ltac:(lia)). lia. }
  destruct (Byte.eqb (Z_to_byte i) self); [apply IH; exact Hnext|].
  destruct (nth_error commitments _) as [c|]; [|discriminate].
  destruct (nth_error shares _) as [s|]; [|discriminate].
  destruct (dkg.VerifyCommitment _ _ _ _ _ _); [| |discriminate]; apply IH; exact Hnext.
Qed.

(** X26: with [n = 255] [VerifyCommitments] never returns a list, whatever
    its other arguments and however long it runs: the [uint8] counter wraps
    from 255 to 0 and the loop condition [i <= n] never fails. *)
Theorem X26_VerifyCommitments_255 {G : Group} (fuel : nat) (t self : byte)
    (commitments : list (list Element)) (shares : list toprf.Share)
    (fails : list byte) :
  dkg.VerifyCommitments fuel xff t self commitments shares <> Some (Ok fails).
Proof.
  unfold dkg.VerifyCommitments. apply verify_loop_255. lia.
Qed.

(** ** The two copies of scalarFromUint8 *)

(** X27: the packages toprf and dkg each have their own [scalarFromUint8];
    the two agree, map the byte [v] to the scalar [v], and are injective. *)
Theorem X27_scalarFromUint8_agree (v w : byte) :
  dkg.scalarFromUint8 v = toprf.scalarFromUint8 v /\
  Zmod.to_Z (toprf.scalarFromUint8 v) = byte_to_Z v /\
  (toprf.scalarFromUint8 v = toprf.scalarFromUint8 w <-> v = w).
Proof.
  split; [apply dkg_scalarFromUint8_eq|]. split.
  - rewrite toprf_scalarFromUint8_eq, Zmod.unsigned_of_Z.
    pose proof (byte_to_Z_range v). pose proof ell_bounds. apply Z.mod_small. lia.
  - split; [apply scalarFromUint8_inj | intros ->; reflexivity].
Qed.

(** ** Package toprf: ThreeHashTDH *)

Lemma coeff_alone (idx : byte) : toprf.coeff idx [idx] = Zmod.one.
Proof.
  unfold toprf.coeff. rewrite lcoeff_eq. unfold lagrange_basis.
  cbn [lagrange_num]. rewrite (proj2 (byte_eqb_eq idx idx) eq_refl).
  rewrite Zmod.mul_1_l.
  rewrite <- (Zmod.mul_1_r (Scalar_Invert Zmod.one)).
  apply Scalar_Invert_l. exact Scalar_one_neq_zero.
Qed.

Section TDH.
Context {G : Group} {GL : GroupLaws G}.

Lemma ThreeHashTDH_decoded (blake2b512 : bytes -> bytes) (k z : toprf.Share)
    (alpha ssid : bytes) (A : Element) :
  len alpha = 32 -> Element_Decode alpha = Some A ->
  toprf.ThreeHashTDH blake2b512 k z alpha ssid =
  toprf.TdhPart
    (toprf.Index k ::
     Element_Encode
       (Element_Add (Element_ScalarMult (toprf.Value k) A)
                    (Element_ScalarMult (toprf.Value z) (tdh_point blake2b512 alpha ssid)))).
Proof.
  intros Hl Ha. unfold toprf.ThreeHashTDH. rewrite Hl, Ha.
  change (32 =? ElementBytes) with true. cbn [negb].
  rewrite Part_MarshalBinary_eq. reflexivity.
Qed.

(** X28: with a zero share whose value is 0, [ThreeHashTDH] returns the
    part that [Evaluate] returns for the peer list made of the server
    alone: the key share is applied as it is, with no Lagrange coefficient,
    and the session identifier has no effect. *)
Theorem X28_ThreeHashTDH_zero_share (blake2b512 : bytes -> bytes) (k z : toprf.Share)
    (alpha ssid : bytes) (A : Element) :
  len alpha = 32 -> Element_Decode alpha = Some A -> toprf.Value z = Zmod.zero ->
  exists part,
    toprf.ThreeHashTDH blake2b512 k z alpha ssid = toprf.TdhPart part /\
    toprf.Evaluate k alpha [toprf.Index k] = Ok part.
Proof.
  intros Hl Ha Hz. rewrite (ThreeHashTDH_decoded blake2b512 k z alpha ssid A Hl Ha).
  eexists. split; [reflexivity|].
  rewrite (toprf_Evaluate_decoded k alpha A [toprf.Index k] Hl Ha).
  do 2 f_equal. rewrite coeff_alone, Zmod.mul_1_r, Hz.
  rewrite ScalarMult_zero, Add_identity_r. reflexivity.
Qed.

Lemma tdh_all_decoded (blake2b512 : bytes -> bytes)
    (kz : list (toprf.Share * toprf.Share)) (alpha ssid : bytes) (A : Element) :
  len alpha = 32 -> Element_Decode alpha = Some A ->
  tdh_all blake2b512 kz alpha ssid =
  Some (map (fun p =>
               toprf.Index (fst p) ::
               Element_Encode
                 (Element_Add (Element_ScalarMult (toprf.Value (fst p)) A)
                    (Element_ScalarMult (toprf.Value (snd p))
                       (tdh_point blake2b512 alpha ssid)))) kz).
Proof.
  intros Hl Ha. induction kz as [|[k z] r IH]; cbn [tdh_all map fst snd]; [reflexivity|].
  rewrite (ThreeHashTDH_decoded blake2b512 k z alpha ssid A Hl Ha), IH. reflexivity.
Qed.

Lemma unmarshal_parts_encoded {X : Type} (idx : X -> byte) (el : X -> Element)
    (l : list X) :
  exists parts,
    toprf.unmarshal_parts (map (fun x => idx x :: Element_Encode (el x)) l) = Ok parts /\
    Forall2 (fun x p => Element_Equal (toprf.PElement p) (el x)) l parts.
Proof.
  induction l as [|x r [parts [IH HF]]]; cbn [map toprf.unmarshal_parts].
  - exists []. split; [reflexivity | constructor].
  - destruct (Part_UnmarshalBinary_Marshal (idx x) (el x)) as [e' [-> He]].
    cbn [bind]. rewrite IH. cbn [bind]. eexists. split; [reflexivity|].
    constructor; [exact He | exact HF].
Qed.

Lemma sum_of_tdh_parts (A P : Element) (kz : list (toprf.Share * toprf.Share))
    (parts : list toprf.Part) :
  Forall2 (fun p part =>
             Element_Equal (toprf.PElement part)
               (Element_Add (Element_ScalarMult (toprf.Value (fst p)) A)
                            (Element_ScalarMult (toprf.Value (snd p)) P))) kz parts ->
  Element_Equal
    (fold_left (fun r part => Element_Add r (toprf.PElement part)) parts NewElement)
    (Element_Add (Element_ScalarMult (sum_values (map fst kz)) A)
                 (Element_ScalarMult (sum_values (map snd kz)) P)).
Proof.
  induction 1 as [|p part kz parts Hp _ IH].
  - cbn [fold_left map sum_values fold_right].
    rewrite !ScalarMult_zero, Add_identity. reflexivity.
  - rewrite fold_Add_cons, IH, Hp. cbn [map sum_values fold_right].
    fold (sum_values (map fst kz)). fold (sum_values (map snd kz)).
    rewrite !ScalarMult_add.
    set (a := Element_ScalarMult (toprf.Value (fst p)) A).
    set (b := Element_ScalarMult (toprf.Value (snd p)) P).
    set (c := Element_ScalarMult (sum_values (map fst kz)) A).
    set (d := Element_ScalarMult (sum_values (map snd kz)) P).
    rewrite (Add_assoc a b (Element_Add c d)).
    rewrite <- (Add_assoc b c d), (Add_comm b c), (Add_assoc c b d).
    rewrite <- (Add_assoc a c (Element_Add b d)). reflexivity.
Qed.

(** X29: combining the parts of [ThreeHashTDH].  For servers holding the
    pairs (key share, zero share) and a valid [alpha], [ThresholdCombine] of
    their parts is the encoding of
    [(sum of the key values) . alpha + (sum of the zero values) . H(ssid, alpha)];
    when the zero values sum to 0 it is what [oprf.Evaluate] returns under
    the key [sum of the key values]. *)
Theorem X29_ThreeHashTDH_combine (blake2b512 : bytes -> bytes)
    (kz : list (toprf.Share * toprf.Share)) (alpha ssid : bytes) (A : Element) :
  len alpha = 32 -> Element_Decode alpha = Some A ->
  (0 < List.length kz <= 255)%nat ->
  exists parts,
    tdh_all blake2b512 kz alpha ssid = Some parts /\
    toprf.ThresholdCombine parts =
      Ok (Element_Encode
            (Element_Add
               (Element_ScalarMult (sum_values (map fst kz)) A)
               (Element_ScalarMult (sum_values (map snd kz))
                  (tdh_point blake2b512 alpha ssid)))) /\
    (sum_values (map snd kz) = Zmod.zero ->
     toprf.ThresholdCombine parts =
       oprf.Evaluate (Scalar_Encode (sum_values (map fst kz))) alpha).
Proof.
  intros Hl Ha Hlen.
  set (P := tdh_point blake2b512 alpha ssid).
  exists (map (fun p => toprf.Index (fst p) ::
                 Element_Encode
                   (Element_Add (Element_ScalarMult (toprf.Value (fst p)) A)
                      (Element_ScalarMult (toprf.Value (snd p)) P))) kz).
  split; [apply tdh_all_decoded; assumption|].
  destruct (unmarshal_parts_encoded (fun p => toprf.Index (fst p))
              (fun p => Element_Add (Element_ScalarMult (toprf.Value (fst p)) A)
                          (Element_ScalarMult (toprf.Value (snd p)) P)) kz)
    as [parts [Hun HF]].
  destruct (ThresholdCombine_decoded _ parts
              ltac:(rewrite length_map; exact Hlen) Hun) as [beta [Hcomb ->]].
  pose proof (sum_of_tdh_parts A P kz parts HF) as Hsum.
  assert (Hfirst : toprf.ThresholdCombine
            (map (fun p => toprf.Index (fst p) ::
                    Element_Encode
                      (Element_Add (Element_ScalarMult (toprf.Value (fst p)) A)
                         (Element_ScalarMult (toprf.Value (snd p)) P))) kz) =
          Ok (Element_Encode
                (Element_Add (Element_ScalarMult (sum_values (map fst kz)) A)
                   (Element_ScalarMult (sum_values (map snd kz)) P)))).
  { etransitivity; [exact Hcomb|]. f_equal. exact Hsum. }
  split; [exact Hfirst|].
  intros Hz. rewrite Hfirst.
  rewrite (Evaluate_decoded (Scalar_Encode (sum_values (map fst kz)))
             (sum_values (map fst kz)) alpha A (Scalar_Decode_Encode _) Hl Ha).
  f_equal. rewrite Hz, ScalarMult_zero, Add_identity_r. reflexivity.
Qed.

End TDH.

Lemma X28_ThreeHashTDH_zero_share_witness :
  exists part,
    @toprf.ThreeHashTDH DLog demo_digest (toprf.mkShare x02 (Zmod.of_Z ell 6))
      (toprf.mkShare x02 Zmod.zero) one_bytes [x07] = toprf.TdhPart part /\
    @toprf.Evaluate DLog (toprf.mkShare x02 (Zmod.of_Z ell 6)) one_bytes [x02] = Ok part.
Proof.
  apply (@X28_ThreeHashTDH_zero_share DLog DLog_laws demo_digest
           (toprf.mkShare x02 (Zmod.of_Z ell 6)) (toprf.mkShare x02 Zmod.zero)
           one_bytes [x07] Zmod.one).
  - reflexivity.
  - vm_compute. reflexivity.
  - reflexivity.
Defined.

Lemma X29_ThreeHashTDH_combine_witness :
  exists parts,
    @tdh_all DLog demo_digest demo_tdh one_bytes [x07] = Some parts /\
    @toprf.ThresholdCombine DLog parts =
      Ok (@Element_Encode DLog
            (@Element_Add DLog
               (@Element_ScalarMult DLog (sum_values (map fst demo_tdh)) Zmod.one)
               (@Element_ScalarMult DLog (sum_values (map snd demo_tdh))
                  (@tdh_point DLog demo_digest one_bytes [x07])))) /\
    (sum_values (map snd demo_tdh) = Zmod.zero ->
     @toprf.ThresholdCombine DLog parts =
       @oprf.Evaluate DLog (Scalar_Encode (sum_values (map fst demo_tdh))) one_bytes).
Proof.
  apply (@X29_ThreeHashTDH_combine DLog DLog_laws demo_digest demo_tdh one_bytes [x07]
           Zmod.one).
  - reflexivity.
  - vm_compute. reflexivity.
  - cbn. lia.
Defined.
